(** * stress-ng: the non-libc merge sort and the NUMA node discovery

    A shallow embedding of [src/stress-mergesort.c]:
    - [mergesort_copy], [mergesort_partition4], [mergesort_partition] and
      [mergesort_nonlibc] over a flat byte memory;
    - [hex_to_int] and [stress_numa_get_mem_nodes] over a heap of list nodes;
    - the control skeleton of the main loop of [stress_numa].

    Memory blocks are total maps from byte offsets to bytes.  A pointer into
    the caller's buffer is a byte offset from [base], a pointer into the
    scratch mapping a byte offset from [lhs]; the two blocks never alias
    (they are [RESTRICT] in the source).  Offsets are unbounded integers, the
    one place where [size_t] wrap-around decides the behaviour
    ([nmemb - 1]) has it written out. *)

From Stdlib Require Import ZArith Lia List Strings.Byte Ascii String.
From stdpp Require Import base option list sorting gmap.

Local Open Scope Z_scope.

(** ** Bytes, words and memory blocks *)

Module Mem.

Definition mem := Z -> byte.

Definition store8 (m : mem) (p : Z) (b : byte) : mem :=
  fun a => if Z.eqb a p then b else m a.

Definition byte_val (b : byte) : Z := Z.of_N (Byte.to_N b).

Definition byte_of_Z (v : Z) : byte :=
  match Byte.of_N (Z.to_N (Z.land v 255)) with
  | Some b => b
  | None => x00
  end.

(** A [uint32_t] load and store, little endian. *)
Definition load32 (m : mem) (p : Z) : Z :=
  Z.lor (byte_val (m p))
    (Z.lor (Z.shiftl (byte_val (m (p + 1))) 8)
       (Z.lor (Z.shiftl (byte_val (m (p + 2))) 16)
              (Z.shiftl (byte_val (m (p + 3))) 24))).

Definition store32 (m : mem) (p : Z) (v : Z) : mem :=
  store8 (store8 (store8 (store8 m p (byte_of_Z v))
                    (p + 1) (byte_of_Z (Z.shiftr v 8)))
            (p + 2) (byte_of_Z (Z.shiftr v 16)))
    (p + 3) (byte_of_Z (Z.shiftr v 24)).

(** The [size] bytes found at offset [p]: what a comparator reads through
    the pointer it is handed. *)
Definition rec_at (m : mem) (size : Z) (p : Z) : list byte :=
  List.map (fun k => m (p + Z.of_nat k)) (seq 0 (Z.to_nat size)).

(** The [n] records of width [size] starting at record index [lo]. *)
Definition records (m : mem) (size : Z) (lo : Z) (n : nat) : list (list byte) :=
  List.map (fun k => rec_at m size ((lo + Z.of_nat k) * size)) (seq 0 n).

End Mem.
Export Mem.

(** ** [mergesort_copy] *)

(** [while (u32p1 < u32end) *(u32p1++) = *(u32p2++);] *)
Fixpoint copy_u32 (fuel : nat) (dst src : mem) (u32p1 u32p2 u32end : Z) : mem :=
  match fuel with
  | O => dst
  | S fuel' =>
      if u32p1 <? u32end
      then copy_u32 fuel' (store32 dst u32p1 (load32 src u32p2)) src
             (u32p1 + 4) (u32p2 + 4) u32end
      else dst
  end.

(** [while (u8p1 < u8end) *(u8p1++) = *(u8p2++);] *)
Fixpoint copy_u8 (fuel : nat) (dst src : mem) (u8p1 u8p2 u8end : Z) : mem :=
  match fuel with
  | O => dst
  | S fuel' =>
      if u8p1 <? u8end
      then copy_u8 fuel' (store8 dst u8p1 (src u8p2)) src
             (u8p1 + 1) (u8p2 + 1) u8end
      else dst
  end.

(** [mergesort_copy(p1, p2, size)]: [p1] points into [dst], [p2] into [src].
    Each loop advances its pointer by at least one byte per round, so
    [size] rounds of fuel are never used up. *)
Definition mergesort_copy (dst src : mem) (p1 p2 : Z) (size : Z) : mem :=
  if size =? 4
  then copy_u32 (Z.to_nat size) dst src p1 p2 (p1 + size)
  else copy_u8 (Z.to_nat size) dst src p1 p2 (p1 + size).


(** ** The merge sort *)

Module MergeSort.

(** What the sort does to memory that a bounds check would look at, newest
    event first: a call of the comparator on two scratch pointers, and a
    write of [len] bytes into the caller's buffer at [off]. *)
Inductive event :=
| EvCompare (lhs rhs : Z)
| EvStore (off len : Z).

(** The [compar] callback: it sees the record behind each of the two
    pointers it is handed. *)
Definition comparator := list byte -> list byte -> Z.

(** The variables a merge loop changes: the caller's buffer, the trace, and
    the three moving pointers. *)
Record cursor := Cursor {
  cur_buf : mem;
  cur_log : list event;
  cur_lhs : Z;
  cur_rhs : Z;
  cur_base : Z
}.

(** The two memory blocks of one sort, and the trace. *)
Record sort_state := SortState {
  buf : mem;
  scratch : mem;
  trace : list event
}.

(** [#define IDX(base, idx, size) ((base) + ((idx) * (size)))] *)
Definition IDX (base idx size : Z) : Z := base + idx * size.

(** One round of the [for (;;)] loop of [mergesort_partition4] (lines
    106-118): the cursor after the round, and whether the round left the
    loop by [break]. *)
Definition merge_round4 (compar : comparator) (sm : mem)
    (lhs_end rhs_end : Z) (c : cursor) : cursor * bool :=
  let '(Cursor bm log lhs rhs base) := c in
  let log := EvCompare lhs rhs :: log in
  if compar (rec_at sm 4 lhs) (rec_at sm 4 rhs) <? 0 then
    let bm := store32 bm base (load32 sm lhs) in
    let log := EvStore base 4 :: log in
    let lhs := lhs + 4 in
    if lhs >? lhs_end then (Cursor bm log lhs rhs base, true)
    else (Cursor bm log lhs rhs (base + 4), false)
  else
    let bm := store32 bm base (load32 sm rhs) in
    let log := EvStore base 4 :: log in
    let rhs := rhs + 4 in
    if rhs >? rhs_end then (Cursor bm log lhs rhs base, true)
    else (Cursor bm log lhs rhs (base + 4), false).

(** The loop itself.  [None] stands for a loop that has not left after
    [fuel] rounds. *)
Fixpoint merge_loop4 (fuel : nat) (compar : comparator) (sm : mem)
    (lhs_end rhs_end : Z) (c : cursor) : option cursor :=
  match fuel with
  | O => None
  | S fuel' =>
      let '(c, left_loop) := merge_round4 compar sm lhs_end rhs_end c in
      if left_loop then Some c
      else merge_loop4 fuel' compar sm lhs_end rhs_end c
  end.

(** One round of the [for (;;)] loop of [mergesort_partition] (lines
    170-182). *)
Definition merge_round (compar : comparator) (size : Z) (sm : mem)
    (lhs_end rhs_end : Z) (c : cursor) : cursor * bool :=
  let '(Cursor bm log lhs rhs base) := c in
  let log := EvCompare lhs rhs :: log in
  if compar (rec_at sm size lhs) (rec_at sm size rhs) <? 0 then
    let bm := mergesort_copy bm sm base lhs size in
    let log := EvStore base size :: log in
    let lhs := lhs + size in
    if lhs >? lhs_end then (Cursor bm log lhs rhs base, true)
    else (Cursor bm log lhs rhs (base + size), false)
  else
    let bm := mergesort_copy bm sm base rhs size in
    let log := EvStore base size :: log in
    let rhs := rhs + size in
    if rhs >? rhs_end then (Cursor bm log lhs rhs base, true)
    else (Cursor bm log lhs rhs (base + size), false).

Fixpoint merge_loop (fuel : nat) (compar : comparator) (size : Z) (sm : mem)
    (lhs_end rhs_end : Z) (c : cursor) : option cursor :=
  match fuel with
  | O => None
  | S fuel' =>
      let '(c, left_loop) := merge_round compar size sm lhs_end rhs_end c in
      if left_loop then Some c
      else merge_loop fuel' compar size sm lhs_end rhs_end c
  end.

(** Lines 121-129 and 185-192: the two bulk copies after the loop. *)
Definition merge_tail (sm : mem) (lhs_end rhs_end : Z) (c : cursor) : mem * list event :=
  let '(Cursor bm log lhs rhs base) := c in
  let n := lhs_end - lhs in
  let '(bm, log, base) :=
    if n >? 0
    then (mergesort_copy bm sm base lhs n, EvStore base n :: log, base + n)
    else (bm, log, base) in
  let n := rhs_end - rhs in
  if n >? 0
  then (mergesort_copy bm sm base rhs n, EvStore base n :: log)
  else (bm, log).

(** [mergesort_partition4(base, lhs, left, right, compar)].  [fuel] bounds
    the depth of the recursion; [None] is a recursion deeper than that, or a
    merge loop that does not leave. *)
Fixpoint mergesort_partition4 (fuel : nat) (compar : comparator)
    (st : sort_state) (left right : Z) : option sort_state :=
  match fuel with
  | O => None
  | S fuel' =>
      let mid := left + Z.shiftr (right - left) 1 in
      st ← (if left <? mid
            then mergesort_partition4 fuel' compar st left mid
            else Some st);
      st ← (if mid + 1 <? right
            then mergesort_partition4 fuel' compar st (mid + 1) right
            else Some st);
      let lhs_len := mid - left + 1 in
      let rhs_len := right - mid in
      let lhs_size := lhs_len * 4 in
      let rhs_size := rhs_len * 4 in
      let lhs := 0 in
      let rhs := lhs + lhs_size in
      let sm := mergesort_copy (scratch st) (buf st) lhs (IDX 0 left 4) lhs_size in
      let sm := mergesort_copy sm (buf st) rhs (IDX 0 (mid + 1) 4) rhs_size in
      let base := IDX 0 left 4 in
      let lhs_end := rhs in
      let rhs_end := rhs + rhs_size in
      c ← merge_loop4 (Z.to_nat (lhs_len + rhs_len + 2)) compar sm lhs_end rhs_end
            (Cursor (buf st) (trace st) lhs rhs base);
      let '(bm, log) := merge_tail sm lhs_end rhs_end c in
      Some (SortState bm sm log)
  end.

(** [mergesort_partition(base, lhs, left, right, size, compar)]. *)
Fixpoint mergesort_partition (fuel : nat) (compar : comparator)
    (st : sort_state) (left right size : Z) : option sort_state :=
  match fuel with
  | O => None
  | S fuel' =>
      let mid := left + Z.shiftr (right - left) 1 in
      st ← (if left <? mid
            then mergesort_partition fuel' compar st left mid size
            else Some st);
      st ← (if mid + 1 <? right
            then mergesort_partition fuel' compar st (mid + 1) right size
            else Some st);
      let lhs_len := mid - left + 1 in
      let rhs_len := right - mid in
      let lhs_size := lhs_len * size in
      let rhs_size := rhs_len * size in
      let lhs := 0 in
      let rhs := lhs + lhs_size in
      let sm := mergesort_copy (scratch st) (buf st) lhs (IDX 0 left size) lhs_size in
      let sm := mergesort_copy sm (buf st) rhs (IDX 0 (mid + 1) size) rhs_size in
      let base := IDX 0 left size in
      let lhs_end := rhs in
      let rhs_end := rhs + rhs_size in
      c ← merge_loop (Z.to_nat (lhs_len + rhs_len + 2)) compar size sm lhs_end rhs_end
            (Cursor (buf st) (trace st) lhs rhs base);
      let '(bm, log) := merge_tail sm lhs_end rhs_end c in
      Some (SortState bm sm log)
  end.

(** [size_t] is 64 bits wide. *)
Definition SIZE_MODULUS : Z := 2 ^ 64.

(** A range of [size_t] indices is halved at most 64 times. *)
Definition PARTITION_DEPTH : nat := 64.

(** [mergesort_nonlibc(base, nmemb, size, compar)].  [stress_mmap_populate]
    is not in this file: its outcome [mapping] is an input, [None] for
    [MAP_FAILED] and [Some m] for a mapping whose bytes are [m].  The result
    is the return value, the caller's buffer and the trace. *)
Definition mergesort_nonlibc (mapping : option mem) (base : mem)
    (nmemb size : Z) (compar : comparator) : option (Z * mem * list event) :=
  match mapping with
  | None => Some (-1, base, [])
  | Some lhs =>
      let right := (nmemb - 1) mod SIZE_MODULUS in
      st ← (if size =? 4
            then mergesort_partition4 PARTITION_DEPTH compar
                   (SortState base lhs []) 0 right
            else mergesort_partition PARTITION_DEPTH compar
                   (SortState base lhs []) 0 right size);
      Some (0, buf st, trace st)
  end.

(** *** Buffers of 32 bit integers, as the driver sorts them *)

(** Byte [k] of the little-endian [int32_t] array [l], zero past its end. *)
Definition int32_mem (l : list Z) : mem :=
  fun a =>
    if a <? 0 then x00
    else byte_of_Z (Z.shiftr (nth (Z.to_nat (a / 4)) l 0) (8 * (a mod 4))).

(** A fresh anonymous mapping reads as zero. *)
Definition zero_mem : mem := fun _ => x00.

(** The record as an [int32_t]. *)
Definition int32_of_rec (r : list byte) : Z :=
  let u := fold_right (fun b acc => Z.lor (byte_val b) (Z.shiftl acc 8)) 0 r in
  if u <? 2 ^ 31 then u else u - 2 ^ 32.

Definition read_int32s (m : mem) (n : nat) : list Z :=
  List.map int32_of_rec (records m 4 0 n).

(** Modelled from the spec: the driver's ascending and descending
    comparators of 32 bit integers ([stress_sort_cmp_fwd_int32] and
    [stress_sort_cmp_rev_int32] live in core-sort.c, which is not under
    src/); the driver's own check after a forward sort is
    [*ptr > *(ptr + 1)]. *)
Definition cmp_fwd_int32 : comparator :=
  fun p1 p2 =>
    let i1 := int32_of_rec p1 in
    let i2 := int32_of_rec p2 in
    if i1 >? i2 then 1 else if i1 <? i2 then -1 else 0.

Definition cmp_rev_int32 : comparator :=
  fun p1 p2 =>
    let i1 := int32_of_rec p1 in
    let i2 := int32_of_rec p2 in
    if i1 <? i2 then 1 else if i1 >? i2 then -1 else 0.

(** The verification pass of the driver, for any comparator: a violation is
    an adjacent pair that the comparator puts in the wrong order. *)
Fixpoint verify_sorted (compar : comparator) (l : list (list byte)) : bool :=
  match l with
  | [] => true
  | x :: l' =>
      match l' with
      | [] => true
      | y :: _ => negb (compar x y >? 0) && verify_sorted compar l'
      end
  end.

(** A comparator of wider records that orders them by their first 32
    bits. *)
Definition cmp_fwd_key32 : comparator :=
  fun p1 p2 => cmp_fwd_int32 (take 4 p1) (take 4 p2).

(** The sort run on a block of 32 bit words, of which the first [nmemb]
    records of [size] bytes are the caller's buffer, over a scratch mapping
    [lhs]: the return value, the words of the whole block afterwards, and
    the trace, oldest event first. *)
Definition sort_words (lhs : mem) (block : list Z) (nmemb size : Z)
    (compar : comparator) : option (Z * list Z * list event) :=
  '(ret, bm, log) ← mergesort_nonlibc (Some lhs) (int32_mem block) nmemb size compar;
  Some (ret, read_int32s bm (length block), rev log).

(** The bounds of the merge of the records [left .. right], split after
    [mid]: a call of the comparator is in bounds when its first pointer is
    inside the scratch copy of the left run and its second pointer inside
    the scratch copy of the right run; a store is in bounds when it stays
    inside the bytes of the records [left .. right]. *)
Definition event_in_bounds (size left mid right : Z) (ev : event) : bool :=
  let lhs_end := (mid - left + 1) * size in
  let rhs_end := (right - left + 1) * size in
  match ev with
  | EvCompare lhs rhs =>
      (0 <=? lhs) && (lhs <? lhs_end) && (lhs_end <=? rhs) && (rhs <? rhs_end)
  | EvStore off len =>
      (left * size <=? off) && (off + len <=? (right + 1) * size)
  end.

End MergeSort.
Export MergeSort.

(** ** What the sort is measured against *)

Module SortSpec.

(** The comparator as an order: [x] sorts before [y], and [x] does not sort
    after [y] (the pair is no violation for the driver's check). *)
Definition cmp_lt (compar : comparator) : relation (list byte) :=
  fun x y => compar x y < 0.

Definition cmp_le (compar : comparator) : relation (list byte) :=
  fun x y => compar x y <= 0.

#[export] Instance cmp_lt_dec (compar : comparator) (x y : list byte) :
  Decision (cmp_lt compar x y) := Z_lt_dec (compar x y) 0.

(** A comparator of a strict weak order: "sorts before" is irreflexive and
    transitive, being unordered is transitive, and the sign of the result
    flips with the arguments. *)
Record strict_weak_order (compar : comparator) : Prop := StrictWeakOrder {
  swo_irrefl : forall x, ~ cmp_lt compar x x;
  swo_trans : forall x y z,
    cmp_lt compar x y -> cmp_lt compar y z -> cmp_lt compar x z;
  swo_incomparable : forall x y z,
    ~ cmp_lt compar x y -> ~ cmp_lt compar y x ->
    ~ cmp_lt compar y z -> ~ cmp_lt compar z y ->
    ~ cmp_lt compar x z /\ ~ cmp_lt compar z x;
  swo_sign : forall x y, 0 < compar x y <-> compar y x < 0
}.

(** The part of that contract the ordering argument needs: a result that
    is not negative becomes not positive when the arguments are swapped. *)
Definition flips (compar : comparator) : Prop :=
  forall x y, 0 <= compar x y -> compar y x <= 0.

(** The merge of two runs the way the spec words it: the head of the left
    run goes first exactly when the comparator puts it strictly before the
    head of the right run. *)
Definition merge_runs (compar : comparator) : list (list byte) -> list (list byte) -> list (list byte) :=
  list_merge (cmp_lt compar).

(** The cursor of a merge of a left run of [a] records with the run behind
    it, into the records from [left] on, when [i] records of the left run
    and [j] of the right run have been merged. *)
Definition cursor_at (size : Z) (a : nat) (left : Z)
    (bm : mem) (log : list event) (i j : nat) : cursor :=
  Cursor bm log (Z.of_nat i * size) ((Z.of_nat a + Z.of_nat j) * size)
    ((left + Z.of_nat i + Z.of_nat j) * size).

End SortSpec.
Export SortSpec.

(** ** NUMA node discovery *)

Module Numa.

(** Character constants, as the integers C promotes them to. *)
Definition char_code (c : ascii) : Z := Z.of_N (N_of_ascii c).

(** [hex_to_int(ch)] (lines 673-682). *)
Definition hex_to_int (ch : Z) : Z :=
  if (ch >=? char_code "0"%char) && (ch <=? char_code "9"%char) then ch - char_code "0"%char
  else if (ch >=? char_code "a"%char) && (ch <=? char_code "f"%char) then ch - char_code "a"%char + 10
  else if (ch >=? char_code "A"%char) && (ch <=? char_code "F"%char) then ch - char_code "F"%char + 10
  else -1.

(** [stress_node_t]; a node pointer is an address in the heap, [None] is
    [NULL]. *)
Record stress_node := StressNode {
  next : option nat;
  node_id : Z
}.

(** The locals of [stress_numa_get_mem_nodes] that its loops change, the
    heap the nodes live in, and the number of [calloc] calls made. *)
Record scan_state := ScanState {
  heap : gmap nat stress_node;
  callocs : nat;
  node_ptr : option nat;
  tail : option nat;
  n : Z;
  cur_node_id : Z
}.

(** Lines 740-749, once [calloc] has returned the fresh address [node]. *)
Definition link_node (node : nat) (s : scan_state) : scan_state :=
  let h := <[node := StressNode (node_ptr s) (cur_node_id s)]> (heap s) in
  let tl := match tail s with Some t => t | None => node end in
  let h := alter (fun nd => StressNode (Some node) (node_id nd)) tl h in
  ScanState h (S (callocs s)) (Some node) (Some tl) (n s + 1) (cur_node_id s).

(** A loop of the scan either runs to its end or leaves the function by
    [return -1]; the nodes linked so far stay behind [*node_ptr] either
    way. *)
Inductive scan_result :=
| ScanOk (s : scan_state)
| ScanFail (s : scan_state).

(** The [for (i = 0; i < 4; i++)] loop (lines 738-752), [count] rounds from
    [i] on.  [calloc_ok k] tells whether the [k]-th [calloc] of the run
    succeeds; the fresh node gets the next unused address. *)
Fixpoint nibble_loop (calloc_ok : nat -> bool) (count : nat) (i : Z) (val : Z)
    (s : scan_state) : scan_result :=
  match count with
  | O => ScanOk s
  | S count' =>
      let bump s :=
        ScanState (heap s) (callocs s) (node_ptr s) (tail s) (n s) (cur_node_id s + 1) in
      if negb (Z.land val (Z.shiftl 1 i) =? 0) then
        if calloc_ok (callocs s)
        then nibble_loop calloc_ok count' (i + 1) val (bump (link_node (callocs s) s))
        else ScanFail s
      else nibble_loop calloc_ok count' (i + 1) val (bump s)
  end.

(** The character under [buffer + ptr]; a C string ends in NUL. *)
Definition char_at (buffer : string) (ptr : nat) : Z :=
  match String.get ptr buffer with
  | Some c => char_code c
  | None => 0
  end.

(** The [while] loop of lines 724-754, which runs as long as the character
    under [ptr] is not a space and [ptr > str]; [ptr] and [str] are offsets
    into [buffer]. *)
Fixpoint scan_digits (calloc_ok : nat -> bool) (buffer : string) (str : nat)
    (ptr : nat) (s : scan_state) : scan_result :=
  if negb (char_at buffer ptr =? char_code " "%char) && (str <? ptr)%nat then
    match ptr with
    | O => ScanOk s
    | S ptr' =>
        if char_at buffer ptr =? char_code ","%char then
          scan_digits calloc_ok buffer str ptr' s
        else
          let val := hex_to_int (char_at buffer ptr) in
          if val <? 0 then ScanFail s
          else
            match nibble_loop calloc_ok 4 0 val s with
            | ScanOk s => scan_digits calloc_ok buffer str ptr' s
            | ScanFail s => ScanFail s
            end
    end
  else ScanOk s.

(** The first line that starts with the 13 characters of [Mems_allowed:]
    (lines 705-710). *)
Definition find_mems_allowed (lines : list string) : option string :=
  List.find (String.prefix "Mems_allowed:"%string) lines.

(** What the caller sees: the return value, [*node_ptr], [*max_nodes] when
    it was written, and the heap. *)
Record discovery := Discovery {
  numa_nodes : Z;
  nodes : option nat;
  max_nodes : option Z;
  node_heap : gmap nat stress_node
}.

Definition no_nodes : scan_state := ScanState ∅ 0 None None 0 0.

Definition discovered (ret : Z) (mx : option Z) (s : scan_state) : discovery :=
  Discovery ret (node_ptr s) mx (heap s).

(** [stress_numa_get_mem_nodes(node_ptr, max_nodes)].  [status] is what
    [/proc/self/status] yields: [None] when [fopen] fails, else the lines
    [fgets] returns. *)
Definition stress_numa_get_mem_nodes (calloc_ok : nat -> bool)
    (status : option (list string)) : discovery :=
  match status with
  | None => discovered (-1) None no_nodes
  | Some lines =>
      match find_mems_allowed lines with
      | None => discovered (-1) None no_nodes
      | Some buffer =>
          let str := 13%nat in
          let ptr := (String.length buffer - 2)%nat in
          match scan_digits calloc_ok buffer str ptr no_nodes with
          | ScanFail s => discovered (-1) None s
          | ScanOk s => discovered (n s) (Some (cur_node_id s)) s
          end
      end
  end.

(** [n = n->next], [k] times. *)
Fixpoint follow (h : gmap nat stress_node) (k : nat) (p : option nat) : option nat :=
  match k with
  | O => p
  | S k' => follow h k' (p ≫= fun a => h !! a ≫= next)
  end.

(** The node ids met on the first [k] nodes from [p] on. *)
Fixpoint walk (h : gmap nat stress_node) (k : nat) (p : option nat) : list Z :=
  match k with
  | O => []
  | S k' =>
      match p ≫= fun a => h !! a with
      | Some nd => node_id nd :: walk h k' (next nd)
      | None => []
      end
  end.

(** In a ring of [c] nodes linked newest to oldest, the node after [a]:
    the node made just before it, and the newest node after the oldest. *)
Definition ring_next (c a : nat) : nat :=
  match a with
  | O => (c - 1)%nat
  | S a' => a'
  end.

(** The shape the scan keeps: the [callocs s] nodes made so far sit at the
    addresses below [callocs s] and form one ring, [*node_ptr] is the newest
    node, [tail] the oldest, and [n] counts them. *)
Record ring (s : scan_state) : Prop := Ring {
  ring_count : n s = Z.of_nat (callocs s);
  ring_head : node_ptr s = match callocs s with O => None | S c => Some c end;
  ring_tail : tail s = match callocs s with O => None | S _ => Some O end;
  ring_links : forall a, (a < callocs s)%nat ->
    next <$> heap s !! a = Some (Some (ring_next (callocs s) a));
  ring_fresh : forall a, (callocs s <= a)%nat -> heap s !! a = None
}.

Definition ring_result (r : scan_result) : Prop :=
  match r with
  | ScanOk s => ring s
  | ScanFail s => ring s
  end.

(** A status line whose mask is the upper case digit A, the nodes 1
    and 3. *)
Definition status_upper_case_A : list string :=
  [ ("Mems_allowed:" ++ String (ascii_of_nat 9) "A"
       ++ String (ascii_of_nat 10) "")%string ].

(** The status line of a process allowed on the nodes 0, 3 and 5: the mask
    is 0x29. *)
Definition status_nodes_0_3_5 : list string :=
  [ ("Name:" ++ String (ascii_of_nat 9) "stress-ng" ++ String (ascii_of_nat 10) "")%string;
    ("Mems_allowed:" ++ String (ascii_of_nat 9) "00000000,00000029"
       ++ String (ascii_of_nat 10) "")%string ].

End Numa.
Export Numa.

(** ** The main loop of the NUMA exerciser *)

Module NumaLoop.

(** What a system call hands back: its return value and [errno]. *)
Record sysret := SysRet {
  sys_ret : Z;
  sys_errno : Z
}.

Definition EIO : Z := 5.
Definition ENOSYS : Z := 38.
Definition EXIT_SUCCESS : Z := 0.
Definition EXIT_FAILURE : Z := 1.

(** The [pr_fail] messages of the loop. *)
Inductive failure :=
| FailGetMempolicy
| FailSetMempolicy
| FailMbind
| FailMbindNoCapability
| FailMovePages.

(** What the environment answers during one round of the [do] loop: the
    results of the calls whose result the code looks at, and the answers
    of [stress_continue_flag] and [stress_continue], in program order.
    The calls wrapped in [VOID_RET] or cast to [void] cannot change the
    control flow and are left out. *)
Record round_env := RoundEnv {
  get_mempolicy_r : sysret;        (* line 892 *)
  continue_918 : bool;
  set_mempolicy_r : sysret;        (* line 921 *)
  continue_931 : bool;
  mbind_strict_r : sysret;         (* line 1026 *)
  continue_1039 : bool;
  mbind_default_r : sysret;        (* line 1059 *)
  continue_1072 : bool;
  mbind_nocap_r : sysret;          (* line 1103, only without CAP_SYS_NICE *)
  continue_1138 : bool;
  move_pages_r : nat -> sysret;    (* line 1183, by the value of j *)
  continue_1193 : nat -> bool;
  stress_continue : bool           (* line 1241 *)
}.

(** How a round ends: it reaches [stress_bogo_inc] and the loop condition,
    it leaves the [do] loop by [break], or it jumps to [err]. *)
Inductive flow :=
| Falls
| Breaks
| GotoErr.

(** The [for (j = 0; j < 16; j++)] loop (lines 1142-1195), [count] rounds
    from [j] on: [true] is the [goto err] of line 1189. *)
Fixpoint move_pages_loop (e : round_env) (count : nat) (j : nat)
    (log : list failure) : bool * list failure :=
  match count with
  | O => (false, log)
  | S count' =>
      let lret := move_pages_r e j in
      if (sys_ret lret <? 0) && negb (sys_errno lret =? ENOSYS)
      then (true, FailMovePages :: log)
      else if negb (continue_1193 e j) then (false, log)
      else move_pages_loop e count' (S j) log
  end.

(** One round of the [do] loop of [stress_numa] (lines 878-1240); the
    failures are logged newest first. *)
Definition numa_round (cap_sys_nice : bool) (e : round_env)
    (log : list failure) : flow * list failure :=
  if (sys_ret (get_mempolicy_r e) <? 0) && negb (sys_errno (get_mempolicy_r e) =? ENOSYS)
  then (GotoErr, FailGetMempolicy :: log)
  else if negb (continue_918 e) then (Breaks, log)
  else if (sys_ret (set_mempolicy_r e) <? 0) && negb (sys_errno (set_mempolicy_r e) =? ENOSYS)
  then (GotoErr, FailSetMempolicy :: log)
  else if negb (continue_931 e) then (Breaks, log)
  else if (sys_ret (mbind_strict_r e) <? 0)
          && negb (sys_errno (mbind_strict_r e) =? EIO)
          && negb (sys_errno (mbind_strict_r e) =? ENOSYS)
  then (GotoErr, FailMbind :: log)
  else if negb (continue_1039 e) then (Breaks, log)
  else if (sys_ret (mbind_default_r e) <? 0)
          && negb (sys_errno (mbind_default_r e) =? EIO)
          && negb (sys_errno (mbind_default_r e) =? ENOSYS)
  then (GotoErr, FailMbind :: log)
  else if negb (continue_1072 e) then (Breaks, log)
  else
    let log :=
      if negb cap_sys_nice && (sys_ret (mbind_nocap_r e) >=? 0)
      then FailMbindNoCapability :: log else log in
    if negb (continue_1138 e) then (Breaks, log)
    else
      let '(err, log) := move_pages_loop e 16 0 log in
      if err then (GotoErr, log) else (Falls, log).

(** The [do ... while (stress_continue(args))] loop and the exit status
    [rc] it leaves: [envs] are the rounds the environment lets happen, a
    run out of rounds is a run stopped from outside.  The result also
    counts the rounds that reached [stress_bogo_inc]. *)
Fixpoint numa_loop (cap_sys_nice : bool) (envs : list round_env)
    (bogo : nat) (log : list failure) : Z * nat * list failure :=
  match envs with
  | [] => (EXIT_SUCCESS, bogo, log)
  | e :: envs' =>
      match numa_round cap_sys_nice e log with
      | (GotoErr, log) => (EXIT_FAILURE, bogo, log)
      | (Breaks, log) => (EXIT_SUCCESS, bogo, log)
      | (Falls, log) =>
          if stress_continue e
          then numa_loop cap_sys_nice envs' (S bogo) log
          else (EXIT_SUCCESS, S bogo, log)
      end
  end.

(** The test the loop applies to the calls it treats as fatal. *)
Definition fatal (r : sysret) : bool :=
  (sys_ret r <? 0) && negb (sys_errno r =? ENOSYS).

Definition mbind_fatal (r : sysret) : bool :=
  (sys_ret r <? 0) && negb (sys_errno r =? EIO) && negb (sys_errno r =? ENOSYS).

(** A round in which nothing before the [for] loop of the page moves jumps
    to [err] or leaves the [do] loop. *)
Definition reaches_move_pages (e : round_env) : bool :=
  negb (fatal (get_mempolicy_r e)) && continue_918 e
  && negb (fatal (set_mempolicy_r e)) && continue_931 e
  && negb (mbind_fatal (mbind_strict_r e)) && continue_1039 e
  && negb (mbind_fatal (mbind_default_r e)) && continue_1072 e
  && continue_1138 e.

(** The [j]-th [move_pages] call of the round is the first one to fail with
    an error other than [ENOSYS], and the [for] loop gets that far. *)
Definition first_failure_at (e : round_env) (j : nat) : Prop :=
  (forall i, (i < j)%nat ->
     fatal (move_pages_r e i) = false /\ continue_1193 e i = true)
  /\ fatal (move_pages_r e j) = true.

Definition EBUSY : Z := 16.
Definition EPERM : Z := 1.

(** A round in which every call succeeds but [move_pages], which fails with
    [EBUSY]. *)
Definition busy_round : round_env :=
  {| get_mempolicy_r := SysRet 0 0;
     continue_918 := true;
     set_mempolicy_r := SysRet 0 0;
     continue_931 := true;
     mbind_strict_r := SysRet 0 0;
     continue_1039 := true;
     mbind_default_r := SysRet 0 0;
     continue_1072 := true;
     mbind_nocap_r := SysRet (-1) EPERM;
     continue_1138 := true;
     move_pages_r := fun _ => SysRet (-1) EBUSY;
     continue_1193 := fun _ => true;
     stress_continue := true |}.

End NumaLoop.
Export NumaLoop.

(** ** The reach of the sort, and the driver around it *)

Module Driver.

(** An event that stays in reach: a call of the comparator whose two
    pointers lie between the start of the scratch block and [span], and a
    store into the bytes from [lo] up to [hi] of the caller's block. *)
Definition event_reach (lo hi span : Z) (ev : event) : Prop :=
  match ev with
  | EvCompare lhs rhs => 0 <= lhs <= span /\ 0 <= rhs <= span
  | EvStore off len => lo <= off /\ 0 <= len /\ off + len <= hi
  end.

(** The [int32_t] behind [data + i]. *)
Definition int32_at (data : mem) (i : Z) : Z := int32_of_rec (rec_at data 4 (4 * i)).

(** The verification loops of [stress_mergesort] (lines 359-366, 384-391
    and 414-421), [count] rounds from [i] on: [wrong] is the test on
    [*ptr] and [*(ptr + 1)], the result tells whether [pr_fail] was
    called. *)
Fixpoint verify_loop (wrong : Z -> Z -> bool) (data : mem) (count : nat) (i : Z) : bool :=
  match count with
  | O => false
  | S count' =>
      if wrong (int32_at data i) (int32_at data (i + 1)) then true
      else verify_loop wrong data count' (i + 1)
  end.

(** The loop runs while [i < n - 1], in [size_t]. *)
Definition verify_forward (data : mem) (n : Z) : bool :=
  verify_loop Z.gtb data (Z.to_nat ((n - 1) mod SIZE_MODULUS)) 0.

Definition verify_reverse (data : mem) (n : Z) : bool :=
  verify_loop Z.ltb data (Z.to_nat ((n - 1) mod SIZE_MODULUS)) 0.

(** The contract of the two comparators the driver passes: the sign of the
    result is the order of the two integers, ascending or descending. *)
Definition ascending (compar : comparator) : Prop :=
  forall x y,
    (compar x y < 0 <-> int32_of_rec x < int32_of_rec y)
    /\ (0 < compar x y <-> int32_of_rec y < int32_of_rec x).

Definition descending (compar : comparator) : Prop :=
  forall x y,
    (compar x y < 0 <-> int32_of_rec y < int32_of_rec x)
    /\ (0 < compar x y <-> int32_of_rec x < int32_of_rec y).

(** [stress_mergesort_methods] (lines 223-228); [have_lib_bsd] stands for
    [HAVE_LIB_BSD]. *)
Definition stress_mergesort_methods (have_lib_bsd : bool) : list string :=
  (if have_lib_bsd then ["mergesort-libc"%string] else [])
  ++ ["mergesort-nonlibc"%string].

(** The first [for] loop of [stress_set_mergesort_method] (lines 234-239)
    over the entries from index [i] on: the index whose name [strcmp]
    finds equal to [opt]. *)
Fixpoint find_method (methods : list string) (opt : string) (i : nat) : option nat :=
  match methods with
  | [] => None
  | name :: methods' =>
      if String.eqb opt name then Some i
      else find_method methods' opt (S i)
  end.

(** [stress_set_mergesort_method(opt)]: the return value and what
    [stress_set_setting] was given for ["mergesort-method"], if it was
    called. *)
Definition stress_set_mergesort_method (have_lib_bsd : bool) (opt : string)
    : Z * option nat :=
  match find_method (stress_mergesort_methods have_lib_bsd) opt 0 with
  | Some i => (0, Some i)
  | None => (-1, None)
  end.

End Driver.
Export Driver.

(** ** What the discovery leaves behind, and how it is used *)

Module NumaSetup.

(** The characters [hex_to_int] takes for digits. *)
Definition is_hex_digit (ch : Z) : Prop :=
  char_code "0" <= ch <= char_code "9"
  \/ char_code "a" <= ch <= char_code "f"
  \/ char_code "A" <= ch <= char_code "F".

(** The node ids in the order the nodes were made: the node at address [a]
    is the [a]-th one. *)
Definition ids_by_address (h : gmap nat stress_node) (c : nat) : list Z :=
  List.map (fun a => default 0 (node_id <$> h !! a)) (seq 0 c).

(** The ids one hex digit of value [val] stands for when its lowest bit is
    the node [base]: [base + k] for every set bit [k] of the digit. *)
Definition nibble_ids (val base : Z) : list Z :=
  List.map (fun k => base + k) (List.filter (Z.testbit val) [0; 1; 2; 3]).

(** The ids a run of mask characters stands for, lowest digit first, commas
    passed over, the value of a digit taken as [hex_to_int] gives it. *)
Fixpoint ids_of_chars (chars : list Z) (base : Z) : list Z :=
  match chars with
  | [] => []
  | ch :: chars' =>
      if ch =? char_code ","
      then ids_of_chars chars' base
      else nibble_ids (hex_to_int ch) base ++ ids_of_chars chars' (base + 4)
  end.

(** A character the scan accepts. *)
Definition mask_char (ch : Z) : Prop :=
  ch = char_code "," \/ 0 <= hex_to_int ch.

(** The digits among the characters. *)
Definition digit_count (chars : list Z) : Z :=
  Z.of_nat (length (List.filter (fun ch => negb (ch =? char_code ",")) chars)).

(** The characters the scan loop looks at from [ptr] downwards, in that
    order: it stops at a space and at [str]. *)
Fixpoint scanned_chars (buffer : string) (str ptr : nat) : list Z :=
  if negb (char_at buffer ptr =? char_code " ") && (str <? ptr)%nat then
    match ptr with
    | O => []
    | S ptr' => char_at buffer ptr :: scanned_chars buffer str ptr'
    end
  else [].

(** The character codes of a string. *)
Definition codes (s : string) : list Z :=
  List.map char_code (list_ascii_of_string s).

(** The status line the kernel prints: the key, a tab, the mask [body] and
    a newline. *)
Definition mems_allowed_line (body : string) : string :=
  ("Mems_allowed:" ++ String (ascii_of_nat 9) body ++ String (ascii_of_nat 10) "")%string.

(** [NUMA_LONG_BITS]: [sizeof(unsigned long) * BITS_PER_BYTE] with 8 byte
    longs. *)
Definition BITS_PER_BYTE : Z := 8.
Definition NUMA_LONG_BITS : Z := 8 * BITS_PER_BYTE.

(** [mask_elements] of [stress_numa] (line 821). *)
Definition mask_elements (max_nodes : Z) : Z :=
  (max_nodes + NUMA_LONG_BITS - 1) / NUMA_LONG_BITS.

(** How [stress_numa_free_nodes] ends: with the heap it leaves, by reading
    a node that was freed or never made, or not within the rounds given. *)
Inductive free_result :=
| Freed (h : gmap nat stress_node)
| UseAfterFree
| StillFreeing.

(** The [while (n)] loop of [stress_numa_free_nodes] (lines 658-666);
    [free] takes the node off the heap. *)
Fixpoint free_loop (fuel : nat) (h : gmap nat stress_node)
    (nodes n : option nat) : free_result :=
  match fuel with
  | O => StillFreeing
  | S fuel' =>
      match n with
      | None => Freed h
      | Some a =>
          match h !! a with
          | None => UseAfterFree
          | Some nd =>
              let next := next nd in
              let h := delete a h in
              if decide (next = nodes) then Freed h
              else free_loop fuel' h nodes next
          end
      end
  end.

(** [stress_numa_free_nodes(nodes)]: one round per node on the heap, and
    one more to see the end. *)
Definition stress_numa_free_nodes (h : gmap nat stress_node)
    (nodes : option nat) : free_result :=
  free_loop (S (size h)) h nodes nodes.

End NumaSetup.
Export NumaSetup.

(** ** The setup of the exerciser and its page lists *)

Module NumaPages.

(** [MIN_NUMA_MMAP_BYTES] and [DEFAULT_NUMA_MMAP_BYTES] (lines 482, 484);
    the unit [MB] is defined outside this file and is an input. *)
Definition MIN_NUMA_MMAP_BYTES (MB : Z) : Z := 1 * MB.
Definition DEFAULT_NUMA_MMAP_BYTES (MB : Z) : Z := 4 * MB.

(** The size of the region [stress_numa] maps (lines 793-802), from the
    setting [numa_bytes] (0 when it is not set), [args->num_instances] and
    the page size. *)
Definition region_bytes (MB page_size num_instances numa_bytes : Z) : Z :=
  if numa_bytes =? 0 then DEFAULT_NUMA_MMAP_BYTES MB
  else
    let numa_bytes :=
      if num_instances >? 0
      then Z.land (numa_bytes / num_instances) (Z.lnot (page_size - 1))
      else numa_bytes in
    if numa_bytes <? MIN_NUMA_MMAP_BYTES MB then MIN_NUMA_MMAP_BYTES MB
    else numa_bytes.

(** [num_pages] (line 804). *)
Definition region_pages (MB page_size num_instances numa_bytes : Z) : Z :=
  region_bytes MB page_size num_instances numa_bytes / page_size.

(** A round in which the kernel has none of the calls the loop watches:
    each of them fails with [ENOSYS]. *)
Definition unsupported (e : round_env) : Prop :=
  sys_errno (get_mempolicy_r e) = ENOSYS
  /\ sys_errno (set_mempolicy_r e) = ENOSYS
  /\ sys_errno (mbind_strict_r e) = ENOSYS
  /\ sys_errno (mbind_default_r e) = ENOSYS
  /\ sys_ret (mbind_nocap_r e) < 0
  /\ forall j, sys_errno (move_pages_r e j) = ENOSYS.

(** Such a round, with every call returning -1 and the run allowed to go
    on. *)
Definition enosys_round : round_env :=
  {| get_mempolicy_r := SysRet (-1) ENOSYS;
     continue_918 := true;
     set_mempolicy_r := SysRet (-1) ENOSYS;
     continue_931 := true;
     mbind_strict_r := SysRet (-1) ENOSYS;
     continue_1039 := true;
     mbind_default_r := SysRet (-1) ENOSYS;
     continue_1072 := true;
     mbind_nocap_r := SysRet (-1) ENOSYS;
     continue_1138 := true;
     move_pages_r := fun _ => SysRet (-1) ENOSYS;
     continue_1193 := fun _ => true;
     stress_continue := true |}.

End NumaPages.
Export NumaPages.


(** ** The page lists handed to [move_pages] *)

Module NumaMove.

(** [(int)n_tmp->node_id]: an [unsigned long] narrowed to [int]. *)
Definition int_of_ulong (x : Z) : Z := (x + 2 ^ 31) mod 2 ^ 32 - 2 ^ 31.

(** The arrays [pages] and [dest_nodes], which [calloc] made with
    [num_pages] elements each, the index [k] and the node pointer
    [n_tmp]; a page pointer is an address. *)
Record page_lists := PageLists {
  pages : list Z;
  dest_nodes : list Z;
  k : nat;
  n_tmp : option nat
}.

(** [a[i] = x], which has no meaning when [i] is outside of the array. *)
Definition store_at {A : Type} (a : list A) (i : nat) (x : A) : option (list A) :=
  if decide (i < length a)%nat then Some (<[i := x]> a) else None.

(** [k++; if (k >= num_pages) k = 0;] (lines 1149-1151 and 1178-1180). *)
Definition next_k (num_pages k : nat) : nat :=
  if (num_pages <=? S k)%nat then 0%nat else S k.

(** The [for (ptr = buf, i = 0; i < num_pages; ...)] loop of lines
    1146-1152, [count] rounds from [ptr] on: page and node go to the same
    index [k], and [n_tmp] moves on by one node.  The result is [None] when
    [n_tmp] cannot be dereferenced or a store misses its array. *)
Fixpoint fill_pages (h : gmap nat stress_node) (page_size : Z) (num_pages : nat)
    (count : nat) (ptr : Z) (st : page_lists) : option page_lists :=
  match count with
  | O => Some st
  | S count' =>
      match store_at (pages st) (k st) ptr with
      | None => None
      | Some pages' =>
          match n_tmp st ≫= fun a => h !! a with
          | None => None
          | Some nd =>
              match store_at (dest_nodes st) (k st) (int_of_ulong (node_id nd)) with
              | None => None
              | Some dest' =>
                  fill_pages h page_size num_pages count' (ptr + page_size)
                    (PageLists pages' dest' (next_k num_pages (k st)) (next nd))
              end
          end
      end
  end.

(** The shuffle loops of lines 1154-1161 and 1164-1171, [count] rounds from
    [i] on: element [i] changes places with element [l], where [l] is what
    [stress_mwc32modn(num_pages)] returns in round [i]. *)
Fixpoint shuffle_loop {A : Type} (rnd : nat -> nat) (count i : nat) (a : list A)
    : option (list A) :=
  match count with
  | O => Some a
  | S count' =>
      let l := rnd i in
      match a !! i, a !! l with
      | Some tmp, Some x =>
          match store_at a i x with
          | None => None
          | Some a1 =>
              match store_at a1 l tmp with
              | None => None
              | Some a2 => shuffle_loop rnd count' (S i) a2
              end
          end
      | _, _ => None
      end
  end.

(** A shuffle that the setting [on] switches on. *)
Definition shuffled {A : Type} (on : bool) (rnd : nat -> nat) (num_pages : nat)
    (a : list A) : option (list A) :=
  if on then shuffle_loop rnd num_pages 0 a else Some a.

(** One pass of the [for (j = 0; j < 16; j++)] loop up to the call of
    [move_pages] (lines 1146-1180): the lists are filled, shuffled if the
    settings say so, and [k] is bumped. *)
Definition prepare_pages (h : gmap nat stress_node) (page_size : Z) (num_pages : nat)
    (buf : Z) (numa_shuffle_addr numa_shuffle_node : bool)
    (rnd_addr rnd_node : nat -> nat) (st : page_lists) : option page_lists :=
  match fill_pages h page_size num_pages num_pages buf st with
  | None => None
  | Some st =>
      match shuffled numa_shuffle_addr rnd_addr num_pages (pages st) with
      | None => None
      | Some pages' =>
          match shuffled numa_shuffle_node rnd_node num_pages (dest_nodes st) with
          | None => None
          | Some dest' =>
              Some (PageLists pages' dest' (next_k num_pages (k st)) (n_tmp st))
          end
      end
  end.

(** [count] passes of that loop from pass [j] on; the random numbers of
    pass [j] are [rnd_addr j] and [rnd_node j].  A pass that ends the loop
    early is a smaller [count]. *)
Fixpoint move_passes (h : gmap nat stress_node) (page_size : Z) (num_pages : nat)
    (buf : Z) (numa_shuffle_addr numa_shuffle_node : bool)
    (rnd_addr rnd_node : nat -> nat -> nat) (count j : nat) (st : page_lists)
    : option page_lists :=
  match count with
  | O => Some st
  | S count' =>
      match prepare_pages h page_size num_pages buf numa_shuffle_addr
              numa_shuffle_node (rnd_addr j) (rnd_node j) st with
      | None => None
      | Some st => move_passes h page_size num_pages buf numa_shuffle_addr
                     numa_shuffle_node rnd_addr rnd_node count' (S j) st
      end
  end.

(** The addresses of the pages of the region at [buf]. *)
Definition page_addresses (buf page_size : Z) (num_pages : nat) : list Z :=
  (fun i => buf + Z.of_nat i * page_size) <$> seq 0 num_pages.

(** A state the loop can be entered with: both arrays have [num_pages]
    elements and [k] is an index into them. *)
Definition lists_fit (num_pages : nat) (st : page_lists) : Prop :=
  length (pages st) = num_pages
  /\ length (dest_nodes st) = num_pages
  /\ (k st < num_pages)%nat.

End NumaMove.
Export NumaMove.
(** * Facts about the memory model *)

Section MemFacts.

Lemma byte_val_range (b : byte) : 0 <= byte_val b < 256.
Proof.
  unfold byte_val. pose proof (Byte.to_N_bounded b). lia.
Qed.

Lemma byte_val_high_bits (b : byte) (k : Z) : 8 <= k -> Z.testbit (byte_val b) k = false.
Proof.
  intros Hk. pose proof (byte_val_range b) as Hb.
  destruct (Z.eq_dec (byte_val b) 0) as [->|Hne]; [apply Z.bits_0|].
  apply Z.bits_above_log2; [lia|].
  assert (Z.log2 (byte_val b) < 8); [|lia].
  apply Z.log2_lt_pow2; lia.
Qed.

Lemma byte_of_Z_val (b : byte) : byte_of_Z (byte_val b) = b.
Proof.
  unfold byte_of_Z. pose proof (byte_val_range b) as Hb.
  replace (Z.land (byte_val b) 255) with (byte_val b).
  - unfold byte_val. rewrite N2Z.id, Byte.of_to_N. reflexivity.
  - change 255 with (Z.ones 8). rewrite Z.land_ones by lia.
    symmetry. apply Z.mod_small. lia.
Qed.

Lemma byte_of_Z_low_bits (v w : Z) :
  (forall k, 0 <= k < 8 -> Z.testbit v k = Z.testbit w k) ->
  byte_of_Z v = byte_of_Z w.
Proof.
  intros Hbits. unfold byte_of_Z.
  replace (Z.land v 255) with (Z.land w 255); [reflexivity|].
  apply Z.bits_inj'. intros k Hk. rewrite !Z.land_spec.
  destruct (Z.lt_ge_cases k 8) as [Hlt|Hge].
  - rewrite Hbits by lia. reflexivity.
  - change 255 with (Z.ones 8). rewrite Z.ones_spec_high by lia.
    rewrite !andb_false_r. reflexivity.
Qed.

(** Byte [i] of the word loaded at [p] is the byte at [p + i]. *)
Lemma load32_byte (m : mem) (p : Z) (i : Z) :
  0 <= i < 4 ->
  byte_of_Z (Z.shiftr (load32 m p) (8 * i)) = m (p + i).
Proof.
  intros Hi. rewrite <- (byte_of_Z_val (m (p + i))).
  apply byte_of_Z_low_bits. intros k Hk.
  unfold load32. rewrite Z.shiftr_spec by lia.
  rewrite !Z.lor_spec, !Z.shiftl_spec by lia.
  assert (i = 0 \/ i = 1 \/ i = 2 \/ i = 3) as [->|[->|[->| ->]]] by lia.
  - rewrite (Z.testbit_neg_r _ (k + 8 * 0 - 8)) by lia.
    rewrite (Z.testbit_neg_r _ (k + 8 * 0 - 16)) by lia.
    rewrite (Z.testbit_neg_r _ (k + 8 * 0 - 24)) by lia.
    rewrite !orb_false_r. f_equal; [f_equal; f_equal|]; lia.
  - rewrite (byte_val_high_bits (m p)) by lia.
    rewrite (Z.testbit_neg_r _ (k + 8 * 1 - 16)) by lia.
    rewrite (Z.testbit_neg_r _ (k + 8 * 1 - 24)) by lia.
    rewrite !orb_false_r. simpl. f_equal. lia.
  - rewrite (byte_val_high_bits (m p)) by lia.
    rewrite (byte_val_high_bits (m (p + 1))) by lia.
    rewrite (Z.testbit_neg_r _ (k + 8 * 2 - 24)) by lia.
    rewrite !orb_false_r. simpl. f_equal. lia.
  - rewrite (byte_val_high_bits (m p)) by lia.
    rewrite (byte_val_high_bits (m (p + 1))) by lia.
    rewrite (byte_val_high_bits (m (p + 2))) by lia.
    simpl. f_equal. lia.
Qed.

Lemma store8_eq (m : mem) (p : Z) (b : byte) : store8 m p b p = b.
Proof. unfold store8. rewrite Z.eqb_refl. reflexivity. Qed.

Lemma store8_ne (m : mem) (p : Z) (b : byte) (a : Z) : a <> p -> store8 m p b a = m a.
Proof. intros Hne. unfold store8. destruct (Z.eqb_spec a p); [lia|reflexivity]. Qed.

(** A word copy is a copy of four bytes. *)
Lemma store32_load32 (dst src : mem) (p1 p2 : Z) (a : Z) :
  store32 dst p1 (load32 src p2) a =
  if (p1 <=? a) && (a <? p1 + 4) then src (p2 + (a - p1)) else dst a.
Proof.
  unfold store32.
  pose proof (load32_byte src p2 0 ltac:(lia)) as H0.
  pose proof (load32_byte src p2 1 ltac:(lia)) as H1.
  pose proof (load32_byte src p2 2 ltac:(lia)) as H2.
  pose proof (load32_byte src p2 3 ltac:(lia)) as H3.
  change (8 * 0) with 0 in H0. rewrite Z.shiftr_0_r in H0.
  change (8 * 1) with 8 in H1. change (8 * 2) with 16 in H2.
  change (8 * 3) with 24 in H3.
  rewrite H0, H1, H2, H3.
  destruct (Z.eq_dec a (p1 + 3)) as [->|N3].
  { rewrite store8_eq.
    replace ((p1 <=? p1 + 3) && (p1 + 3 <? p1 + 4)) with true by lia.
    f_equal. lia. }
  rewrite store8_ne by lia.
  destruct (Z.eq_dec a (p1 + 2)) as [->|N2].
  { rewrite store8_eq.
    replace ((p1 <=? p1 + 2) && (p1 + 2 <? p1 + 4)) with true by lia.
    f_equal. lia. }
  rewrite store8_ne by lia.
  destruct (Z.eq_dec a (p1 + 1)) as [->|N1].
  { rewrite store8_eq.
    replace ((p1 <=? p1 + 1) && (p1 + 1 <? p1 + 4)) with true by lia.
    f_equal. lia. }
  rewrite store8_ne by lia.
  destruct (Z.eq_dec a p1) as [->|N0].
  { rewrite store8_eq.
    replace ((p1 <=? p1) && (p1 <? p1 + 4)) with true by lia.
    f_equal. lia. }
  rewrite store8_ne by lia.
  replace ((p1 <=? a) && (a <? p1 + 4)) with false by lia.
  reflexivity.
Qed.

Lemma copy_u8_spec (fuel : nat) (dst src : mem) (p1 p2 e : Z) (a : Z) :
  e - p1 <= Z.of_nat fuel ->
  copy_u8 fuel dst src p1 p2 e a =
  if (p1 <=? a) && (a <? e) then src (p2 + (a - p1)) else dst a.
Proof.
  revert dst p1 p2. induction fuel as [|fuel IH]; intros dst p1 p2 Hfuel; simpl.
  - replace ((p1 <=? a) && (a <? e)) with false by lia. reflexivity.
  - destruct (Z.ltb_spec p1 e) as [Hlt|Hge].
    + rewrite IH by lia.
      destruct (Z.eq_dec a p1) as [->|Hne].
      * replace ((p1 + 1 <=? p1) && (p1 <? e)) with false by lia.
        replace ((p1 <=? p1) && (p1 <? e)) with true by lia.
        rewrite store8_eq. f_equal. lia.
      * rewrite store8_ne by lia.
        destruct (Z.leb_spec (p1 + 1) a), (Z.leb_spec p1 a), (Z.ltb_spec a e);
          simpl; try lia; try reflexivity.
        f_equal. lia.
    + replace ((p1 <=? a) && (a <? e)) with false by lia. reflexivity.
Qed.

(** [mergesort_copy] moves exactly the [size] bytes behind [p2] to [p1]. *)
Lemma mergesort_copy_spec (dst src : mem) (p1 p2 size : Z) (a : Z) :
  0 <= size ->
  mergesort_copy dst src p1 p2 size a =
  if (p1 <=? a) && (a <? p1 + size) then src (p2 + (a - p1)) else dst a.
Proof.
  intros Hsize. unfold mergesort_copy.
  destruct (Z.eqb_spec size 4) as [->|Hne].
  - change (Z.to_nat 4) with 4%nat. cbn [copy_u32].
    replace (p1 <? p1 + 4) with true by lia.
    replace (p1 + 4 <? p1 + 4) with false by lia.
    apply store32_load32.
  - apply copy_u8_spec. lia.
Qed.

Lemma mergesort_copy_inside (dst src : mem) (p1 p2 size : Z) (a : Z) :
  0 <= size -> p1 <= a < p1 + size ->
  mergesort_copy dst src p1 p2 size a = src (p2 + (a - p1)).
Proof.
  intros Hs Ha. rewrite mergesort_copy_spec by lia.
  replace ((p1 <=? a) && (a <? p1 + size)) with true by lia. reflexivity.
Qed.

Lemma mergesort_copy_outside (dst src : mem) (p1 p2 size : Z) (a : Z) :
  0 <= size -> a < p1 \/ p1 + size <= a ->
  mergesort_copy dst src p1 p2 size a = dst a.
Proof.
  intros Hs Ha. rewrite mergesort_copy_spec by lia.
  replace ((p1 <=? a) && (a <? p1 + size)) with false by lia. reflexivity.
Qed.

End MemFacts.

(** * Records in memory *)

Section RecordFacts.

Lemma rec_at_ext (m m' : mem) (size p : Z) :
  (forall a, p <= a < p + size -> m a = m' a) ->
  rec_at m size p = rec_at m' size p.
Proof.
  intros H. unfold rec_at. apply map_ext_in. intros k Hk.
  apply in_seq in Hk. apply H. lia.
Qed.

Lemma records_ext (m m' : mem) (size lo : Z) (n : nat) :
  0 <= size ->
  (forall a, lo * size <= a < (lo + Z.of_nat n) * size -> m a = m' a) ->
  records m size lo n = records m' size lo n.
Proof.
  intros Hs H. unfold records. apply map_ext_in. intros k Hk.
  apply in_seq in Hk. apply rec_at_ext. intros a Ha. apply H. nia.
Qed.

Lemma records_S (m : mem) (size lo : Z) (n : nat) :
  records m size lo (S n) = rec_at m size (lo * size) :: records m size (lo + 1) n.
Proof.
  unfold records. cbn [seq List.map]. f_equal.
  - f_equal. lia.
  - rewrite <- seq_shift, List.map_map. apply map_ext. intros k.
    f_equal. lia.
Qed.

Lemma records_length (m : mem) (size lo : Z) (n : nat) :
  length (records m size lo n) = n.
Proof. unfold records. rewrite length_map, length_seq. reflexivity. Qed.

Lemma records_drop (m : mem) (size lo : Z) (n i : nat) :
  drop i (records m size lo n) = records m size (lo + Z.of_nat i) (n - i).
Proof.
  revert lo n. induction i as [|i IH]; intros lo n.
  - rewrite drop_0. f_equal; lia.
  - destruct n as [|n]; [reflexivity|].
    rewrite records_S. cbn [drop skipn]. rewrite IH. f_equal; lia.
Qed.

Lemma records_app (m : mem) (size lo : Z) (n k : nat) :
  records m size lo (n + k) =
  records m size lo n ++ records m size (lo + Z.of_nat n) k.
Proof.
  revert lo. induction n as [|n IH]; intros lo.
  - simpl. f_equal. lia.
  - cbn [Nat.add]. rewrite !records_S, IH. cbn [app]. do 3 f_equal. lia.
Qed.

(** A copy of one record puts the source record in place. *)
Lemma rec_at_copy (dst src : mem) (p1 p2 size : Z) :
  0 <= size ->
  rec_at (mergesort_copy dst src p1 p2 size) size p1 = rec_at src size p2.
Proof.
  intros Hs. unfold rec_at. apply map_ext_in. intros k Hk.
  apply in_seq in Hk. rewrite mergesort_copy_inside by lia. f_equal. lia.
Qed.

(** A bulk copy of [n] records puts the source records in place. *)
Lemma records_copy (dst src : mem) (size lo lo' : Z) (n : nat) :
  0 <= size ->
  records (mergesort_copy dst src (lo * size) (lo' * size) (Z.of_nat n * size))
    size lo n = records src size lo' n.
Proof.
  intros Hs. unfold records. apply map_ext_in. intros k Hk.
  apply in_seq in Hk. unfold rec_at. apply map_ext_in. intros d Hd.
  apply in_seq in Hd.
  destruct (Z.eq_dec size 0) as [->|Hne]; [simpl in Hd; lia|].
  rewrite mergesort_copy_inside by nia. f_equal. lia.
Qed.

End RecordFacts.

(** * One merge *)

Section MergeFacts.

Context (compar : comparator) (size : Z) (Hsize : 0 < size).
Context (sm : mem) (a b : nat) (left : Z).

Let lhs_end : Z := Z.of_nat a * size.
Let rhs_end : Z := (Z.of_nat a + Z.of_nat b) * size.

Lemma merge_tail_lhs_done (le re : Z) (bm : mem) (log : list event) (lhs rhs base : Z) :
  le - lhs <= 0 ->
  (merge_tail sm le re (Cursor bm log lhs rhs base)).1 =
  if re - rhs >? 0 then mergesort_copy bm sm base rhs (re - rhs) else bm.
Proof.
  intros Hn. cbn [merge_tail].
  destruct (Z.gtb_spec (le - lhs) 0); [lia|].
  destruct (re - rhs >? 0); reflexivity.
Qed.

Lemma merge_tail_rhs_done (le re : Z) (bm : mem) (log : list event) (lhs rhs base : Z) :
  re - rhs <= 0 ->
  (merge_tail sm le re (Cursor bm log lhs rhs base)).1 =
  if le - lhs >? 0 then mergesort_copy bm sm base lhs (le - lhs) else bm.
Proof.
  intros Hn. cbn [merge_tail].
  destruct (Z.gtb_spec (le - lhs) 0);
    (destruct (Z.gtb_spec (re - rhs) 0); [lia|reflexivity]).
Qed.

Lemma drop_run_cons (m : mem) (lo : Z) (n i : nat) :
  (i < n)%nat ->
  drop i (records m size lo n) =
  rec_at m size ((lo + Z.of_nat i) * size) :: drop (S i) (records m size lo n).
Proof.
  intros Hi. rewrite !records_drop.
  replace (n - i)%nat with (S (n - S i)) by lia.
  rewrite records_S. do 2 f_equal. lia.
Qed.

Lemma drop_run_nil (m : mem) (lo : Z) (n : nat) :
  drop n (records m size lo n) = [].
Proof. rewrite records_drop, Nat.sub_diag. reflexivity. Qed.

(** From any point of a merge on, the loop leaves, and the loop and the two
    bulk copies leave behind the rest of the merged run; nothing is written
    below the output position or from two records past the end of the
    merged range on. *)
Lemma merge_loop_spec (fuel : nat) :
  forall (i j : nat) (bm : mem) (log : list event),
    (i <= a)%nat -> (j <= b)%nat -> (a - i + (b - j) + 1 <= fuel)%nat ->
    exists c',
      merge_loop fuel compar size sm lhs_end rhs_end (cursor_at size a left bm log i j) = Some c'
      /\ records (merge_tail sm lhs_end rhs_end c').1 size
           (left + Z.of_nat i + Z.of_nat j) (a - i + (b - j))
         = merge_runs compar (drop i (records sm size 0 a))
             (drop j (records sm size (Z.of_nat a) b))
      /\ (forall x,
            x < (left + Z.of_nat i + Z.of_nat j) * size
            \/ (left + Z.of_nat a + Z.of_nat b + 1) * size <= x ->
            (merge_tail sm lhs_end rhs_end c').1 x = bm x).
Proof.
  induction fuel as [|fuel IH]; intros i j bm log Hi Hj Hfuel; [lia|].
  cbn [merge_loop]. unfold cursor_at at 1. cbn [merge_round].
  set (rl := rec_at sm size (Z.of_nat i * size)).
  set (rr := rec_at sm size ((Z.of_nat a + Z.of_nat j) * size)).
  set (base := (left + Z.of_nat i + Z.of_nat j) * size).
  destruct (Z.ltb_spec (compar rl rr) 0) as [Hlt|Hge].
  - (* the record under [lhs] is stored *)
    set (bm1 := mergesort_copy bm sm base (Z.of_nat i * size) size).
    assert (Hrec : rec_at bm1 size base = rl).
    { unfold bm1, rl. apply rec_at_copy. lia. }
    assert (Hout : forall x, x < base \/ base + size <= x -> bm1 x = bm x).
    { intros x Hx. unfold bm1. apply mergesort_copy_outside; lia. }
    destruct (Z.gtb_spec (Z.of_nat i * size + size) lhs_end) as [Hbrk|Hgo].
    + (* the left run was used up before this round *)
      assert (i = a) as -> by (unfold lhs_end in Hbrk; nia).
      eexists. split; [reflexivity|].
      rewrite merge_tail_lhs_done by (unfold lhs_end; lia).
      rewrite drop_run_nil. unfold merge_runs. rewrite list_merge_nil_l.
      rewrite records_drop.
      destruct (Z.gtb_spec (rhs_end - (Z.of_nat a + Z.of_nat j) * size) 0) as [Hn|Hn].
      * assert (j < b)%nat by (unfold rhs_end in Hn; nia).
        replace (rhs_end - (Z.of_nat a + Z.of_nat j) * size)
          with (Z.of_nat (b - j) * size) by (unfold rhs_end; nia).
        split.
        -- replace (a - a + (b - j))%nat with (b - j)%nat by lia.
           apply records_copy. lia.
        -- intros x Hx.
           rewrite mergesort_copy_outside by (unfold base; nia).
           apply Hout. unfold base. nia.
      * assert (j = b) as -> by (unfold rhs_end in Hn; nia).
        split.
        -- rewrite !Nat.sub_diag. reflexivity.
        -- intros x Hx. apply Hout. unfold base. nia.
    + (* the loop goes on *)
      assert (i < a)%nat by (unfold lhs_end in Hgo; nia).
      destruct (IH (S i) j bm1 (EvStore base size :: EvCompare (Z.of_nat i * size)
                     ((Z.of_nat a + Z.of_nat j) * size) :: log))
        as (c' & Hloop & Hrecs & Hframe); [lia..|].
      unfold cursor_at in Hloop.
      replace (Z.of_nat i * size + size) with (Z.of_nat (S i) * size) by lia.
      replace (base + size) with ((left + Z.of_nat (S i) + Z.of_nat j) * size)
        by (unfold base; lia).
      exists c'. split; [exact Hloop|]. split.
      * replace (a - i + (b - j))%nat with (S (a - S i + (b - j))) by lia.
        rewrite records_S.
        replace (left + Z.of_nat i + Z.of_nat j + 1)
          with (left + Z.of_nat (S i) + Z.of_nat j) by lia.
        rewrite Hrecs. fold base.
        rewrite (rec_at_ext _ bm1) by (intros x Hx; apply Hframe; unfold base in Hx; nia).
        rewrite Hrec.
        rewrite (drop_run_cons sm 0 a i) by lia. rewrite Z.add_0_l. fold rl.
        unfold merge_runs.
        destruct (Nat.eq_dec j b) as [->|Hjb].
        -- rewrite drop_run_nil, !list_merge_nil_r. reflexivity.
        -- rewrite (drop_run_cons sm (Z.of_nat a) b j) by lia. fold rr.
           rewrite list_merge_cons. rewrite decide_True by exact Hlt. reflexivity.
      * intros x Hx. rewrite Hframe by nia. apply Hout. unfold base. nia.
  - (* the record under [rhs] is stored *)
    set (bm1 := mergesort_copy bm sm base ((Z.of_nat a + Z.of_nat j) * size) size).
    assert (Hrec : rec_at bm1 size base = rr).
    { unfold bm1, rr. apply rec_at_copy. lia. }
    assert (Hout : forall x, x < base \/ base + size <= x -> bm1 x = bm x).
    { intros x Hx. unfold bm1. apply mergesort_copy_outside; lia. }
    destruct (Z.gtb_spec ((Z.of_nat a + Z.of_nat j) * size + size) rhs_end) as [Hbrk|Hgo].
    + (* the right run was used up before this round *)
      assert (j = b) as -> by (unfold rhs_end in Hbrk; nia).
      eexists. split; [reflexivity|].
      rewrite merge_tail_rhs_done by (unfold rhs_end; lia).
      rewrite drop_run_nil. unfold merge_runs. rewrite list_merge_nil_r.
      rewrite records_drop.
      destruct (Z.gtb_spec (lhs_end - Z.of_nat i * size) 0) as [Hn|Hn].
      * assert (i < a)%nat by (unfold lhs_end in Hn; nia).
        replace (lhs_end - Z.of_nat i * size)
          with (Z.of_nat (a - i) * size) by (unfold lhs_end; nia).
        split.
        -- replace (a - i + (b - b))%nat with (a - i)%nat by lia.
           replace (0 + Z.of_nat i) with (Z.of_nat i) by lia.
           apply records_copy. lia.
        -- intros x Hx.
           rewrite mergesort_copy_outside by (unfold base; nia).
           apply Hout. unfold base. nia.
      * assert (i = a) as -> by (unfold lhs_end in Hn; nia).
        split.
        -- rewrite !Nat.sub_diag. reflexivity.
        -- intros x Hx. apply Hout. unfold base. nia.
    + (* the loop goes on *)
      assert (j < b)%nat by (unfold rhs_end in Hgo; nia).
      destruct (IH i (S j) bm1 (EvStore base size :: EvCompare (Z.of_nat i * size)
                     ((Z.of_nat a + Z.of_nat j) * size) :: log))
        as (c' & Hloop & Hrecs & Hframe); [lia..|].
      unfold cursor_at in Hloop.
      replace ((Z.of_nat a + Z.of_nat j) * size + size)
        with ((Z.of_nat a + Z.of_nat (S j)) * size) by lia.
      replace (base + size) with ((left + Z.of_nat i + Z.of_nat (S j)) * size)
        by (unfold base; lia).
      exists c'. split; [exact Hloop|]. split.
      * replace (a - i + (b - j))%nat with (S (a - i + (b - S j))) by lia.
        rewrite records_S.
        replace (left + Z.of_nat i + Z.of_nat j + 1)
          with (left + Z.of_nat i + Z.of_nat (S j)) by lia.
        rewrite Hrecs. fold base.
        rewrite (rec_at_ext _ bm1) by (intros x Hx; apply Hframe; unfold base in Hx; nia).
        rewrite Hrec.
        rewrite (drop_run_cons sm (Z.of_nat a) b j) by lia. fold rr.
        unfold merge_runs.
        destruct (Nat.eq_dec i a) as [->|Hia].
        -- rewrite drop_run_nil, !list_merge_nil_l. reflexivity.
        -- rewrite (drop_run_cons sm 0 a i) by lia. rewrite Z.add_0_l. fold rl.
           rewrite list_merge_cons.
           rewrite decide_False by (unfold cmp_lt; lia). reflexivity.
      * intros x Hx. rewrite Hframe by nia. apply Hout. unfold base. nia.
Qed.

(** A whole merge: the loop leaves, and the merged range holds the merge
    of the two runs in which ties go to the right run first.  The range
    keeps the records of the two runs; the record behind it is not
    covered. *)
Lemma merge_refines_merge_runs (bm : mem) (log : list event) :
  exists c',
    merge_loop (a + b + 1) compar size sm lhs_end rhs_end
      (cursor_at size a left bm log 0 0) = Some c'
    /\ records (merge_tail sm lhs_end rhs_end c').1 size left (a + b)
       = merge_runs compar (records sm size 0 a) (records sm size (Z.of_nat a) b)
    /\ records (merge_tail sm lhs_end rhs_end c').1 size left (a + b)
       ≡ₚ records sm size 0 a ++ records sm size (Z.of_nat a) b
    /\ (forall x, x < left * size \/ (left + Z.of_nat a + Z.of_nat b + 1) * size <= x ->
                  (merge_tail sm lhs_end rhs_end c').1 x = bm x).
Proof.
  destruct (merge_loop_spec (a + b + 1) 0 0 bm log) as (c' & Hloop & Hrecs & Hframe);
    [lia..|].
  rewrite !drop_0, !Nat.sub_0_r in Hrecs.
  replace (left + Z.of_nat 0 + Z.of_nat 0) with left in * by lia.
  exists c'. split; [exact Hloop|]. split; [exact Hrecs|].
  split; [rewrite Hrecs; apply merge_Permutation|exact Hframe].
Qed.

End MergeFacts.

(** * Runs in order *)

Section OrderFacts.

Context (compar : comparator).
Context (Hflip : flips compar).

Lemma HdRel_merge_runs (x : list byte) (l1 l2 : list (list byte)) :
  HdRel (cmp_le compar) x l1 -> HdRel (cmp_le compar) x l2 ->
  HdRel (cmp_le compar) x (merge_runs compar l1 l2).
Proof.
  unfold merge_runs. intros H1 H2.
  destruct l1 as [|y1 l1]; [rewrite list_merge_nil_l; exact H2|].
  destruct l2 as [|y2 l2]; [rewrite list_merge_nil_r; exact H1|].
  rewrite list_merge_cons. inversion H1; inversion H2; subst.
  case_decide; constructor; assumption.
Qed.

(** Merging two ordered runs gives an ordered run. *)
Lemma Sorted_merge_runs (l1 l2 : list (list byte)) :
  Sorted (cmp_le compar) l1 -> Sorted (cmp_le compar) l2 ->
  Sorted (cmp_le compar) (merge_runs compar l1 l2).
Proof.
  intros H1. revert l2.
  induction H1 as [|x1 l1 Hs1 IH1 Hd1]; intros l2 H2.
  { unfold merge_runs. rewrite list_merge_nil_l. exact H2. }
  induction H2 as [|x2 l2 Hs2 IH2 Hd2].
  { unfold merge_runs. rewrite list_merge_nil_r. constructor; assumption. }
  unfold merge_runs in *. rewrite list_merge_cons.
  case_decide as Hc; unfold cmp_lt in Hc.
  - constructor.
    + apply IH1. constructor; assumption.
    + apply (HdRel_merge_runs x1 l1 (x2 :: l2)); [exact Hd1|].
      constructor. unfold cmp_le. lia.
  - constructor.
    + exact IH2.
    + apply (HdRel_merge_runs x2 (x1 :: l1) l2); [|exact Hd2].
      constructor. unfold cmp_le. apply Hflip. lia.
Qed.

(** The driver's check passes on an ordered run. *)
Lemma verify_sorted_Sorted (l : list (list byte)) :
  Sorted (cmp_le compar) l -> verify_sorted compar l = true.
Proof.
  induction 1 as [|x l Hs IH Hd]; [reflexivity|].
  destruct l as [|y l]; [reflexivity|].
  cbn [verify_sorted] in *. rewrite IH, andb_true_r.
  inversion Hd as [|? ? Hxy]; subst. unfold cmp_le in Hxy.
  destruct (Z.gtb_spec (compar x y) 0); [lia|reflexivity].
Qed.

Lemma Sorted_verify_sorted (l : list (list byte)) :
  verify_sorted compar l = true -> Sorted (cmp_le compar) l.
Proof.
  induction l as [|x l IH]; [constructor|].
  destruct l as [|y l]; [repeat constructor|].
  cbn [verify_sorted]. intros [Hxy Hl]%andb_true_iff.
  constructor; [apply IH; exact Hl|].
  constructor. unfold cmp_le.
  destruct (Z.gtb_spec (compar x y) 0); [discriminate|lia].
Qed.

End OrderFacts.

Lemma strict_weak_order_flips (compar : comparator) :
  strict_weak_order compar -> flips compar.
Proof.
  intros Hswo x y Hxy.
  destruct (Z.le_gt_cases (compar y x) 0) as [Hle|Hgt]; [exact Hle|].
  apply (swo_sign compar Hswo y x) in Hgt. lia.
Qed.

(** * The recursion *)

Section PartitionFacts.

Context (compar : comparator) (size : Z) (Hsize : 0 < size).

Lemma half_range (left right : Z) :
  left <= right ->
  let mid := left + Z.shiftr (right - left) 1 in
  left <= mid <= right /\ 2 * (mid - left) <= right - left <= 2 * (mid - left) + 1.
Proof.
  intros Hlr mid. unfold mid. rewrite Z.shiftr_div_pow2 by lia.
  change (2 ^ 1) with 2. pose proof (Z.div_mod (right - left) 2 ltac:(lia)).
  pose proof (Z.mod_pos_bound (right - left) 2 ltac:(lia)). lia.
Qed.

(** What the two bulk copies into the scratch block leave there. *)
Lemma scratch_runs (sm bm : mem) (left mid : Z) (a b : nat) :
  let sm' :=
    mergesort_copy
      (mergesort_copy sm bm 0 (left * size) (Z.of_nat a * size))
      bm (Z.of_nat a * size) ((mid + 1) * size) (Z.of_nat b * size) in
  records sm' size 0 a = records bm size left a
  /\ records sm' size (Z.of_nat a) b = records bm size (mid + 1) b.
Proof.
  intros sm'. split.
  - unfold sm'.
    rewrite (records_ext _ (mergesort_copy sm bm 0 (left * size) (Z.of_nat a * size)))
      by (try lia; intros x Hx; apply mergesort_copy_outside; nia).
    exact (records_copy sm bm size 0 left a ltac:(lia)).
  - apply records_copy. lia.
Qed.

(** [mergesort_partition] on [left .. right] returns and writes nothing
    below record [left] or from record [right + 2] on; under a comparator
    that flips it leaves the range ordered.  The record at [right + 1] is
    not covered. *)
Lemma partition_spec (fuel : nat) :
  forall (st : sort_state) (left right : Z),
    left <= right -> right - left < 2 ^ Z.of_nat fuel -> (1 <= fuel)%nat ->
    exists st',
      mergesort_partition fuel compar st left right size = Some st'
      /\ (flips compar -> Sorted (cmp_le compar)
             (records (buf st') size left (Z.to_nat (right - left + 1))))
      /\ (forall x, x < left * size \/ (right + 2) * size <= x ->
                    buf st' x = buf st x).
Proof.
  induction fuel as [|fuel IH]; intros st left right Hlr Hdepth Hfuel; [lia|].
  cbn [mergesort_partition].
  pose proof (half_range left right Hlr) as Hmid. cbn zeta in Hmid.
  set (mid := left + Z.shiftr (right - left) 1) in *.
  assert (Hpow : 2 ^ Z.of_nat (S fuel) = 2 * 2 ^ Z.of_nat fuel).
  { rewrite Nat2Z.inj_succ, Z.pow_succ_r by lia. reflexivity. }
  (* the left half *)
  assert (exists st1,
             (if left <? mid
              then mergesort_partition fuel compar st left mid size
              else Some st) = Some st1
             /\ (flips compar -> Sorted (cmp_le compar)
                    (records (buf st1) size left (Z.to_nat (mid - left + 1))))
             /\ (forall x, x < left * size \/ (mid + 2) * size <= x ->
                           buf st1 x = buf st x))
    as (st1 & -> & Hsorted1 & Hframe1).
  { destruct (Z.ltb_spec left mid) as [Hlt|Hge].
    - apply IH; [lia| |].
      + lia.
      + destruct fuel; [simpl in Hdepth; lia|lia].
    - exists st. split; [reflexivity|]. split; [intros _|reflexivity].
      replace (mid - left + 1) with 1 by lia.
      change (Z.to_nat 1) with 1%nat. repeat constructor. }
  cbn [mbind option_bind].
  (* the right half *)
  assert (exists st2,
             (if mid + 1 <? right
              then mergesort_partition fuel compar st1 (mid + 1) right size
              else Some st1) = Some st2
             /\ (flips compar -> Sorted (cmp_le compar)
                    (records (buf st2) size (mid + 1) (Z.to_nat (right - mid))))
             /\ (forall x, x < (mid + 1) * size \/ (right + 2) * size <= x ->
                           buf st2 x = buf st1 x))
    as (st2 & -> & Hsorted2 & Hframe2).
  { destruct (Z.ltb_spec (mid + 1) right) as [Hlt|Hge].
    - destruct (IH st1 (mid + 1) right) as (st2 & Hcall & Hs & Hf); [lia| | |].
      + lia.
      + destruct fuel; [simpl in Hdepth; lia|lia].
      + exists st2. split; [exact Hcall|]. split; [|exact Hf].
        replace (right - mid) with (right - (mid + 1) + 1) by lia. exact Hs.
    - exists st1. split; [reflexivity|]. split; [intros _|reflexivity].
      assert (right - mid = 0 \/ right - mid = 1) as [-> | ->] by lia.
      + constructor.
      + change (Z.to_nat 1) with 1%nat. repeat constructor. }
  cbn [mbind option_bind].
  (* the merge *)
  set (a := Z.to_nat (mid - left + 1)) in *.
  set (b := Z.to_nat (right - mid)) in *.
  assert (Ha : mid - left + 1 = Z.of_nat a) by (unfold a; lia).
  assert (Hb : right - mid = Z.of_nat b) by (unfold b; lia).
  rewrite Ha, Hb. unfold IDX. rewrite !Z.add_0_l.
  destruct (scratch_runs (scratch st2) (buf st2) left mid a b) as [HL HR].
  cbn zeta in HL, HR.
  set (sm := mergesort_copy _ (buf st2) (Z.of_nat a * size) _ _) in *.
  destruct (merge_loop_spec compar size Hsize sm a b left
              (Z.to_nat (Z.of_nat a + Z.of_nat b + 2)) 0 0 (buf st2) (trace st2))
    as (c' & Hloop & Hrecs & Hframe); [lia..|].
  unfold cursor_at in Hloop. 
  replace (Z.of_nat 0 * size) with 0 in Hloop by lia.
  replace ((Z.of_nat a + Z.of_nat 0) * size) with (Z.of_nat a * size) in Hloop by lia.
  replace ((left + Z.of_nat 0 + Z.of_nat 0) * size) with (left * size) in Hloop by lia.
  replace (Z.of_nat a * size + Z.of_nat b * size)
    with ((Z.of_nat a + Z.of_nat b) * size) by lia.
  rewrite Hloop. cbn [mbind option_bind].
  destruct (merge_tail sm (Z.of_nat a * size) ((Z.of_nat a + Z.of_nat b) * size) c')
    as [bm' log'] eqn:Htail.
  cbn [fst] in Hrecs, Hframe.
  eexists. split; [reflexivity|]. cbn [buf]. split.
  - intros Hflip.
    replace (Z.to_nat (right - left + 1)) with (a - 0 + (b - 0))%nat by lia.
    replace left with (left + Z.of_nat 0 + Z.of_nat 0) at 1 by lia.
    rewrite Hrecs, !drop_0, HL, HR.
    apply Sorted_merge_runs; [exact Hflip| |exact (Hsorted2 Hflip)].
    rewrite (records_ext _ (buf st1)); [exact (Hsorted1 Hflip)|lia|].
    intros x Hx. apply Hframe2. nia.
  - intros x Hx. rewrite Hframe by nia. rewrite Hframe2 by nia.
    apply Hframe1. nia.
Qed.

End PartitionFacts.

(** * The two paths at width four *)

Section FourByteFacts.

Context (compar : comparator).

Lemma mergesort_copy_word (dst src : mem) (p1 p2 : Z) :
  mergesort_copy dst src p1 p2 4 = store32 dst p1 (load32 src p2).
Proof.
  unfold mergesort_copy. change (4 =? 4) with true. cbn iota.
  change (Z.to_nat 4) with 4%nat. cbn [copy_u32].
  destruct (Z.ltb_spec p1 (p1 + 4)) as [_|Hge]; [|lia].
  destruct (Z.ltb_spec (p1 + 4) (p1 + 4)) as [Hlt|_]; [lia|].
  reflexivity.
Qed.

Lemma merge_round4_as_round (sm : mem) (lhs_end rhs_end : Z) (c : cursor) :
  merge_round4 compar sm lhs_end rhs_end c = merge_round compar 4 sm lhs_end rhs_end c.
Proof.
  destruct c as [bm log lhs rhs base]. cbn [merge_round4 merge_round].
  rewrite !mergesort_copy_word. reflexivity.
Qed.

Lemma merge_loop4_as_loop (fuel : nat) (sm : mem) (lhs_end rhs_end : Z) (c : cursor) :
  merge_loop4 fuel compar sm lhs_end rhs_end c = merge_loop fuel compar 4 sm lhs_end rhs_end c.
Proof.
  revert c. induction fuel as [|fuel IH]; intros c; [reflexivity|].
  cbn [merge_loop4 merge_loop]. rewrite merge_round4_as_round.
  destruct (merge_round compar 4 sm lhs_end rhs_end c) as [c' [|]]; [reflexivity|].
  apply IH.
Qed.

(** The specialised path is the generic path at [size = 4]: same buffer,
    same scratch block, same trace. *)
Lemma partition4_as_partition (fuel : nat) (st : sort_state) (left right : Z) :
  mergesort_partition4 fuel compar st left right =
  mergesort_partition fuel compar st left right 4.
Proof.
  revert st left right. induction fuel as [|fuel IH]; intros st left right;
    [reflexivity|].
  cbn [mergesort_partition4 mergesort_partition].
  rewrite !IH.
  destruct (if left <? left + Z.shiftr (right - left) 1
            then mergesort_partition fuel compar st left
                   (left + Z.shiftr (right - left) 1) 4
            else Some st) as [st1|]; [|reflexivity].
  cbn [mbind option_bind]. rewrite !IH.
  destruct (if left + Z.shiftr (right - left) 1 + 1 <? right
            then mergesort_partition fuel compar st1
                   (left + Z.shiftr (right - left) 1 + 1) right 4
            else Some st1) as [st2|]; [|reflexivity].
  cbn [mbind option_bind]. rewrite merge_loop4_as_loop. reflexivity.
Qed.

End FourByteFacts.

(** * Every merge is traced *)

Section TraceFacts.

Context (compar : comparator) (size : Z) (sm : mem) (lhs_end rhs_end : Z).

Lemma merge_round_logs (c : cursor) :
  exists ev log, cur_log (merge_round compar size sm lhs_end rhs_end c).1 = ev :: log.
Proof.
  destruct c as [bm log lhs rhs base]. cbn [merge_round].
  destruct (_ <? 0); destruct (_ >? _); cbn [fst cur_log]; eauto.
Qed.

Lemma merge_loop_logs (fuel : nat) (c c' : cursor) :
  merge_loop fuel compar size sm lhs_end rhs_end c = Some c' ->
  exists ev log, cur_log c' = ev :: log.
Proof.
  revert c. induction fuel as [|fuel IH]; intros c; [discriminate|].
  cbn [merge_loop]. pose proof (merge_round_logs c) as Hlog.
  destruct (merge_round compar size sm lhs_end rhs_end c) as [c1 [|]].
  - intros [= <-]. exact Hlog.
  - apply IH.
Qed.

Lemma merge_tail_logs (c : cursor) :
  (exists ev log, cur_log c = ev :: log) ->
  exists ev log, (merge_tail sm lhs_end rhs_end c).2 = ev :: log.
Proof.
  destruct c as [bm log lhs rhs base]. cbn [cur_log merge_tail].
  intros Hlog.
  destruct (lhs_end - lhs >? 0); destruct (rhs_end - rhs >? 0); cbn [snd]; eauto.
Qed.

End TraceFacts.

(** A call of [mergesort_partition] that returns has called the comparator
    and stored into the buffer. *)
Lemma partition_logs (compar : comparator) (size : Z) (fuel : nat)
    (st st' : sort_state) (left right : Z) :
  mergesort_partition fuel compar st left right size = Some st' ->
  exists ev log, trace st' = ev :: log.
Proof.
  destruct fuel as [|fuel]; [discriminate|].
  cbn [mergesort_partition].
  destruct (if left <? _ then _ else _) as [st1|]; [|discriminate].
  cbn [mbind option_bind].
  destruct (if _ + 1 <? right then _ else _) as [st2|]; [|discriminate].
  cbn [mbind option_bind].
  destruct (merge_loop _ _ _ _ _ _ _) as [c|] eqn:Hloop; [|discriminate].
  cbn [mbind option_bind].
  pose proof (merge_loop_logs _ _ _ _ _ _ _ _ Hloop) as Hlog.
  match goal with
  | |- context [merge_tail ?sm ?le ?re c] =>
      pose proof (merge_tail_logs sm le re c Hlog) as Htail;
      destruct (merge_tail sm le re c) as [bm log]
  end.
  intros [= <-]. exact Htail.
Qed.

(** * The whole sort *)

Section SortFacts.

Context (compar : comparator).

Lemma nonlibc_as_partition (lhs base : mem) (nmemb size : Z) :
  mergesort_nonlibc (Some lhs) base nmemb size compar =
  st ← mergesort_partition PARTITION_DEPTH compar (SortState base lhs [])
         0 ((nmemb - 1) mod SIZE_MODULUS) size;
  Some (0, buf st, trace st).
Proof.
  unfold mergesort_nonlibc.
  destruct (Z.eqb_spec size 4) as [->|Hne]; [|reflexivity].
  rewrite partition4_as_partition. reflexivity.
Qed.

(** With a mapping in hand and a record width above zero the sort returns
    0; the [nmemb] records of the buffer are then in order, whatever the
    bytes next to the two blocks were. *)
Lemma nonlibc_sorted (lhs base : mem) (nmemb size : Z) :
  0 <= nmemb < SIZE_MODULUS -> 0 < size ->
  exists bm tr,
    mergesort_nonlibc (Some lhs) base nmemb size compar = Some (0, bm, tr)
    /\ (flips compar -> Sorted (cmp_le compar) (records bm size 0 (Z.to_nat nmemb))).
Proof.
  intros Hn Hsize. rewrite nonlibc_as_partition.
  pose proof (Z.mod_pos_bound (nmemb - 1) SIZE_MODULUS ltac:(reflexivity)) as Hright.
  destruct (partition_spec compar size Hsize PARTITION_DEPTH
              (SortState base lhs []) 0 ((nmemb - 1) mod SIZE_MODULUS))
    as (st' & Hcall & Hsorted & _).
  { lia. }
  { unfold PARTITION_DEPTH. change (2 ^ Z.of_nat 64) with SIZE_MODULUS. lia. }
  { unfold PARTITION_DEPTH. lia. }
  rewrite Hcall. cbn [mbind option_bind].
  exists (buf st'), (trace st'). split; [reflexivity|].
  intros Hflip. specialize (Hsorted Hflip).
  destruct (Z.eq_dec nmemb 0) as [->|Hne]; [constructor|].
  rewrite Z.mod_small in Hsorted by lia.
  replace (nmemb - 1 - 0 + 1) with nmemb in Hsorted by lia.
  exact Hsorted.
Qed.

(** Without any record to sort the function still merges: [nmemb - 1]
    wraps around to the largest index and the whole index range is
    partitioned. *)
Lemma nonlibc_no_records_still_merges (lhs base : mem) (size : Z) :
  0 < size ->
  exists bm ev tr,
    mergesort_nonlibc (Some lhs) base 0 size compar = Some (0, bm, ev :: tr).
Proof.
  intros Hsize.
  destruct (nonlibc_sorted lhs base 0 size ltac:(unfold SIZE_MODULUS; lia) Hsize)
    as (bm & tr & Hcall & _).
  pose proof Hcall as Hcall'. rewrite nonlibc_as_partition in Hcall'.
  destruct (mergesort_partition _ _ _ _ _ _) as [st|] eqn:Hpart; [|discriminate].
  cbn [mbind option_bind] in Hcall'. injection Hcall' as <- <-.
  destruct (partition_logs _ _ _ _ _ _ _ Hpart) as (ev & log & Hlog).
  exists (buf st), ev, log. rewrite Hcall, Hlog. reflexivity.
Qed.

End SortFacts.

(** * The hex digits *)

Section HexFacts.

Lemma char_codes :
  char_code "0" = 48 /\ char_code "9" = 57 /\ char_code "a" = 97
  /\ char_code "f" = 102 /\ char_code "A" = 65 /\ char_code "F" = 70.
Proof. repeat split; reflexivity. Qed.

Ltac hex_cases ch :=
  unfold hex_to_int;
  destruct char_codes as (-> & -> & -> & -> & -> & ->);
  intros;
  destruct (Z.geb_spec ch 48), (Z.leb_spec ch 57); try lia;
  destruct (Z.geb_spec ch 97), (Z.leb_spec ch 102); try lia;
  destruct (Z.geb_spec ch 65), (Z.leb_spec ch 70); try lia;
  reflexivity.

Lemma hex_to_int_digit (ch : Z) :
  char_code "0" <= ch <= char_code "9" -> hex_to_int ch = ch - char_code "0".
Proof. hex_cases ch. Qed.

Lemma hex_to_int_lower (ch : Z) :
  char_code "a" <= ch <= char_code "f" -> hex_to_int ch = ch - char_code "a" + 10.
Proof. hex_cases ch. Qed.

(** An upper case digit is measured from ['F'], not from ['A']. *)
Lemma hex_to_int_upper (ch : Z) :
  char_code "A" <= ch <= char_code "F" -> hex_to_int ch = ch - char_code "F" + 10.
Proof. hex_cases ch. Qed.

Lemma hex_to_int_other (ch : Z) :
  ~ (char_code "0" <= ch <= char_code "9") ->
  ~ (char_code "a" <= ch <= char_code "f") ->
  ~ (char_code "A" <= ch <= char_code "F") ->
  hex_to_int ch = -1.
Proof. hex_cases ch. Qed.

End HexFacts.

(** * The ring of nodes *)

Section RingFacts.

Context (calloc_ok : nat -> bool).

Lemma ring_no_nodes : ring no_nodes.
Proof.
  constructor; cbn; try reflexivity. intros a Ha. lia.
Qed.

Lemma ring_link_node (s : scan_state) :
  ring s -> ring (link_node (callocs s) s).
Proof.
  intros [Hn Hhead Htail Hlinks Hfresh].
  constructor; cbn [link_node n callocs node_ptr tail heap].
  - lia.
  - reflexivity.
  - rewrite Htail. destruct (callocs s); reflexivity.
  - intros a Ha. rewrite Htail, Hhead.
    destruct (callocs s) as [|c] eqn:Hc.
    + assert (a = 0)%nat as -> by lia.
      rewrite lookup_alter_eq, lookup_insert_eq. reflexivity.
    + destruct (Nat.eq_dec a 0%nat) as [->|Ha0].
      * rewrite lookup_alter_eq, lookup_insert_ne by lia.
        specialize (Hlinks 0%nat ltac:(lia)).
        destruct (heap s !! 0%nat) as [nd|]; [|discriminate]. reflexivity.
      * rewrite lookup_alter_ne by lia.
        destruct (Nat.eq_dec a (S c)) as [->|Hac].
        -- rewrite lookup_insert_eq. reflexivity.
        -- rewrite lookup_insert_ne by lia.
           rewrite Hlinks by lia. destruct a; [lia|reflexivity].
  - intros a Ha. rewrite Htail.
    rewrite lookup_alter_ne by (destruct (callocs s); lia).
    rewrite lookup_insert_ne by lia. apply Hfresh. lia.
Qed.

Lemma ring_bump (s : scan_state) :
  ring s ->
  ring (ScanState (heap s) (callocs s) (node_ptr s) (tail s) (n s) (cur_node_id s + 1)).
Proof. intros [? ? ? ? ?]. constructor; assumption. Qed.

Lemma ring_nibble_loop (count : nat) (i val : Z) (s : scan_state) :
  ring s -> ring_result (nibble_loop calloc_ok count i val s).
Proof.
  revert i s. induction count as [|count IH]; intros i s Hs; [exact Hs|].
  cbn [nibble_loop].
  destruct (negb (Z.land val (Z.shiftl 1 i) =? 0)).
  - destruct (calloc_ok (callocs s)); [|exact Hs].
    apply IH. apply (ring_bump (link_node (callocs s) s)). apply ring_link_node. exact Hs.
  - apply IH. apply ring_bump. exact Hs.
Qed.

Lemma ring_scan_digits (buffer : string) (str ptr : nat) (s : scan_state) :
  ring s -> ring_result (scan_digits calloc_ok buffer str ptr s).
Proof.
  revert s. induction ptr as [|ptr IH]; intros s Hs.
  - cbn [scan_digits]. destruct (_ && _); exact Hs.
  - cbn [scan_digits].
    destruct (_ && _); [|exact Hs].
    destruct (_ =? _); [apply IH; exact Hs|].
    destruct (_ <? _); [exact Hs|].
    pose proof (ring_nibble_loop 4 0 (hex_to_int (char_at buffer (S ptr))) s Hs) as Hr.
    destruct (nibble_loop _ _ _ _ _) as [s'|s']; [apply IH; exact Hr|exact Hr].
Qed.

(** Walking a ring. *)
Lemma follow_none (h : gmap nat stress_node) (k : nat) : follow h k None = None.
Proof. induction k as [|k IH]; [reflexivity|exact IH]. Qed.

Lemma ring_next_mod (c a : nat) :
  (a < c)%nat -> ring_next c a = ((a + (c - 1)) mod c)%nat.
Proof.
  intros Ha. destruct a as [|a]; cbn [ring_next].
  - rewrite Nat.add_0_l, Nat.mod_small by lia. reflexivity.
  - replace (S a + (c - 1))%nat with (a + 1 * c)%nat by lia.
    rewrite Nat.Div0.mod_add, Nat.mod_small by lia. reflexivity.
Qed.

Lemma ring_follow (s : scan_state) (k a : nat) :
  ring s -> (a < callocs s)%nat ->
  follow (heap s) k (Some a) = Some ((a + k * (callocs s - 1)) mod callocs s)%nat.
Proof.
  intros Hs. revert a. induction k as [|k IH]; intros a Ha.
  - cbn [follow]. rewrite Nat.mul_0_l, Nat.add_0_r, Nat.mod_small by lia. reflexivity.
  - cbn [follow mbind option_bind].
    pose proof (ring_links s Hs a Ha) as Hl.
    destruct (heap s !! a) as [nd|]; [|discriminate].
    cbn in Hl. injection Hl as Hl. cbn [mbind option_bind]. rewrite Hl.
    rewrite IH.
    + rewrite ring_next_mod by lia.
      rewrite Nat.Div0.add_mod_idemp_l. f_equal. f_equal. lia.
    + rewrite ring_next_mod by lia. apply Nat.mod_upper_bound. lia.
Qed.

(** Any whole number of turns leads back to the node one started from. *)
Lemma ring_turns (s : scan_state) (m a : nat) :
  ring s -> (a < callocs s)%nat ->
  follow (heap s) (m * callocs s) (Some a) = Some a.
Proof.
  intros Hs Ha. rewrite ring_follow by assumption.
  replace (a + m * callocs s * (callocs s - 1))%nat
    with (a + (m * (callocs s - 1)) * callocs s)%nat by lia.
  rewrite Nat.Div0.mod_add, Nat.mod_small by lia. reflexivity.
Qed.

(** Less than a full turn does not. *)
Lemma ring_no_short_cut (s : scan_state) (k a : nat) :
  ring s -> (a < callocs s)%nat -> (0 < k < callocs s)%nat ->
  follow (heap s) k (Some a) <> Some a.
Proof.
  intros Hs Ha Hk. rewrite ring_follow by assumption. intros [= Heq].
  set (c := callocs s) in *.
  assert (Hmod : ((a + k * (c - 1) + k) mod c = (a + k) mod c)%nat).
  { rewrite <- Nat.Div0.add_mod_idemp_l, Heq. reflexivity. }
  replace (a + k * (c - 1) + k)%nat with (a + k * c)%nat in Hmod by nia.
  rewrite Nat.Div0.mod_add, (Nat.mod_small a) in Hmod by lia.
  destruct (Nat.lt_ge_cases (a + k) c) as [Hlt|Hge].
  - rewrite Nat.mod_small in Hmod by lia. lia.
  - replace (a + k)%nat with ((a + k - c) + 1 * c)%nat in Hmod by lia.
    rewrite Nat.Div0.mod_add, Nat.mod_small in Hmod by lia. lia.
Qed.

(** The state the discovery ends in. *)
Lemma discovery_ring (status : option (list string)) :
  exists s,
    ring s
    /\ nodes (stress_numa_get_mem_nodes calloc_ok status) = node_ptr s
    /\ node_heap (stress_numa_get_mem_nodes calloc_ok status) = heap s
    /\ (numa_nodes (stress_numa_get_mem_nodes calloc_ok status) = n s
        \/ numa_nodes (stress_numa_get_mem_nodes calloc_ok status) = -1).
Proof.
  unfold stress_numa_get_mem_nodes.
  destruct status as [lines|];
    [|exists no_nodes; split; [apply ring_no_nodes|cbn; auto]].
  destruct (find_mems_allowed lines) as [buffer|];
    [|exists no_nodes; split; [apply ring_no_nodes|cbn; auto]].
  cbn zeta.
  pose proof (ring_scan_digits buffer 13 (String.length buffer - 2) no_nodes ring_no_nodes) as Hr.
  destruct (scan_digits _ _ _ _ _) as [s|s]; exists s; cbn; auto.
Qed.

End RingFacts.

(** * The driver's comparators *)

Section Int32Facts.

Lemma cmp_fwd_int32_sign (x y : list byte) :
  (cmp_fwd_int32 x y < 0 <-> int32_of_rec x < int32_of_rec y)
  /\ (0 < cmp_fwd_int32 x y <-> int32_of_rec y < int32_of_rec x).
Proof.
  unfold cmp_fwd_int32.
  destruct (Z.gtb_spec (int32_of_rec x) (int32_of_rec y));
    destruct (Z.ltb_spec (int32_of_rec x) (int32_of_rec y)); lia.
Qed.

Lemma cmp_fwd_int32_strict_weak_order : strict_weak_order cmp_fwd_int32.
Proof.
  constructor; unfold cmp_lt.
  - intros x. pose proof (cmp_fwd_int32_sign x x). lia.
  - intros x y z.
    pose proof (cmp_fwd_int32_sign x y). pose proof (cmp_fwd_int32_sign y z).
    pose proof (cmp_fwd_int32_sign x z). lia.
  - intros x y z.
    pose proof (cmp_fwd_int32_sign x y). pose proof (cmp_fwd_int32_sign y x).
    pose proof (cmp_fwd_int32_sign y z). pose proof (cmp_fwd_int32_sign z y).
    pose proof (cmp_fwd_int32_sign x z). pose proof (cmp_fwd_int32_sign z x). lia.
  - intros x y.
    pose proof (cmp_fwd_int32_sign x y). pose proof (cmp_fwd_int32_sign y x). lia.
Qed.

End Int32Facts.

(** * The merge sort against its specification *)

(** C1: a call of [mergesort_nonlibc] that got its mapping returns 0 and
    leaves the [nmemb] records of the buffer in order: the driver's check
    of every adjacent pair with the same comparator finds no violation.
    This holds for every record count of a [size_t], 0 and 1 included,
    every record width above zero, every strict weak order comparator and
    whatever bytes the scratch mapping and the memory behind the buffer
    hold. *)
Theorem mergesort_nonlibc_orders_buffer
    (compar : comparator) (lhs base : mem) (nmemb size : Z) :
  strict_weak_order compar ->
  0 <= nmemb < SIZE_MODULUS ->
  0 < size ->
  exists bm tr,
    mergesort_nonlibc (Some lhs) base nmemb size compar = Some (0, bm, tr)
    /\ verify_sorted compar (records bm size 0 (Z.to_nat nmemb)) = true.
Proof.
  intros Hswo Hn Hsize.
  destruct (nonlibc_sorted compar lhs base nmemb size Hn Hsize)
    as (bm & tr & Hcall & Hsorted).
  exists bm, tr. split; [exact Hcall|].
  apply verify_sorted_Sorted. apply Hsorted.
  apply strict_weak_order_flips. exact Hswo.
Qed.

Lemma mergesort_nonlibc_orders_buffer_witness :
  strict_weak_order cmp_fwd_int32
  /\ 0 <= 5 < SIZE_MODULUS
  /\ 0 < 4
  /\ exists bm tr,
       mergesort_nonlibc (Some zero_mem) (int32_mem [5; 3; 1; 4; 2]) 5 4
         cmp_fwd_int32 = Some (0, bm, tr)
       /\ verify_sorted cmp_fwd_int32 (records bm 4 0 (Z.to_nat 5)) = true.
Proof.
  split; [exact cmp_fwd_int32_strict_weak_order|].
  split; [unfold SIZE_MODULUS; lia|].
  split; [lia|].
  apply mergesort_nonlibc_orders_buffer.
  - exact cmp_fwd_int32_strict_weak_order.
  - unfold SIZE_MODULUS. lia.
  - lia.
Defined.

(** C2: in every round of the merge loop, on the 4 byte path and on the
    generic path alike, the record stored at the output position is the
    record under the [lhs] pointer exactly when the comparator, applied to
    the record under [lhs] and the record under [rhs], returns a negative
    value, and then [lhs] moves on by one record; in every other case (zero
    or positive, ties included) it is the record under [rhs], and [rhs]
    moves on. *)
Theorem merge_round_takes_left_iff_negative
    (compar : comparator) (size : Z) (sm : mem) (lhs_end rhs_end : Z) (c : cursor) :
  0 < size ->
  let pick (w : Z) :=
    if compar (rec_at sm w (cur_lhs c)) (rec_at sm w (cur_rhs c)) <? 0
    then (rec_at sm w (cur_lhs c), cur_lhs c + w, cur_rhs c)
    else (rec_at sm w (cur_rhs c), cur_lhs c, cur_rhs c + w) in
  let c4 := (merge_round4 compar sm lhs_end rhs_end c).1 in
  let cg := (merge_round compar size sm lhs_end rhs_end c).1 in
  (rec_at (cur_buf c4) 4 (cur_base c), cur_lhs c4, cur_rhs c4) = pick 4
  /\ (rec_at (cur_buf cg) size (cur_base c), cur_lhs cg, cur_rhs cg) = pick size.
Proof.
  intros Hsize pick c4 cg. split.
  - unfold c4, pick. rewrite merge_round4_as_round.
    destruct c as [bm log lhs rhs base]. cbn [merge_round cur_lhs cur_rhs cur_base].
    destruct (compar (rec_at sm 4 lhs) (rec_at sm 4 rhs) <? 0).
    + destruct (lhs + 4 >? lhs_end); cbn [fst cur_buf cur_lhs cur_rhs];
        rewrite rec_at_copy by lia; reflexivity.
    + destruct (rhs + 4 >? rhs_end); cbn [fst cur_buf cur_lhs cur_rhs];
        rewrite rec_at_copy by lia; reflexivity.
  - unfold cg, pick.
    destruct c as [bm log lhs rhs base]. cbn [merge_round cur_lhs cur_rhs cur_base].
    destruct (compar (rec_at sm size lhs) (rec_at sm size rhs) <? 0).
    + destruct (lhs + size >? lhs_end); cbn [fst cur_buf cur_lhs cur_rhs];
        rewrite rec_at_copy by lia; reflexivity.
    + destruct (rhs + size >? rhs_end); cbn [fst cur_buf cur_lhs cur_rhs];
        rewrite rec_at_copy by lia; reflexivity.
Qed.

Lemma merge_round_takes_left_iff_negative_witness :
  0 < 4
  /\ let c := Cursor (int32_mem [7; 7]) [] 0 4 0 in
     let sm := int32_mem [7; 7] in
     let pick (w : Z) :=
       if cmp_fwd_int32 (rec_at sm w (cur_lhs c)) (rec_at sm w (cur_rhs c)) <? 0
       then (rec_at sm w (cur_lhs c), cur_lhs c + w, cur_rhs c)
       else (rec_at sm w (cur_rhs c), cur_lhs c, cur_rhs c + w) in
     let c4 := (merge_round4 cmp_fwd_int32 sm 4 8 c).1 in
     let cg := (merge_round cmp_fwd_int32 4 sm 4 8 c).1 in
     (rec_at (cur_buf c4) 4 (cur_base c), cur_lhs c4, cur_rhs c4) = pick 4
     /\ (rec_at (cur_buf cg) 4 (cur_base c), cur_lhs cg, cur_rhs cg) = pick 4.
Proof.
  split; [lia|].
  apply (merge_round_takes_left_iff_negative cmp_fwd_int32 4 (int32_mem [7; 7]) 4 8
           (Cursor (int32_mem [7; 7]) [] 0 4 0)).
  lia.
Defined.

(** C3: the merge loop does not stay inside its runs.  Sorting the two
    records 1, 2 is one merge of the runs [1] and [2]: their scratch copies
    are the bytes 0..3 and 4..7, the output range the bytes 0..7.  The
    second round applies the comparator with [lhs] at the end of the left
    run, the third with [lhs] and [rhs] both at the end of their runs, and
    the third round stores a record at byte 8, the record behind the
    range: the word 9 that followed the buffer is gone. *)
Theorem merge_leaves_runs_and_range :
  sort_words zero_mem [1; 2; 9] 2 4 cmp_fwd_int32 =
    Some (0, [1; 2; 0],
          [EvCompare 0 4; EvStore 0 4;
           EvCompare 4 4; EvStore 4 4;
           EvCompare 4 8; EvStore 8 4])
  /\ event_in_bounds 4 0 0 1 (EvCompare 4 4) = false
  /\ event_in_bounds 4 0 0 1 (EvCompare 4 8) = false
  /\ event_in_bounds 4 0 0 1 (EvStore 8 4) = false.
Proof. repeat split; vm_compute; reflexivity. Qed.

(** C4: at a record width of 4 bytes the specialised path and the generic
    path agree on every input: [mergesort_partition4] and
    [mergesort_partition] called with [size = 4] return together, and with
    the same bytes in the caller's buffer (and the same scratch bytes and
    trace); so the result of [mergesort_nonlibc] at width 4 is the one the
    generic path would have given. *)
Theorem four_byte_path_matches_generic_path
    (compar : comparator) (fuel : nat) (st : sort_state) (left right : Z)
    (lhs base : mem) (nmemb : Z) :
  mergesort_partition4 fuel compar st left right
    = mergesort_partition fuel compar st left right 4
  /\ mergesort_nonlibc (Some lhs) base nmemb 4 compar
     = (st ← mergesort_partition PARTITION_DEPTH compar (SortState base lhs [])
               0 ((nmemb - 1) mod SIZE_MODULUS) 4;
        Some (0, buf st, trace st)).
Proof.
  split.
  - apply partition4_as_partition.
  - apply nonlibc_as_partition.
Qed.

(** C5: a call with one record, or with none, is not a no-op.  With one
    record: the buffer is the record -5, the word behind it in memory is
    77.  The merge loop runs on the single record: it compares it with the
    bytes behind the 4 byte mapping, stores it back, compares again and
    stores a record at byte 4, behind the buffer: the word 77 is gone.
    With no record, and a mapping in hand, the function still calls the
    comparator and stores into the buffer. *)
Theorem short_sorts_are_not_no_ops :
  sort_words zero_mem [-5; 77] 1 4 cmp_fwd_int32 =
    Some (0, [-5; 0],
          [EvCompare 0 4; EvStore 0 4; EvCompare 4 4; EvStore 4 4])
  /\ forall (compar : comparator) (lhs base : mem) (size : Z),
       0 < size ->
       exists bm ev tr,
         mergesort_nonlibc (Some lhs) base 0 size compar = Some (0, bm, ev :: tr).
Proof.
  split; [vm_compute; reflexivity|].
  intros compar lhs base size Hsize.
  apply nonlibc_no_records_still_merges. exact Hsize.
Qed.



(** C10: the sort loses records.  Sorting 1, 2, 3 over a fresh mapping
    returns 0 and leaves 0, 1, 2 in the buffer: the merge of the first two
    records stores a record behind its range, over the 3.  The 4 byte
    path does so, the generic path run at width 4 does so, and so does the
    generic path on the 8 byte records with the keys 1, 2, 3. *)
Theorem sort_is_not_a_permutation :
  sort_words zero_mem [1; 2; 3] 3 4 cmp_fwd_int32 =
    Some (0, [0; 1; 2],
          [EvCompare 0 4; EvStore 0 4; EvCompare 4 4; EvStore 4 4;
           EvCompare 4 8; EvStore 8 4;
           EvCompare 0 8; EvStore 0 4; EvCompare 0 12; EvStore 4 4;
           EvStore 4 8])
  /\ (fun st => read_int32s (buf st) 3) <$>
       mergesort_partition PARTITION_DEPTH cmp_fwd_int32
         (SortState (int32_mem [1; 2; 3]) zero_mem []) 0 2 4
     = Some [0; 1; 2]
  /\ sort_words zero_mem [1; 0; 2; 0; 3; 0] 3 8 cmp_fwd_key32 =
    Some (0, [0; 0; 1; 0; 2; 0],
          [EvCompare 0 8; EvStore 0 8; EvCompare 8 8; EvStore 8 8;
           EvCompare 8 16; EvStore 16 8;
           EvCompare 0 16; EvStore 0 8; EvCompare 0 24; EvStore 8 8;
           EvStore 8 16])
  /\ ~ Permutation [0; 1; 2] [1; 2; 3].
Proof.
  split; [vm_compute; reflexivity|].
  split; [vm_compute; reflexivity|].
  split; [vm_compute; reflexivity|].
  intros Hperm.
  assert (Hin : In 0 [1; 2; 3]).
  { apply (Permutation_in 0 Hperm). left. reflexivity. }
  cbn in Hin. lia.
Qed.

(** * The NUMA exerciser against its specification *)

Section NumaLoopFacts.

Context (e : round_env).

Lemma move_pages_loop_first_failure (count : nat) :
  forall (j0 j : nat) (log : list failure),
    (j0 <= j < j0 + count)%nat ->
    (forall i, (j0 <= i < j)%nat ->
       fatal (move_pages_r e i) = false /\ continue_1193 e i = true) ->
    fatal (move_pages_r e j) = true ->
    move_pages_loop e count j0 log = (true, FailMovePages :: log).
Proof.
  induction count as [|count IH]; intros j0 j log Hj Hbefore Hfail; [lia|].
  cbn [move_pages_loop]. fold (fatal (move_pages_r e j0)).
  destruct (Nat.eq_dec j0 j) as [->|Hne].
  - rewrite Hfail. reflexivity.
  - destruct (Hbefore j0 ltac:(lia)) as [-> ->]. cbn [negb].
    apply (IH (S j0) j); [lia| |exact Hfail].
    intros i Hi. apply Hbefore. lia.
Qed.

Lemma numa_round_reaches_move_pages (cap_sys_nice : bool) (log : list failure) :
  reaches_move_pages e = true ->
  numa_round cap_sys_nice e log =
  let log :=
    if negb cap_sys_nice && (sys_ret (mbind_nocap_r e) >=? 0)
    then FailMbindNoCapability :: log else log in
  let '(err, log) := move_pages_loop e 16 0 log in
  if err then (GotoErr, log) else (Falls, log).
Proof.
  unfold reaches_move_pages, fatal, mbind_fatal. intros H.
  repeat (apply andb_true_iff in H; destruct H as [H ?]).
  repeat match goal with
         | Hn : negb _ = true |- _ => apply negb_true_iff in Hn
         end.
  unfold numa_round.
  repeat match goal with
         | Hc : _ = _ |- _ => rewrite Hc
         end.
  reflexivity.
Qed.

End NumaLoopFacts.

(** C7, as the code has it: in the main loop of the NUMA exerciser a
    failure of the primary [move_pages] call with an error other than
    [ENOSYS] is logged and is fatal.  The round jumps to [err], the path
    the policy get and bind calls take, no later round runs, and the exit
    status is [EXIT_FAILURE]. *)
Theorem move_pages_failure_ends_the_run
    (cap_sys_nice : bool) (e : round_env) (log : list failure) (j : nat) :
  (j < 16)%nat ->
  reaches_move_pages e = true ->
  first_failure_at e j ->
  exists log',
    numa_round cap_sys_nice e log = (GotoErr, FailMovePages :: log')
    /\ forall envs bogo,
         numa_loop cap_sys_nice (e :: envs) bogo log
         = (EXIT_FAILURE, bogo, FailMovePages :: log').
Proof.
  intros Hj Hreach [Hbefore Hfail].
  pose proof (numa_round_reaches_move_pages e cap_sys_nice log Hreach) as Hround.
  cbn zeta in Hround.
  set (log1 := if negb cap_sys_nice && (sys_ret (mbind_nocap_r e) >=? 0)
               then FailMbindNoCapability :: log else log) in *.
  rewrite (move_pages_loop_first_failure e 16 0 j log1) in Hround;
    [|lia|intros i Hi; apply Hbefore; lia|exact Hfail].
  exists log1. split; [exact Hround|].
  intros envs bogo. cbn [numa_loop]. rewrite Hround. reflexivity.
Qed.

Lemma move_pages_failure_ends_the_run_witness :
  (0 < 16)%nat
  /\ reaches_move_pages busy_round = true
  /\ first_failure_at busy_round 0
  /\ exists log',
       numa_round true busy_round [] = (GotoErr, FailMovePages :: log')
       /\ forall envs bogo,
            numa_loop true (busy_round :: envs) bogo []
            = (EXIT_FAILURE, bogo, FailMovePages :: log').
Proof.
  split; [lia|].
  split; [reflexivity|].
  split; [split; [intros i Hi; lia|reflexivity]|].
  apply (move_pages_failure_ends_the_run true busy_round [] 0).
  - lia.
  - reflexivity.
  - split; [intros i Hi; lia|reflexivity].
Defined.

(** C7, as the spec has it, fails: in a round where every call succeeds
    but the first [move_pages], which fails with [EBUSY], the failure is
    logged and the round jumps to [err]; of two such rounds the second
    never runs, no round is counted, and the exit status is
    [EXIT_FAILURE]. *)
Lemma move_pages_failure_is_not_soft :
  reaches_move_pages busy_round = true
  /\ fatal (move_pages_r busy_round 0) = true
  /\ numa_round true busy_round [] = (GotoErr, [FailMovePages])
  /\ numa_loop true [busy_round; busy_round] 0 []
     = (EXIT_FAILURE, 0%nat, [FailMovePages]).
Proof. repeat split. Qed.

(** C8: [hex_to_int] is wrong on the upper case digits: A to F give 5 to
    10, not 10 to 15.  The mask A names the nodes 1 and 3; the discovery
    makes the nodes 0 and 2 of it. *)
Theorem hex_to_int_upper_case_is_off :
  List.map hex_to_int (List.map char_code ["A"; "B"; "C"; "D"; "E"; "F"]%char)
    = [5; 6; 7; 8; 9; 10]
  /\ List.map hex_to_int (List.map char_code ["a"; "b"; "c"; "d"; "e"; "f"]%char)
    = [10; 11; 12; 13; 14; 15]
  /\ (let d := stress_numa_get_mem_nodes (fun _ => true) (Some status_upper_case_A) in
      (numa_nodes d, walk (node_heap d) 2 (nodes d)) = (2, [2; 0])).
Proof. repeat split; vm_compute; reflexivity. Qed.

(** C9: the node list is a ring.  For the mask of the nodes 0, 3 and 5 the
    discovery returns 3 and makes three nodes, with the ids 5, 3 and 0 from
    the head on; the node after the third is the head again, and 9 steps
    from any of the nodes lead back to it.  For every status file and
    every behaviour of [calloc], a discovery that returns a count above
    zero leaves a head from which [count] steps, and no fewer, lead back
    to the head, and [3 * count] steps from any node lead back to that
    node. *)
Theorem node_list_is_a_ring :
  (let d := stress_numa_get_mem_nodes (fun _ => true) (Some status_nodes_0_3_5) in
   numa_nodes d = 3
   /\ size (node_heap d) = 3%nat
   /\ walk (node_heap d) 3 (nodes d) = [5; 3; 0]
   /\ follow (node_heap d) 3 (nodes d) = nodes d
   /\ forall a, is_Some (node_heap d !! a) ->
        follow (node_heap d) 9 (Some a) = Some a)
  /\ (forall (calloc_ok : nat -> bool) (status : option (list string)),
        let d := stress_numa_get_mem_nodes calloc_ok status in
        let count := Z.to_nat (numa_nodes d) in
        0 < numa_nodes d ->
        is_Some (nodes d)
        /\ follow (node_heap d) count (nodes d) = nodes d
        /\ (forall k, (0 < k < count)%nat ->
              follow (node_heap d) k (nodes d) <> nodes d)
        /\ forall a, is_Some (node_heap d !! a) ->
             follow (node_heap d) (3 * count) (Some a) = Some a).
Proof.
  assert (Hgen : forall (calloc_ok : nat -> bool) (status : option (list string)),
        let d := stress_numa_get_mem_nodes calloc_ok status in
        let count := Z.to_nat (numa_nodes d) in
        0 < numa_nodes d ->
        is_Some (nodes d)
        /\ follow (node_heap d) count (nodes d) = nodes d
        /\ (forall k, (0 < k < count)%nat ->
              follow (node_heap d) k (nodes d) <> nodes d)
        /\ forall a, is_Some (node_heap d !! a) ->
             follow (node_heap d) (3 * count) (Some a) = Some a).
  { intros calloc_ok status d count Hpos.
    destruct (discovery_ring calloc_ok status) as (s & Hs & Hnodes & Hheap & Hret).
    fold d in Hnodes, Hheap, Hret.
    destruct Hret as [Hret|Hret]; [|lia].
    pose proof (ring_count s Hs) as Hn.
    assert (Hcount : count = callocs s) by (unfold count; lia).
    rewrite Hnodes, Hheap, Hcount.
    pose proof (ring_head s Hs) as Hhead.
    destruct (callocs s) as [|c] eqn:Hc; [lia|].
    rewrite Hhead. rewrite <- Hc.
    split; [eexists; reflexivity|].
    split; [rewrite <- (Nat.mul_1_l (callocs s)) at 1; apply ring_turns; [exact Hs|lia]|].
    split; [intros k Hk; apply ring_no_short_cut; [exact Hs|lia|lia]|].
    intros a [nd Ha]. apply ring_turns; [exact Hs|].
    destruct (Nat.lt_ge_cases a (callocs s)) as [Hlt|Hge]; [exact Hlt|].
    rewrite (ring_fresh s Hs a Hge) in Ha. discriminate. }
  split; [|exact Hgen].
  specialize (Hgen (fun _ => true) (Some status_nodes_0_3_5)).
  cbn zeta in Hgen |- *.
  set (d := stress_numa_get_mem_nodes (fun _ => true) (Some status_nodes_0_3_5)) in *.
  assert (Hret : numa_nodes d = 3) by (vm_compute; reflexivity).
  split; [exact Hret|].
  split; [vm_compute; reflexivity|].
  split; [vm_compute; reflexivity|].
  split; [vm_compute; reflexivity|].
  rewrite Hret in Hgen. destruct Hgen as (_ & _ & _ & Hall); [lia|].
  exact Hall.
Qed.

Lemma node_list_is_a_ring_witness :
  let d := stress_numa_get_mem_nodes (fun _ => true) (Some status_nodes_0_3_5) in
  let count := Z.to_nat (numa_nodes d) in
  0 < numa_nodes d
  /\ is_Some (nodes d)
  /\ follow (node_heap d) count (nodes d) = nodes d
  /\ (forall k, (0 < k < count)%nat ->
        follow (node_heap d) k (nodes d) <> nodes d)
  /\ forall a, is_Some (node_heap d !! a) ->
       follow (node_heap d) (3 * count) (Some a) = Some a.
Proof.
  split; [vm_compute; reflexivity|].
  apply (proj2 node_list_is_a_ring (fun _ => true) (Some status_nodes_0_3_5)).
  vm_compute. reflexivity.
Defined.

(** * The reach of one merge *)

Section ReachFacts.

Context (compar : comparator) (size : Z) (Hsize : 0 < size).
Context (sm : mem) (a b : nat) (left : Z).

Let lhs_end : Z := Z.of_nat a * size.
Let rhs_end : Z := (Z.of_nat a + Z.of_nat b) * size.
Let in_reach : event -> Prop :=
  event_reach (left * size) ((left + Z.of_nat a + Z.of_nat b + 1) * size) rhs_end.

(** Every event of a merge is in reach: the comparator sees no pointer
    behind the end of the right run, and no store ends more than one
    record behind the merged range. *)
Lemma merge_loop_reach (fuel : nat) :
  forall (i j : nat) (bm : mem) (log : list event) (c' : cursor),
    (i <= a)%nat -> (j <= b)%nat ->
    merge_loop fuel compar size sm lhs_end rhs_end (cursor_at size a left bm log i j)
      = Some c' ->
    exists new,
      (merge_tail sm lhs_end rhs_end c').2 = new ++ log /\ Forall in_reach new.
Proof.
  induction fuel as [|fuel IH]; intros i j bm log c' Hi Hj; [discriminate|].
  cbn [merge_loop]. unfold cursor_at at 1. cbn [merge_round].
  set (base := (left + Z.of_nat i + Z.of_nat j) * size).
  assert (Hcmp : in_reach (EvCompare (Z.of_nat i * size) ((Z.of_nat a + Z.of_nat j) * size))).
  { unfold in_reach, rhs_end. cbn. nia. }
  assert (Hst : in_reach (EvStore base size)).
  { unfold in_reach, base. cbn. nia. }
  destruct (_ <? 0).
  - destruct (Z.gtb_spec (Z.of_nat i * size + size) lhs_end) as [Hbrk|Hgo].
    + assert (i = a) as -> by (unfold lhs_end in Hbrk; nia).
      intros [= <-]. cbn [merge_tail].
      destruct (Z.gtb_spec (lhs_end - (Z.of_nat a * size + size)) 0) as [Hn|_];
        [unfold lhs_end in Hn; lia|].
      destruct (Z.gtb_spec (rhs_end - (Z.of_nat a + Z.of_nat j) * size) 0) as [Hn|Hn];
        cbn [snd].
      * eexists [_; _; _]. split; [reflexivity|].
        repeat (apply List.Forall_cons;
                [first [assumption
                       |unfold in_reach, base, lhs_end, rhs_end in *; cbn; nia]|]).
        apply List.Forall_nil.
      * eexists [_; _]. split; [reflexivity|].
        repeat (apply List.Forall_cons; [assumption|]). apply List.Forall_nil.
    + assert (i < a)%nat by (unfold lhs_end in Hgo; nia).
      replace (Z.of_nat i * size + size) with (Z.of_nat (S i) * size) by lia.
      replace (base + size) with ((left + Z.of_nat (S i) + Z.of_nat j) * size)
        by (unfold base; lia).
      intros Hloop.
      destruct (IH (S i) j _ _ c' ltac:(lia) Hj Hloop) as (new & Hnew & Hall).
      exists (new ++ [EvStore base size;
                      EvCompare (Z.of_nat i * size) ((Z.of_nat a + Z.of_nat j) * size)]).
      split; [rewrite Hnew, <- app_assoc; reflexivity|].
      apply Forall_app. split; [exact Hall|].
      repeat (apply List.Forall_cons; [assumption|]). apply List.Forall_nil.
  - destruct (Z.gtb_spec ((Z.of_nat a + Z.of_nat j) * size + size) rhs_end) as [Hbrk|Hgo].
    + assert (j = b) as -> by (unfold rhs_end in Hbrk; nia).
      intros [= <-]. cbn [merge_tail].
      destruct (Z.gtb_spec (rhs_end - ((Z.of_nat a + Z.of_nat b) * size + size)) 0)
        as [Hn|_]; [unfold rhs_end in Hn; lia|].
      destruct (Z.gtb_spec (lhs_end - Z.of_nat i * size) 0) as [Hn|Hn]; cbn [snd].
      * eexists [_; _; _]. split; [reflexivity|].
        repeat (apply List.Forall_cons;
                [first [assumption
                       |unfold in_reach, base, lhs_end, rhs_end in *; cbn; nia]|]).
        apply List.Forall_nil.
      * eexists [_; _]. split; [reflexivity|].
        repeat (apply List.Forall_cons; [assumption|]). apply List.Forall_nil.
    + assert (j < b)%nat by (unfold rhs_end in Hgo; nia).
      replace ((Z.of_nat a + Z.of_nat j) * size + size)
        with ((Z.of_nat a + Z.of_nat (S j)) * size) by lia.
      replace (base + size) with ((left + Z.of_nat i + Z.of_nat (S j)) * size)
        by (unfold base; lia).
      intros Hloop.
      destruct (IH i (S j) _ _ c' Hi ltac:(lia) Hloop) as (new & Hnew & Hall).
      exists (new ++ [EvStore base size;
                      EvCompare (Z.of_nat i * size) ((Z.of_nat a + Z.of_nat j) * size)]).
      split; [rewrite Hnew, <- app_assoc; reflexivity|].
      apply Forall_app. split; [exact Hall|].
      repeat (apply List.Forall_cons; [assumption|]). apply List.Forall_nil.
Qed.

End ReachFacts.

(** * The reach of the whole sort *)

Section SortReachFacts.

Context (compar : comparator) (size : Z) (Hsize : 0 < size).

Lemma event_reach_weaken (lo hi span lo' hi' span' : Z) (ev : event) :
  lo' <= lo -> hi <= hi' -> span <= span' ->
  event_reach lo hi span ev -> event_reach lo' hi' span' ev.
Proof. destruct ev; cbn; lia. Qed.

Lemma partition_reach (fuel : nat) :
  forall (st st' : sort_state) (left right : Z),
    left <= right ->
    mergesort_partition fuel compar st left right size = Some st' ->
    exists new,
      trace st' = new ++ trace st
      /\ Forall (event_reach (left * size) ((right + 2) * size)
                   ((right - left + 1) * size)) new.
Proof.
  induction fuel as [|fuel IH]; intros st st' left right Hlr; [discriminate|].
  cbn [mergesort_partition].
  pose proof (half_range left right Hlr) as Hmid. cbn zeta in Hmid.
  set (mid := left + Z.shiftr (right - left) 1) in *.
  destruct (if left <? mid
            then mergesort_partition fuel compar st left mid size
            else Some st) as [st1|] eqn:Hcall1; [|discriminate].
  assert (exists new1,
             trace st1 = new1 ++ trace st
             /\ Forall (event_reach (left * size) ((right + 2) * size)
                          ((right - left + 1) * size)) new1)
    as (new1 & Hnew1 & Hall1).
  { destruct (Z.ltb_spec left mid) as [Hlt|Hge].
    - destruct (IH st st1 left mid ltac:(lia) Hcall1) as (new1 & Hnew1 & Hall1).
      exists new1. split; [exact Hnew1|].
      eapply Forall_impl; [exact Hall1|].
      intros ev. apply event_reach_weaken; nia.
    - injection Hcall1 as <-. exists []. split; [reflexivity|apply List.Forall_nil]. }
  cbn [mbind option_bind].
  destruct (if mid + 1 <? right
            then mergesort_partition fuel compar st1 (mid + 1) right size
            else Some st1) as [st2|] eqn:Hcall2; [|discriminate].
  assert (exists new2,
             trace st2 = new2 ++ trace st1
             /\ Forall (event_reach (left * size) ((right + 2) * size)
                          ((right - left + 1) * size)) new2)
    as (new2 & Hnew2 & Hall2).
  { destruct (Z.ltb_spec (mid + 1) right) as [Hlt|Hge].
    - destruct (IH st1 st2 (mid + 1) right ltac:(lia) Hcall2) as (new2 & Hnew2 & Hall2).
      exists new2. split; [exact Hnew2|].
      eapply Forall_impl; [exact Hall2|].
      intros ev. apply event_reach_weaken; nia.
    - injection Hcall2 as <-. exists []. split; [reflexivity|apply List.Forall_nil]. }
  cbn [mbind option_bind].
  set (a := Z.to_nat (mid - left + 1)).
  set (b := Z.to_nat (right - mid)).
  assert (Ha : mid - left + 1 = Z.of_nat a) by (unfold a; lia).
  assert (Hb : right - mid = Z.of_nat b) by (unfold b; lia).
  rewrite Ha, Hb. unfold IDX. rewrite !Z.add_0_l.
  set (sm := mergesort_copy _ (buf st2) (Z.of_nat a * size) _ _).
  replace (Z.of_nat a * size + Z.of_nat b * size)
    with ((Z.of_nat a + Z.of_nat b) * size) by lia.
  destruct (merge_loop _ _ _ _ _ _ _) as [c|] eqn:Hloop; [|discriminate].
  cbn [mbind option_bind].
  assert (Hloop' :
            merge_loop (Z.to_nat (Z.of_nat a + Z.of_nat b + 2)) compar size sm
              (Z.of_nat a * size) ((Z.of_nat a + Z.of_nat b) * size)
              (cursor_at size a left (buf st2) (trace st2) 0 0) = Some c).
  { rewrite <- Hloop. unfold cursor_at. f_equal. f_equal; lia. }
  destruct (merge_loop_reach compar size Hsize sm a b left _ 0 0 _ _ c
              ltac:(lia) ltac:(lia) Hloop')
    as (new3 & Hnew3 & Hall3).
  destruct (merge_tail sm _ _ c) as [bm' log'] eqn:Htail.
  cbn [snd] in Hnew3. intros [= <-]. cbn [trace].
  exists (new3 ++ new2 ++ new1). split.
  - rewrite Hnew3, Hnew2, Hnew1, <- !app_assoc. reflexivity.
  - rewrite !Forall_app. split; [|split; assumption].
    eapply Forall_impl; [exact Hall3|].
    intros ev. apply event_reach_weaken; nia.
Qed.

End SortReachFacts.

Section SortEffectFacts.

Context (compar : comparator).

(** What a call with at least one record can have touched. *)
Lemma nonlibc_effect (lhs base : mem) (nmemb size : Z) :
  1 <= nmemb < SIZE_MODULUS -> 0 < size ->
  exists bm tr,
    mergesort_nonlibc (Some lhs) base nmemb size compar = Some (0, bm, tr)
    /\ (forall x, x < 0 \/ (nmemb + 1) * size <= x -> bm x = base x)
    /\ Forall (event_reach 0 ((nmemb + 1) * size) (nmemb * size)) tr.
Proof.
  intros Hn Hsize. rewrite nonlibc_as_partition.
  rewrite Z.mod_small by lia.
  destruct (partition_spec compar size Hsize PARTITION_DEPTH
              (SortState base lhs []) 0 (nmemb - 1))
    as (st' & Hcall & _ & Hframe).
  { lia. }
  { unfold PARTITION_DEPTH. change (2 ^ Z.of_nat 64) with SIZE_MODULUS. lia. }
  { unfold PARTITION_DEPTH. lia. }
  destruct (partition_reach compar size Hsize _ _ _ 0 (nmemb - 1) ltac:(lia) Hcall)
    as (new & Hnew & Hall).
  rewrite Hcall. cbn [mbind option_bind].
  exists (buf st'), (trace st'). split; [reflexivity|]. split.
  - intros x Hx. rewrite Hframe by lia. reflexivity.
  - rewrite Hnew. cbn [trace]. rewrite app_nil_r.
    eapply Forall_impl; [exact Hall|].
    intros ev. apply event_reach_weaken; lia.
Qed.

End SortEffectFacts.

(** * The driver's check *)

Section VerifyFacts.

Context (compar : comparator) (wrong : Z -> Z -> bool).
Context (Hwrong : forall x y, compar x y <= 0 -> wrong (int32_of_rec x) (int32_of_rec y) = false).

Lemma verify_loop_sorted (data : mem) (count : nat) :
  forall i,
    Sorted (cmp_le compar) (records data 4 i (S count)) ->
    verify_loop wrong data count i = false.
Proof.
  induction count as [|count IH]; intros i Hsorted; [reflexivity|].
  cbn [verify_loop]. rewrite !records_S in Hsorted.
  apply Sorted_inv in Hsorted as [Hrest Hhd].
  apply HdRel_inv in Hhd. unfold cmp_le in Hhd.
  unfold int32_at.
  replace (4 * i) with (i * 4) by lia.
  replace (4 * (i + 1)) with ((i + 1) * 4) by lia.
  rewrite (Hwrong _ _ Hhd).
  apply IH. rewrite records_S. exact Hrest.
Qed.

End VerifyFacts.

Lemma cmp_rev_int32_sign : descending cmp_rev_int32.
Proof.
  intros x y. unfold cmp_rev_int32.
  destruct (Z.ltb_spec (int32_of_rec x) (int32_of_rec y));
    destruct (Z.gtb_spec (int32_of_rec x) (int32_of_rec y)); lia.
Qed.

Lemma ascending_flips (compar : comparator) : ascending compar -> flips compar.
Proof.
  intros Hasc x y Hxy.
  destruct (Hasc x y) as [H1 H2]. destruct (Hasc y x) as [H3 H4]. lia.
Qed.

Lemma descending_flips (compar : comparator) : descending compar -> flips compar.
Proof.
  intros Hdesc x y Hxy.
  destruct (Hdesc x y) as [H1 H2]. destruct (Hdesc y x) as [H3 H4]. lia.
Qed.

(** * The method table *)

Section MethodFacts.

Lemma find_method_spec (methods : list string) (opt : string) :
  forall i,
    match find_method methods opt i with
    | Some k => (i <= k)%nat /\ methods !! (k - i)%nat = Some opt
    | None => opt ∉ methods
    end.
Proof.
  induction methods as [|name methods IH]; intros i; cbn [find_method].
  - apply not_elem_of_nil.
  - destruct (String.eqb_spec opt name) as [->|Hne].
    + split; [lia|]. rewrite Nat.sub_diag. reflexivity.
    + specialize (IH (S i)).
      destruct (find_method methods opt (S i)) as [k|].
      * destruct IH as [Hk Hlook]. split; [lia|].
        replace (k - i)%nat with (S (k - S i)) by lia. exact Hlook.
      * intros Hin. apply elem_of_cons in Hin as [Heq|Hin]; [congruence|].
        exact (IH Hin).
Qed.

End MethodFacts.

(** * The nodes of a scan *)

Section CensusFacts.

Context (calloc_ok : nat -> bool).

Lemma land_bit (val i : Z) :
  0 <= i -> (Z.land val (Z.shiftl 1 i) =? 0) = negb (Z.testbit val i).
Proof.
  intros Hi. rewrite Z.shiftl_1_l.
  destruct (Z.testbit val i) eqn:Hbit; cbn [negb].
  - apply Z.eqb_neq. intros Hz.
    assert (Hb : Z.testbit (Z.land val (2 ^ i)) i = true).
    { rewrite Z.land_spec, Hbit, Z.pow2_bits_true by lia. reflexivity. }
    rewrite Hz, Z.bits_0 in Hb. discriminate.
  - apply Z.eqb_eq. apply Z.bits_inj_0. intros k.
    rewrite Z.land_spec.
    destruct (Z.eq_dec k i) as [->|Hne].
    + rewrite Hbit. reflexivity.
    + destruct (Z.lt_ge_cases k 0) as [Hneg|Hpos].
      * rewrite (Z.testbit_neg_r _ k) by lia. reflexivity.
      * rewrite Z.pow2_bits_false by lia. apply andb_false_r.
Qed.

Lemma alter_as_insert (h : gmap nat stress_node) (a : nat) (nd : stress_node)
    (f : stress_node -> stress_node) :
  h !! a = Some nd -> alter f a h = <[a := f nd]> h.
Proof.
  intros Ha. apply map_eq. intros k.
  destruct (Nat.eq_dec a k) as [<-|Hne].
  - rewrite lookup_alter_eq, lookup_insert_eq, Ha. reflexivity.
  - rewrite lookup_alter_ne, lookup_insert_ne by assumption. reflexivity.
Qed.

Lemma ids_by_address_S (h : gmap nat stress_node) (c : nat) :
  ids_by_address h (S c) = ids_by_address h c ++ [default 0 (node_id <$> h !! c)].
Proof. unfold ids_by_address. rewrite seq_S, List.map_app. reflexivity. Qed.

Lemma ids_by_address_ext (h h' : gmap nat stress_node) (c : nat) :
  (forall a, (a < c)%nat -> node_id <$> h !! a = node_id <$> h' !! a) ->
  ids_by_address h c = ids_by_address h' c.
Proof.
  intros Hext. unfold ids_by_address. apply map_ext_in. intros a Ha.
  apply in_seq in Ha. rewrite Hext by lia. reflexivity.
Qed.

Lemma link_node_heap (s : scan_state) :
  ring s ->
  forall a,
    node_id <$> heap (link_node (callocs s) s) !! a =
    if decide (a = callocs s) then Some (cur_node_id s) else node_id <$> heap s !! a.
Proof.
  intros Hs a. cbn [link_node heap].
  set (tl := match tail s with Some t => t | None => callocs s end).
  rewrite lookup_alter. 
  destruct (decide (tl = a)) as [<-|Hne].
  - rewrite <- option_fmap_compose.
    destruct (decide (tl = callocs s)) as [->|Hne'].
    + rewrite lookup_insert_eq. reflexivity.
    + rewrite lookup_insert_ne by congruence.
      destruct (heap s !! tl); reflexivity.
  - destruct (decide (a = callocs s)) as [->|Hne'].
    + rewrite lookup_insert_eq. reflexivity.
    + rewrite lookup_insert_ne by congruence. reflexivity.
Qed.

Lemma link_node_ids (s : scan_state) :
  ring s ->
  ids_by_address (heap (link_node (callocs s) s)) (S (callocs s))
  = ids_by_address (heap s) (callocs s) ++ [cur_node_id s].
Proof.
  intros Hs. rewrite ids_by_address_S. f_equal.
  - apply ids_by_address_ext. intros a Ha.
    rewrite link_node_heap by exact Hs.
    destruct (decide (a = callocs s)); [lia|reflexivity].
  - rewrite link_node_heap by exact Hs.
    destruct (decide (callocs s = callocs s)); [reflexivity|congruence].
Qed.

Lemma link_node_size (s : scan_state) :
  ring s -> size (heap s) = callocs s ->
  size (heap (link_node (callocs s) s)) = S (callocs s).
Proof.
  intros Hs Hsize. cbn [link_node heap].
  set (tl := match tail s with Some t => t | None => callocs s end).
  set (h1 := <[callocs s := StressNode (node_ptr s) (cur_node_id s)]> (heap s)).
  assert (Hsz1 : size h1 = S (callocs s)).
  { unfold h1. rewrite map_size_insert_None; [lia|].
    apply (ring_fresh s Hs). lia. }
  assert (Htl : is_Some (h1 !! tl)).
  { unfold tl, h1. rewrite (ring_tail s Hs).
    destruct (callocs s) as [|c] eqn:Hc.
    - rewrite lookup_insert_eq. eauto.
    - rewrite lookup_insert_ne by lia.
      pose proof (ring_links s Hs 0%nat ltac:(lia)) as Hl.
      destruct (heap s !! 0%nat); [eauto|discriminate]. }
  destruct Htl as [nd Htl].
  rewrite (alter_as_insert h1 tl nd _ Htl).
  rewrite map_size_insert_Some by eauto. exact Hsz1.
Qed.

(** The ids of the set bits from bit [i] on, [count] bits, the first of
    them for the node [base]. *)
Let bits (val i : Z) (count : nat) (base : Z) : list Z :=
  List.map (fun k => base + (k - i))
    (List.filter (Z.testbit val) (List.map (fun n => i + Z.of_nat n) (seq 0 count))).

Lemma bits_S (val i : Z) (count : nat) (base : Z) :
  bits val i (S count) base
  = (if Z.testbit val i then [base] else []) ++ bits val (i + 1) count (base + 1).
Proof.
  unfold bits. cbn [seq]. rewrite <- seq_shift.
  cbn [List.map List.filter]. rewrite List.map_map.
  replace (i + Z.of_nat 0) with i by lia.
  assert (Hrest :
            List.map (fun k => base + (k - i))
              (List.filter (Z.testbit val)
                 (List.map (fun n => i + Z.of_nat (S n)) (seq 0 count)))
            = List.map (fun k => base + 1 + (k - (i + 1)))
                (List.filter (Z.testbit val)
                   (List.map (fun n => i + 1 + Z.of_nat n) (seq 0 count)))).
  { rewrite (map_ext (fun n => i + Z.of_nat (S n)) (fun n => i + 1 + Z.of_nat n))
      by (intros; lia).
    apply map_ext. intros k. lia. }
  destruct (Z.testbit val i); cbn [List.map app]; rewrite Hrest;
    [f_equal; lia|reflexivity].
Qed.

Lemma bits_nibble (val base : Z) : bits val 0 4 base = nibble_ids val base.
Proof.
  unfold bits, nibble_ids. cbn [seq List.map]. cbn [Z.of_nat Pos.of_succ_nat Pos.succ Z.add].
  apply map_ext. intros k. lia.
Qed.

Lemma nibble_loop_census (val : Z) (count : nat) :
  forall (i : Z) (s : scan_state),
    0 <= i -> ring s -> size (heap s) = callocs s ->
    match nibble_loop calloc_ok count i val s with
    | ScanOk s' =>
        ids_by_address (heap s') (callocs s')
        = ids_by_address (heap s) (callocs s) ++ bits val i count (cur_node_id s)
        /\ cur_node_id s' = cur_node_id s + Z.of_nat count
        /\ size (heap s') = callocs s'
    | ScanFail s' =>
        size (heap s') = callocs s' /\ exists k, calloc_ok k = false
    end.
Proof.
  induction count as [|count IH]; intros i s Hi Hs Hsize.
  - cbn [nibble_loop]. unfold bits. cbn. rewrite app_nil_r. repeat split; lia.
  - cbn [nibble_loop]. rewrite land_bit by lia. rewrite bits_S.
    destruct (Z.testbit val i); cbn [negb].
    + destruct (calloc_ok (callocs s)) eqn:Hok; [|split; [exact Hsize|eauto]].
      set (s1 := ScanState _ _ _ _ _ _).
      assert (Hs1 : ring s1).
      { apply (ring_bump (link_node (callocs s) s)). apply ring_link_node. exact Hs. }
      assert (Hsize1 : size (heap s1) = callocs s1).
      { unfold s1. cbn [heap callocs]. apply link_node_size; assumption. }
      specialize (IH (i + 1) s1 ltac:(lia) Hs1 Hsize1).
      destruct (nibble_loop calloc_ok count (i + 1) val s1) as [s'|s']; [|exact IH].
      destruct IH as (Hids & Hcur & Hsz). split; [|split; [|exact Hsz]].
      * rewrite Hids. unfold s1 at 1 2. cbn [heap callocs link_node].
        change (alter _ _ _) with (heap (link_node (callocs s) s)).
        rewrite (link_node_ids s Hs), <- app_assoc. reflexivity.
      * rewrite Hcur. unfold s1. cbn [cur_node_id link_node]. lia.
    + set (s1 := ScanState _ _ _ _ _ _).
      assert (Hs1 : ring s1) by (apply ring_bump; exact Hs).
      specialize (IH (i + 1) s1 ltac:(lia) Hs1 Hsize).
      destruct (nibble_loop calloc_ok count (i + 1) val s1) as [s'|s']; [|exact IH].
      destruct IH as (Hids & Hcur & Hsz). split; [|split; [|exact Hsz]].
      * rewrite Hids. reflexivity.
      * rewrite Hcur. unfold s1. cbn [cur_node_id]. lia.
Qed.

Context (buffer : string) (str : nat).

Lemma scan_digits_census (ptr : nat) :
  forall (s : scan_state),
    ring s -> size (heap s) = callocs s ->
    let chars := scanned_chars buffer str ptr in
    match scan_digits calloc_ok buffer str ptr s with
    | ScanOk s' =>
        ids_by_address (heap s') (callocs s')
        = ids_by_address (heap s) (callocs s) ++ ids_of_chars chars (cur_node_id s)
        /\ cur_node_id s' = cur_node_id s + 4 * digit_count chars
        /\ size (heap s') = callocs s'
        /\ Forall mask_char chars
    | ScanFail s' =>
        size (heap s') = callocs s'
        /\ ((forall k, calloc_ok k = true) -> ~ Forall mask_char chars)
    end.
Proof.
  induction ptr as [|ptr IH]; intros s Hs Hsize; cbn zeta.
  - cbn [scan_digits scanned_chars].
    destruct (_ && _); cbn [ids_of_chars]; rewrite app_nil_r;
      (split; [reflexivity|split; [unfold digit_count; cbn; lia|split; [exact Hsize|constructor]]]).
  - cbn [scan_digits scanned_chars].
    destruct (_ && _).
    2:{ cbn [ids_of_chars]. rewrite app_nil_r.
        split; [reflexivity|split; [unfold digit_count; cbn; lia|split; [exact Hsize|constructor]]]. }
    set (ch := char_at buffer (S ptr)).
    cbn [ids_of_chars]. unfold digit_count. cbn [List.filter].
    destruct (Z.eqb_spec ch (char_code ",")) as [Hcomma|Hdigit]; cbn [negb].
    + specialize (IH s Hs Hsize). cbn zeta in IH.
      destruct (scan_digits calloc_ok buffer str ptr s) as [s'|s'].
      * destruct IH as (Hids & Hcur & Hsz & Hall).
        split; [exact Hids|split; [exact Hcur|split; [exact Hsz|]]].
        constructor; [left; exact Hcomma|exact Hall].
      * destruct IH as (Hsz & Hbad). split; [exact Hsz|].
        intros Hok Hall. apply (Hbad Hok). inversion Hall; assumption.
    + destruct (Z.ltb_spec (hex_to_int ch) 0) as [Hneg|Hpos].
      * split; [exact Hsize|]. intros _ Hall. inversion Hall as [|? ? Hch _]; subst.
        destruct Hch as [Hch|Hch]; [contradiction|lia].
      * pose proof (nibble_loop_census (hex_to_int ch) 4 0 s ltac:(lia) Hs Hsize) as Hnib.
        pose proof (ring_nibble_loop calloc_ok 4 0 (hex_to_int ch) s Hs) as Hring.
        destruct (nibble_loop calloc_ok 4 0 (hex_to_int ch) s) as [s1|s1].
        -- destruct Hnib as (Hids1 & Hcur1 & Hsz1). cbn [ring_result] in Hring.
           specialize (IH s1 Hring Hsz1). cbn zeta in IH.
           destruct (scan_digits calloc_ok buffer str ptr s1) as [s'|s'].
           ++ destruct IH as (Hids & Hcur & Hsz & Hall).
              split; [|split; [|split; [exact Hsz|]]].
              ** rewrite Hids, Hids1, bits_nibble, Hcur1, <- app_assoc. reflexivity.
              ** rewrite Hcur, Hcur1. unfold digit_count. cbn [length]. lia.
              ** constructor; [right; exact Hpos|exact Hall].
           ++ destruct IH as (Hsz & Hbad). split; [exact Hsz|].
              intros Hok Hall. apply (Hbad Hok). inversion Hall; assumption.
        -- destruct Hnib as (Hsz1 & k & Hk). split; [exact Hsz1|].
           intros Hok. rewrite Hok in Hk. discriminate.
Qed.

End CensusFacts.

(** * The ids a mask stands for *)

Section MaskFacts.

Lemma nibble_ids_sorted (val base : Z) :
  (forall id, id ∈ nibble_ids val base -> base <= id < base + 4)
  /\ StronglySorted Z.lt (nibble_ids val base).
Proof.
  unfold nibble_ids. cbn [List.filter].
  destruct (Z.testbit val 0), (Z.testbit val 1), (Z.testbit val 2), (Z.testbit val 3);
    cbn [List.map]; (split;
      [intros id Hin; rewrite ?elem_of_cons, ?elem_of_nil in Hin; lia
      |repeat (constructor; [|repeat (constructor; try lia)])]; try constructor).
Qed.

Lemma digit_count_cons (ch : Z) (chars : list Z) :
  digit_count (ch :: chars)
  = (if ch =? char_code "," then 0 else 1) + digit_count chars.
Proof.
  unfold digit_count. cbn [List.filter].
  destruct (ch =? char_code ","); cbn [negb length]; lia.
Qed.

Lemma digit_count_nonneg (chars : list Z) : 0 <= digit_count chars.
Proof. unfold digit_count. lia. Qed.

Lemma ids_of_chars_sorted (chars : list Z) :
  forall base,
    (forall id, id ∈ ids_of_chars chars base ->
                base <= id < base + 4 * digit_count chars)
    /\ StronglySorted Z.lt (ids_of_chars chars base).
Proof.
  induction chars as [|ch chars IH]; intros base.
  - split; [intros id Hin; apply elem_of_nil in Hin; contradiction|constructor].
  - cbn [ids_of_chars]. rewrite digit_count_cons.
    pose proof (digit_count_nonneg chars) as Hnn.
    destruct (ch =? char_code ",").
    + destruct (IH base) as [Hin Hsorted]. split; [|exact Hsorted].
      intros id Hid. specialize (Hin id Hid). lia.
    + destruct (IH (base + 4)) as [Hin Hsorted].
      destruct (nibble_ids_sorted (hex_to_int ch) base) as [Hnin Hnsorted].
      split.
      * intros id [Hid|Hid]%elem_of_app.
        -- specialize (Hnin id Hid). lia.
        -- specialize (Hin id Hid). lia.
      * apply StronglySorted_app_2; [|exact Hnsorted|exact Hsorted].
        intros x1 x2 H1 H2. specialize (Hnin x1 H1). specialize (Hin x2 H2). lia.
Qed.

Lemma digit_count_rev (chars : list Z) : digit_count (rev chars) = digit_count chars.
Proof.
  unfold digit_count. f_equal.
  induction chars as [|ch chars IH]; [reflexivity|].
  cbn [rev]. rewrite List.filter_app, length_app, IH. cbn [List.filter].
  destruct (negb (ch =? char_code ",")); cbn [length]; lia.
Qed.

(** The line as the scan sees it. *)
Lemma char_at_codes (buffer : string) :
  forall p, char_at buffer p = nth p (codes buffer) 0.
Proof.
  unfold char_at, codes.
  induction buffer as [|c buffer IH]; intros p; destruct p as [|p];
    cbn [String.get list_ascii_of_string List.map nth]; try reflexivity.
  apply IH.
Qed.

Lemma codes_app (s1 s2 : string) : codes (s1 ++ s2) = codes s1 ++ codes s2.
Proof.
  unfold codes. induction s1 as [|c s1 IH]; [reflexivity|].
  simpl. f_equal. exact IH.
Qed.

Lemma codes_length (s : string) : length (codes s) = String.length s.
Proof.
  unfold codes. rewrite length_map.
  induction s as [|c s IH]; [reflexivity|]. cbn. f_equal. exact IH.
Qed.

Lemma scanned_chars_body (buffer : string) (str : nat) (pre : list Z) :
  forall body post,
    codes buffer = pre ++ body ++ post ->
    length pre = S str ->
    char_code " " ∉ body ->
    scanned_chars buffer str (str + length body) = rev body.
Proof.
  intros body. induction body as [|x body IH] using rev_ind; intros post Hcodes Hpre Hsp.
  - cbn [length]. rewrite Nat.add_0_r.
    destruct str as [|str]; cbn [scanned_chars].
    + rewrite andb_false_r. reflexivity.
    + rewrite Nat.ltb_irrefl, andb_false_r. reflexivity.
  - rewrite length_app. cbn [length].
    replace (str + (length body + 1))%nat with (S (str + length body)) by lia.
    cbn [scanned_chars].
    assert (Hx : char_at buffer (S (str + length body)) = x).
    { rewrite char_at_codes, Hcodes.
      rewrite app_nth2 by lia. rewrite <- app_assoc.
      rewrite app_nth2 by lia.
      replace (S (str + length body) - length pre - length body)%nat with 0%nat by lia.
      reflexivity. }
    rewrite Hx.
    assert (Hne : x <> char_code " ").
    { intros ->. apply Hsp. apply elem_of_app. right. apply list_elem_of_singleton. reflexivity. }
    destruct (Z.eqb_spec x (char_code " ")) as [|_]; [contradiction|].
    destruct (Nat.ltb_spec str (S (str + length body))) as [_|]; [|lia].
    cbn [negb andb]. rewrite rev_app_distr. cbn [rev app]. f_equal.
    apply (IH ([x] ++ post)); [|exact Hpre|].
    + rewrite Hcodes, <- app_assoc. reflexivity.
    + intros Hin. apply Hsp. apply elem_of_app. left. exact Hin.
Qed.

Lemma scanned_chars_line (body : string) :
  char_code " " ∉ codes body ->
  scanned_chars (mems_allowed_line body) 13
    (String.length (mems_allowed_line body) - 2) = rev (codes body).
Proof.
  intros Hsp.
  assert (Hcodes : codes (mems_allowed_line body)
                   = (codes "Mems_allowed:" ++ [9]) ++ codes body ++ [10]).
  { unfold mems_allowed_line. rewrite codes_app.
    change (String (ascii_of_nat 9) body ++ String (ascii_of_nat 10) "")%string
      with (String (ascii_of_nat 9) (body ++ String (ascii_of_nat 10) ""))%string.
    change (codes (String (ascii_of_nat 9) (body ++ String (ascii_of_nat 10) "")%string))
      with (9 :: codes (body ++ String (ascii_of_nat 10) "")%string).
    rewrite codes_app, <- app_assoc. reflexivity. }
  assert (Hlen : (String.length (mems_allowed_line body) - 2 = 13 + length (codes body))%nat).
  { rewrite <- codes_length, Hcodes, !length_app. cbn [length]. 
    change (length (codes "Mems_allowed:")) with 13%nat. lia. }
  rewrite Hlen.
  apply (scanned_chars_body _ 13 (codes "Mems_allowed:" ++ [9]) _ [10]);
    [exact Hcodes|reflexivity|exact Hsp].
Qed.

End MaskFacts.

(** * The discovery as a whole *)

Section DiscoveryFacts.

Context (calloc_ok : nat -> bool).

(** Whatever way the discovery ends, the nodes it made form the ring and
    are all on the heap. *)
Lemma discovery_census (status : option (list string)) :
  let d := stress_numa_get_mem_nodes calloc_ok status in
  exists s,
    ring s /\ size (heap s) = callocs s
    /\ nodes d = node_ptr s /\ node_heap d = heap s
    /\ (numa_nodes d = -1 \/ numa_nodes d = Z.of_nat (callocs s)).
Proof.
  cbn zeta. unfold stress_numa_get_mem_nodes.
  assert (Hnone : exists s,
             ring s /\ size (heap s) = callocs s
             /\ nodes (discovered (-1) None no_nodes) = node_ptr s
             /\ node_heap (discovered (-1) None no_nodes) = heap s
             /\ (numa_nodes (discovered (-1) None no_nodes) = -1
                 \/ numa_nodes (discovered (-1) None no_nodes) = Z.of_nat (callocs s))).
  { exists no_nodes. split; [apply ring_no_nodes|]. cbn. auto. }
  destruct status as [lines|]; [|exact Hnone].
  destruct (find_mems_allowed lines) as [buffer|]; [|exact Hnone].
  cbn zeta.
  pose proof (ring_scan_digits calloc_ok buffer 13 (String.length buffer - 2)
                no_nodes ring_no_nodes) as Hring.
  pose proof (scan_digits_census calloc_ok buffer 13 (String.length buffer - 2)
                no_nodes ring_no_nodes eq_refl) as Hcensus.
  cbn zeta in Hcensus.
  destruct (scan_digits _ _ _ _ _) as [s|s]; exists s; cbn [ring_result] in Hring.
  - destruct Hcensus as (_ & _ & Hsz & _).
    split; [exact Hring|]. split; [exact Hsz|]. cbn.
    split; [reflexivity|]. split; [reflexivity|]. right. apply (ring_count s Hring).
  - destruct Hcensus as (Hsz & _).
    split; [exact Hring|]. split; [exact Hsz|]. cbn. auto.
Qed.

(** A discovery that wrote [*max_nodes] went through the whole scan. *)
Lemma discovery_success (status : option (list string)) (mx : Z) :
  max_nodes (stress_numa_get_mem_nodes calloc_ok status) = Some mx ->
  exists lines buffer s,
    status = Some lines
    /\ find_mems_allowed lines = Some buffer
    /\ scan_digits calloc_ok buffer 13 (String.length buffer - 2) no_nodes = ScanOk s
    /\ stress_numa_get_mem_nodes calloc_ok status
       = discovered (n s) (Some (cur_node_id s)) s
    /\ mx = cur_node_id s.
Proof.
  unfold stress_numa_get_mem_nodes.
  destruct status as [lines|]; [|discriminate].
  destruct (find_mems_allowed lines) as [buffer|] eqn:Hfind; [|discriminate].
  cbn zeta.
  destruct (scan_digits _ _ _ _ _) as [s|s] eqn:Hscan; [|discriminate].
  cbn. intros [= <-]. exists lines, buffer, s. auto.
Qed.

End DiscoveryFacts.

(** * Walking and freeing the ring *)

Section WalkFacts.

Context (s : scan_state) (Hs : ring s).

Lemma ring_node (a : nat) :
  (a < callocs s)%nat ->
  exists nd, heap s !! a = Some nd /\ next nd = Some (ring_next (callocs s) a).
Proof.
  intros Ha. pose proof (ring_links s Hs a Ha) as Hl.
  destruct (heap s !! a) as [nd|]; [|discriminate].
  exists nd. split; [reflexivity|]. cbn in Hl. congruence.
Qed.

Lemma ring_walk (k : nat) :
  (k <= callocs s)%nat ->
  walk (heap s) k (match k with O => None | S a => Some a end)
  = rev (ids_by_address (heap s) k).
Proof.
  induction k as [|k IH]; intros Hk; [reflexivity|].
  destruct (ring_node k ltac:(lia)) as (nd & Hnd & Hnext).
  cbn [walk mbind option_bind]. rewrite Hnd.
  rewrite ids_by_address_S, rev_app_distr, Hnd. cbn [rev app fmap option_fmap option_map default].
  f_equal. rewrite Hnext, <- IH by lia.
  destruct k; reflexivity.
Qed.

Lemma ring_descend (k : nat) :
  forall x, (x < callocs s)%nat -> (k <= x)%nat ->
            follow (heap s) k (Some x) = Some (x - k)%nat.
Proof.
  induction k as [|k IH]; intros x Hx Hk.
  - cbn [follow]. f_equal. lia.
  - destruct (ring_node x Hx) as (nd & Hnd & Hnext).
    cbn [follow mbind option_bind]. rewrite Hnd. cbn [mbind option_bind].
    rewrite Hnext. destruct x as [|x]; [lia|]. cbn [ring_next].
    rewrite IH by lia. f_equal.
Qed.

Lemma free_loop_ring (fuel : nat) :
  forall (a : nat) (h : gmap nat stress_node),
    (a < callocs s)%nat -> (a < fuel)%nat ->
    (forall x, h !! x = if decide (x <= a)%nat then heap s !! x else None) ->
    free_loop fuel h (node_ptr s) (Some a) = Freed ∅.
Proof.
  induction fuel as [|fuel IH]; intros a h Ha Hfuel Hh; [lia|].
  destruct (ring_node a Ha) as (nd & Hnd & Hnext).
  cbn [free_loop]. rewrite Hh.
  destruct (decide (a <= a)%nat) as [_|]; [|lia].
  rewrite Hnd, Hnext.
  pose proof (ring_head s Hs) as Hhead.
  destruct (callocs s) as [|c] eqn:Hc; [lia|].
  destruct (decide (Some (ring_next (S c) a) = node_ptr s)) as [Heq|Hne].
  - rewrite Hhead in Heq. injection Heq as Heq.
    destruct a as [|a]; [|cbn [ring_next] in Heq; lia].
    f_equal. apply map_eq. intros x. rewrite lookup_empty.
    destruct (Nat.eq_dec x 0%nat) as [->|Hx].
    + apply lookup_delete_eq.
    + rewrite lookup_delete_ne by lia. rewrite Hh.
      destruct (decide (x <= 0)%nat); [lia|reflexivity].
  - destruct a as [|a].
    + exfalso. apply Hne. rewrite Hhead. cbn [ring_next]. f_equal. lia.
    + cbn [ring_next]. apply IH; [lia|lia|].
      intros x. destruct (Nat.eq_dec x (S a)) as [->|Hx].
      * rewrite lookup_delete_eq. destruct (decide (S a <= a)%nat); [lia|reflexivity].
      * rewrite lookup_delete_ne by lia. rewrite Hh.
        destruct (decide (x <= S a)%nat), (decide (x <= a)%nat); try lia; reflexivity.
Qed.

Lemma free_nodes_ring :
  size (heap s) = callocs s ->
  stress_numa_free_nodes (heap s) (node_ptr s) = Freed ∅.
Proof.
  intros Hsize. unfold stress_numa_free_nodes.
  destruct (callocs s) as [|c] eqn:Hc.
  - rewrite (ring_head s Hs), Hc. cbn [free_loop]. f_equal.
    apply map_size_empty_inv. exact Hsize.
  - pose proof (ring_head s Hs) as Hhead. rewrite Hc in Hhead.
    rewrite Hhead at 2. rewrite Hsize.
    apply free_loop_ring; [lia|lia|].
    intros x. destruct (decide (x <= c)%nat) as [_|Hgt]; [reflexivity|].
    apply (ring_fresh s Hs). lia.
Qed.

End WalkFacts.

(** * The size of the region *)

Section RegionFacts.

Lemma align_down (x : Z) (k : Z) :
  0 <= k -> Z.land x (Z.lnot (2 ^ k - 1)) = x - x mod 2 ^ k.
Proof.
  intros Hk.
  replace (2 ^ k - 1) with (Z.ones k) by (rewrite Z.ones_equiv; lia).
  rewrite <- Z.ldiff_land, Z.ldiff_ones_r by lia.
  rewrite Z.shiftr_div_pow2, Z.shiftl_mul_pow2 by lia.
  pose proof (Z.div_mod x (2 ^ k) ltac:(lia)). lia.
Qed.

End RegionFacts.

(** * The failures a run logs *)

Section LogFacts.

Context (cap_sys_nice : bool).

Lemma move_pages_loop_log (e : round_env) (count : nat) :
  forall j log,
    match move_pages_loop e count j log with
    | (true, log') => log' = FailMovePages :: log
    | (false, log') => log' = log
    end.
Proof.
  induction count as [|count IH]; intros j log; cbn [move_pages_loop]; [reflexivity|].
  destruct (_ && _); [reflexivity|].
  destruct (negb _); [reflexivity|]. apply IH.
Qed.

(** A round that jumps to [err] has just logged a fatal failure; any other
    round has logged nothing, or the success of [mbind] without the
    capability. *)
Lemma numa_round_log (e : round_env) (log : list failure) :
  match numa_round cap_sys_nice e log with
  | (GotoErr, log') =>
      exists f rest, log' = f :: rest /\ f <> FailMbindNoCapability
                     /\ (rest = log \/ rest = FailMbindNoCapability :: log)
  | (_, log') =>
      log' = log
      \/ (cap_sys_nice = false /\ 0 <= sys_ret (mbind_nocap_r e)
          /\ log' = FailMbindNoCapability :: log)
  end.
Proof.
  unfold numa_round.
  destruct (_ && _); [eexists _, _; split; [reflexivity|split; [discriminate|auto]]|].
  destruct (negb (continue_918 e)); [auto|].
  destruct (_ && _); [eexists _, _; split; [reflexivity|split; [discriminate|auto]]|].
  destruct (negb (continue_931 e)); [auto|].
  destruct (_ && _); [eexists _, _; split; [reflexivity|split; [discriminate|auto]]|].
  destruct (negb (continue_1039 e)); [auto|].
  destruct (_ && _); [eexists _, _; split; [reflexivity|split; [discriminate|auto]]|].
  destruct (negb (continue_1072 e)); [auto|].
  set (log1 := if negb cap_sys_nice && (sys_ret (mbind_nocap_r e) >=? 0)
               then FailMbindNoCapability :: log else log).
  assert (Hlog1 : log1 = log
                  \/ (cap_sys_nice = false /\ 0 <= sys_ret (mbind_nocap_r e)
                      /\ log1 = FailMbindNoCapability :: log)).
  { unfold log1. destruct cap_sys_nice; cbn [negb andb]; [auto|].
    destruct (Z.geb_spec (sys_ret (mbind_nocap_r e)) 0); [right; auto|auto]. }
  destruct (negb (continue_1138 e)); [exact Hlog1|].
  pose proof (move_pages_loop_log e 16 0 log1) as Hmove.
  destruct (move_pages_loop e 16 0 log1) as [[|] log2]; subst log2.
  - eexists _, _. split; [reflexivity|]. split; [discriminate|].
    destruct Hlog1 as [->|(_ & _ & ->)]; auto.
  - exact Hlog1.
Qed.

Lemma numa_loop_log (envs : list round_env) :
  forall bogo log,
    Forall (eq FailMbindNoCapability) log ->
    match numa_loop cap_sys_nice envs bogo log with
    | (rc, bogo', log') =>
        (bogo <= bogo' <= bogo + length envs)%nat
        /\ ((rc = EXIT_SUCCESS /\ Forall (eq FailMbindNoCapability) log'
             /\ (cap_sys_nice = true -> log' = log))
            \/ (rc = EXIT_FAILURE
                /\ exists f rest, log' = f :: rest /\ f <> FailMbindNoCapability))
    end.
Proof.
  induction envs as [|e envs IH]; intros bogo log Hlog; cbn [numa_loop length].
  - split; [lia|]. left. auto.
  - pose proof (numa_round_log e log) as Hround.
    destruct (numa_round cap_sys_nice e log) as [[| |] log1].
    + assert (Hlog1 : Forall (eq FailMbindNoCapability) log1
                      /\ (cap_sys_nice = true -> log1 = log)).
      { destruct Hround as [->|(Hcap & _ & ->)]; [auto|].
        split; [constructor; [reflexivity|exact Hlog]|congruence]. }
      destruct Hlog1 as [Hall1 Hcap1].
      destruct (stress_continue e).
      * specialize (IH (S bogo) log1 Hall1).
        destruct (numa_loop cap_sys_nice envs (S bogo) log1) as [[rc bogo'] log'].
        destruct IH as [Hb IH]. split; [lia|].
        destruct IH as [(Hrc & Hall & Hcap)|Hfail]; [left|right; exact Hfail].
        split; [exact Hrc|]. split; [exact Hall|].
        intros Hc. rewrite (Hcap Hc). apply Hcap1. exact Hc.
      * split; [lia|]. left. auto.
    + split; [lia|]. left. split; [reflexivity|].
      destruct Hround as [->|(Hcap & _ & ->)]; [auto|].
      split; [constructor; [reflexivity|exact Hlog]|congruence].
    + split; [lia|]. right. split; [reflexivity|].
      destruct Hround as (f & rest & -> & Hf & _). eauto.
Qed.

End LogFacts.

Section UnsupportedFacts.

Context (cap_sys_nice : bool) (e : round_env) (He : unsupported e).

Lemma move_pages_loop_unsupported (count : nat) :
  forall j log, move_pages_loop e count j log = (false, log).
Proof.
  destruct He as (_ & _ & _ & _ & _ & Hmove).
  induction count as [|count IH]; intros j log; cbn [move_pages_loop]; [reflexivity|].
  rewrite Hmove, Z.eqb_refl. cbn [negb]. rewrite andb_false_r.
  destruct (negb _); [reflexivity|]. apply IH.
Qed.

Lemma numa_round_unsupported (log : list failure) :
  exists fl, numa_round cap_sys_nice e log = (fl, log) /\ fl <> GotoErr.
Proof.
  pose proof move_pages_loop_unsupported as Hloop.
  destruct He as (Hget & Hset & Hstrict & Hdefault & Hnocap & Hmove).
  unfold numa_round.
  rewrite Hget, Hset, Hstrict, Hdefault, Z.eqb_refl. cbn [negb].
  rewrite !andb_false_r.
  destruct (Z.geb_spec (sys_ret (mbind_nocap_r e)) 0) as [|_]; [lia|].
  rewrite andb_false_r, Hloop.
  destruct (negb (continue_918 e)); [exists Breaks; split; [reflexivity|discriminate]|].
  destruct (negb (continue_931 e)); [exists Breaks; split; [reflexivity|discriminate]|].
  destruct (negb (continue_1039 e)); [exists Breaks; split; [reflexivity|discriminate]|].
  destruct (negb (continue_1072 e)); [exists Breaks; split; [reflexivity|discriminate]|].
  destruct (negb (continue_1138 e)); [exists Breaks; split; [reflexivity|discriminate]|].
  exists Falls. split; [reflexivity|discriminate].
Qed.

End UnsupportedFacts.

(** * The page lists *)

Section ListFacts.


Context {A : Type}.

Lemma store_at_fits (a : list A) (i : nat) (x : A) :
  (i < length a)%nat -> store_at a i x = Some (<[i := x]> a).
Proof. intros Hi. unfold store_at. destruct (decide _); [reflexivity|contradiction]. Qed.

Lemma next_k_mod (num_pages k : nat) :
  (k < num_pages)%nat -> next_k num_pages k = (S k mod num_pages)%nat.
Proof.
  intros Hk. unfold next_k. destruct (Nat.leb_spec num_pages (S k)) as [Hle|Hlt].
  - replace (S k) with num_pages by lia. rewrite Nat.Div0.mod_same. reflexivity.
  - rewrite Nat.mod_small by lia. reflexivity.
Qed.

Lemma rotate_Permutation (m : nat) (a : list A) : rotate m a ≡ₚ a.
Proof.
  unfold rotate. rewrite Permutation_app_comm, take_drop. reflexivity.
Qed.

(** Putting [x] in the place of [y] and [y] in front of the list is the
    same, up to the order, as putting [x] in front. *)
Lemma insert_head_Permutation (a : list A) (i : nat) (x y : A) :
  a !! i = Some y -> y :: <[i := x]> a ≡ₚ x :: a.
Proof.
  revert i. induction a as [|z a IH]; intros [|i] Hi; try discriminate.
  - cbn in Hi. injection Hi as ->. cbn. apply perm_swap.
  - cbn in Hi. cbn [list_insert insert].
    change (<[S i:=x]> (z :: a)) with (z :: <[i:=x]> a).
    rewrite (perm_swap z y), (IH i Hi). apply perm_swap.
Qed.

Lemma swap_Permutation (a : list A) (i l : nat) (x y : A) :
  a !! i = Some x -> a !! l = Some y ->
  <[l := x]> (<[i := y]> a) ≡ₚ a.
Proof.
  revert i l. induction a as [|z a IH]; intros [|i] [|l] Hi Hl; try discriminate.
  - cbn in Hi, Hl. injection Hi as ->. injection Hl as ->. reflexivity.
  - cbn in Hi, Hl. injection Hi as ->.
    change (y :: <[l:=x]> a ≡ₚ x :: a). apply insert_head_Permutation, Hl.
  - cbn in Hi, Hl. injection Hl as ->.
    change (x :: <[i:=y]> a ≡ₚ y :: a). apply insert_head_Permutation, Hi.
  - cbn in Hi, Hl.
    change (z :: <[l:=x]> (<[i:=y]> a) ≡ₚ z :: a). apply perm_skip, (IH i l Hi Hl).
Qed.

Lemma shuffle_loop_Permutation (rnd : nat -> nat) (count : nat) :
  forall (i : nat) (a : list A),
    (i + count <= length a)%nat ->
    (forall j, (rnd j < length a)%nat) ->
    exists a', shuffle_loop rnd count i a = Some a' /\ a' ≡ₚ a.
Proof.
  induction count as [|count IH]; intros i a Hi Hrnd; cbn [shuffle_loop]; [eauto|].
  destruct (lookup_lt_is_Some_2 a i ltac:(lia)) as [tmp Htmp].
  destruct (lookup_lt_is_Some_2 a (rnd i) (Hrnd i)) as [x Hx].
  rewrite Htmp, Hx, store_at_fits by lia.
  rewrite store_at_fits by (rewrite length_insert; apply Hrnd).
  destruct (IH (S i) (<[rnd i := tmp]> (<[i := x]> a))) as (a' & Ha' & Hperm).
  - rewrite !length_insert. lia.
  - intros j. rewrite !length_insert. apply Hrnd.
  - exists a'. split; [exact Ha'|].
    rewrite Hperm. apply swap_Permutation; assumption.
Qed.

Lemma shuffled_Permutation (on : bool) (rnd : nat -> nat) (a : list A) :
  (on = true -> forall j, (rnd j < length a)%nat) ->
  exists a', shuffled on rnd (length a) a = Some a' /\ a' ≡ₚ a.
Proof.
  intros Hrnd. destruct on; cbn [shuffled]; [|eauto].
  apply shuffle_loop_Permutation; [lia|auto].
Qed.

End ListFacts.

Section MoveFacts.


Context (s : scan_state) (Hs : ring s).
Context (page_size buf : Z) (num_pages : nat).

Lemma ring_next_lt (a : nat) : (a < callocs s)%nat -> (ring_next (callocs s) a < callocs s)%nat.
Proof. destruct a; cbn [ring_next]; lia. Qed.

Lemma follow_S (h : gmap nat stress_node) (m : nat) (p : option nat) :
  follow h (S m) p = follow h m p ≫= fun a => h !! a ≫= next.
Proof.
  revert p. induction m as [|m IH]; intros p; [reflexivity|].
  change (follow h (S (S m)) p) with (follow h (S m) (p ≫= fun a => h !! a ≫= next)).
  rewrite IH. reflexivity.
Qed.

Lemma follow_add (h : gmap nat stress_node) (m1 m2 : nat) (p : option nat) :
  follow h (m1 + m2) p = follow h m2 (follow h m1 p).
Proof.
  revert p. induction m1 as [|m1 IH]; intros p; [reflexivity|].
  cbn [Nat.add follow]. apply IH.
Qed.

Lemma ring_stays (m a : nat) :
  (a < callocs s)%nat ->
  exists a', follow (heap s) m (Some a) = Some a' /\ (a' < callocs s)%nat.
Proof.
  intros Ha. rewrite (ring_follow s m a Hs Ha).
  eexists. split; [reflexivity|]. apply Nat.mod_upper_bound. lia.
Qed.

Lemma ring_walk_length (m : nat) :
  forall a, (a < callocs s)%nat -> length (walk (heap s) m (Some a)) = m.
Proof.
  induction m as [|m IH]; intros a Ha; [reflexivity|].
  destruct (ring_node s Hs a Ha) as (nd & Hnd & Hnext).
  cbn [walk mbind option_bind]. rewrite Hnd, Hnext. cbn [length].
  rewrite IH by (apply ring_next_lt; exact Ha). reflexivity.
Qed.

(** The fill loop in the coordinates of the list rotated by the [k] the
    pass began with: round [i] stores at index [i]. *)
Lemma fill_pages_rotated (k0 : nat) (count : nat) :
  forall i st a,
    (i + count <= num_pages)%nat ->
    length (pages st) = num_pages ->
    length (dest_nodes st) = num_pages ->
    k st = rotate_nat_add k0 i num_pages ->
    n_tmp st = Some a ->
    (a < callocs s)%nat ->
    exists st',
      fill_pages (heap s) page_size num_pages count (buf + Z.of_nat i * page_size) st
      = Some st'
      /\ length (pages st') = num_pages
      /\ length (dest_nodes st') = num_pages
      /\ k st' = rotate_nat_add k0 (i + count) num_pages
      /\ n_tmp st' = follow (heap s) count (Some a)
      /\ rotate k0 (pages st')
         = take i (rotate k0 (pages st))
           ++ ((fun x => buf + Z.of_nat x * page_size) <$> seq i count)
           ++ drop (i + count) (rotate k0 (pages st))
      /\ rotate k0 (dest_nodes st')
         = take i (rotate k0 (dest_nodes st))
           ++ (int_of_ulong <$> walk (heap s) count (Some a))
           ++ drop (i + count) (rotate k0 (dest_nodes st)).
Proof.
  induction count as [|count IH]; intros i st a Hi Hpages Hdest Hk Hn Ha.
  - exists st. cbn [fill_pages seq walk fmap list_fmap follow app].
    rewrite Nat.add_0_r, !take_drop. auto 10.
  - destruct (ring_node s Hs a Ha) as (nd & Hnd & Hnext).
    assert (Hklt : (k st < num_pages)%nat)
      by (rewrite Hk; apply rotate_nat_add_lt; lia).
    cbn [fill_pages]. rewrite Hn. cbn [mbind option_bind]. rewrite Hnd.
    rewrite !store_at_fits by lia.
    set (st1 := PageLists _ _ _ _).
    destruct (IH (S i) st1 (ring_next (callocs s) a)) as
      (st' & Hfill & Hlp & Hld & Hk' & Hn' & Hrp & Hrd).
    + lia.
    + cbn. rewrite length_insert. exact Hpages.
    + cbn. rewrite length_insert. exact Hdest.
    + cbn. rewrite next_k_mod by exact Hklt.
      rewrite rotate_nat_add_S by lia. rewrite Hk. reflexivity.
    + cbn. exact Hnext.
    + apply ring_next_lt, Ha.
    + exists st'.
      replace (buf + Z.of_nat i * page_size + page_size)
        with (buf + Z.of_nat (S i) * page_size) by lia.
      split; [exact Hfill|]. split; [exact Hlp|]. split; [exact Hld|].
      split; [rewrite Hk'; f_equal; lia|].
      split; [rewrite Hn'; cbn [follow mbind option_bind]; rewrite Hnd;
              cbn [mbind option_bind]; rewrite Hnext; reflexivity|].
      assert (Hins : forall (l : list Z) (x : Z),
                 length l = num_pages ->
                 rotate k0 (<[k st := x]> l) = <[i := x]> (rotate k0 l)).
      { intros l x Hl. rewrite Hk, <- Hl. apply rotate_insert_l. lia. }
      assert (Hcut : forall (l : list Z) (x : Z) (tl : list Z),
                 length l = num_pages ->
                 take (S i) (<[i := x]> (rotate k0 l)) ++ tl
                   ++ drop (S i + count) (<[i := x]> (rotate k0 l))
                 = take i (rotate k0 l) ++ (x :: tl)
                   ++ drop (i + S count) (rotate k0 l)).
      { intros l x tl Hl.
        rewrite (take_S_r _ i x)
          by (apply list_lookup_insert_eq; rewrite length_rotate; lia).
        rewrite take_insert_ge, drop_insert_lt by lia.
        rewrite <- app_assoc. cbn [app].
        replace (S i + count)%nat with (i + S count)%nat by lia. reflexivity. }
      split.
      * rewrite Hrp. cbn [st1 pages]. rewrite Hins by exact Hpages.
        rewrite Hcut by exact Hpages. reflexivity.
      * rewrite Hrd. cbn [st1 dest_nodes]. rewrite Hins by exact Hdest.
        rewrite Hcut by exact Hdest.
        cbn [walk mbind option_bind]. rewrite Hnd, Hnext. reflexivity.
Qed.

(** A whole fill: every element of both lists is written. *)
Lemma fill_pages_whole (st : page_lists) (a : nat) :
  lists_fit num_pages st ->
  n_tmp st = Some a ->
  (a < callocs s)%nat ->
  exists st',
    fill_pages (heap s) page_size num_pages num_pages buf st = Some st'
    /\ length (pages st') = num_pages
    /\ length (dest_nodes st') = num_pages
    /\ k st' = k st
    /\ n_tmp st' = follow (heap s) num_pages (Some a)
    /\ rotate (k st) (pages st') = page_addresses buf page_size num_pages
    /\ rotate (k st) (dest_nodes st')
       = int_of_ulong <$> walk (heap s) num_pages (Some a).
Proof.
  intros (Hpages & Hdest & Hk) Hn Ha.
  destruct (fill_pages_rotated (k st) num_pages 0 st a) as
    (st' & Hfill & Hlp & Hld & Hk' & Hn' & Hrp & Hrd);
    try assumption; try lia.
  { rewrite rotate_nat_add_0 by lia. reflexivity. }
  exists st'. replace (buf + Z.of_nat 0 * page_size) with buf in Hfill by lia.
  split; [exact Hfill|]. split; [exact Hlp|]. split; [exact Hld|].
  split.
  { rewrite Hk'. cbn [Nat.add]. unfold rotate_nat_add.
    rewrite <- Nat2Z.inj_add, <- Nat2Z.inj_mod, Nat2Z.id.
    replace (k st + num_pages)%nat with (k st + 1 * num_pages)%nat by lia.
    rewrite Nat.Div0.mod_add, Nat.mod_small by lia. reflexivity. }
  split; [exact Hn'|].
  split.
  - rewrite Hrp. cbn [take Nat.add app].
    rewrite drop_ge by (rewrite length_rotate; lia).
    rewrite app_nil_r. reflexivity.
  - rewrite Hrd. cbn [take Nat.add app].
    rewrite drop_ge by (rewrite length_rotate; lia).
    rewrite app_nil_r. reflexivity.
Qed.

Lemma rotate_nat_add_mod (base offset len : nat) :
  rotate_nat_add base offset len = ((base + offset) mod len)%nat.
Proof.
  unfold rotate_nat_add. rewrite <- Nat2Z.inj_add, <- Nat2Z.inj_mod, Nat2Z.id.
  reflexivity.
Qed.

(** One pass: it never fails, it keeps the lists fit for the next pass,
    and what it leaves in them is known up to the shuffles. *)
Lemma prepare_pages_ring (numa_shuffle_addr numa_shuffle_node : bool)
    (rnd_addr rnd_node : nat -> nat) (st : page_lists) (a : nat) :
  lists_fit num_pages st ->
  n_tmp st = Some a ->
  (a < callocs s)%nat ->
  (numa_shuffle_addr = true -> forall i, (rnd_addr i < num_pages)%nat) ->
  (numa_shuffle_node = true -> forall i, (rnd_node i < num_pages)%nat) ->
  exists st',
    prepare_pages (heap s) page_size num_pages buf numa_shuffle_addr
      numa_shuffle_node rnd_addr rnd_node st = Some st'
    /\ lists_fit num_pages st'
    /\ k st' = (S (k st) mod num_pages)%nat
    /\ n_tmp st' = follow (heap s) num_pages (Some a)
    /\ pages st' ≡ₚ page_addresses buf page_size num_pages
    /\ dest_nodes st' ≡ₚ int_of_ulong <$> walk (heap s) num_pages (Some a)
    /\ (numa_shuffle_addr = false ->
        rotate (k st) (pages st') = page_addresses buf page_size num_pages)
    /\ (numa_shuffle_node = false ->
        rotate (k st) (dest_nodes st')
        = int_of_ulong <$> walk (heap s) num_pages (Some a)).
Proof.
  intros Hfit Hn Ha Hra Hrn.
  destruct (fill_pages_whole st a Hfit Hn Ha) as
    (st1 & Hfill & Hlp & Hld & Hk1 & Hn1 & Hrp & Hrd).
  destruct Hfit as (_ & _ & Hk).
  unfold prepare_pages. rewrite Hfill.
  destruct (shuffled_Permutation numa_shuffle_addr rnd_addr (pages st1))
    as (pages' & Hsp & Hpp); [rewrite Hlp; exact Hra|].
  destruct (shuffled_Permutation numa_shuffle_node rnd_node (dest_nodes st1))
    as (dest' & Hsd & Hpd); [rewrite Hld; exact Hrn|].
  rewrite Hlp in Hsp. rewrite Hld in Hsd. rewrite Hsp, Hsd.
  eexists. split; [reflexivity|]. cbn [pages dest_nodes k n_tmp].
  split.
  { unfold lists_fit. cbn [pages dest_nodes k].
    rewrite (Permutation_length Hpp), (Permutation_length Hpd), Hk1.
    split; [exact Hlp|]. split; [exact Hld|].
    rewrite next_k_mod by exact Hk. apply Nat.mod_upper_bound. lia. }
  split; [rewrite Hk1; apply next_k_mod, Hk|].
  split; [exact Hn1|].
  split; [rewrite Hpp, <- Hrp; symmetry; apply rotate_Permutation|].
  split; [rewrite Hpd, <- Hrd; symmetry; apply rotate_Permutation|].
  split.
  - intros ->. cbn [shuffled] in Hsp. injection Hsp as <-. exact Hrp.
  - intros ->. cbn [shuffled] in Hsd. injection Hsd as <-. exact Hrd.
Qed.

(** Any number of passes. *)
Lemma move_passes_ring (numa_shuffle_addr numa_shuffle_node : bool)
    (rnd_addr rnd_node : nat -> nat -> nat) (count : nat) :
  (numa_shuffle_addr = true -> forall j i, (rnd_addr j i < num_pages)%nat) ->
  (numa_shuffle_node = true -> forall j i, (rnd_node j i < num_pages)%nat) ->
  forall j st a,
    lists_fit num_pages st ->
    n_tmp st = Some a ->
    (a < callocs s)%nat ->
    exists st',
      move_passes (heap s) page_size num_pages buf numa_shuffle_addr
        numa_shuffle_node rnd_addr rnd_node count j st = Some st'
      /\ lists_fit num_pages st'
      /\ k st' = ((k st + count) mod num_pages)%nat
      /\ n_tmp st' = follow (heap s) (count * num_pages) (Some a).
Proof.
  intros Hra Hrn.
  induction count as [|count IH]; intros j st a Hfit Hn Ha.
  - exists st. cbn [move_passes Nat.mul follow].
    destruct Hfit as (Hlp & Hld & Hk).
    rewrite Nat.add_0_r, Nat.mod_small by exact Hk.
    unfold lists_fit. auto 10.
  - destruct (prepare_pages_ring numa_shuffle_addr numa_shuffle_node
                (rnd_addr j) (rnd_node j) st a Hfit Hn Ha)
      as (st1 & Hprep & Hfit1 & Hk1 & Hn1 & _); [auto|auto|].
    destruct (ring_stays num_pages a Ha) as (a1 & Ha1 & Hlt1).
    rewrite Ha1 in Hn1.
    destruct (IH (S j) st1 a1 Hfit1 Hn1 Hlt1) as (st' & Hmove & Hfit' & Hk' & Hn').
    exists st'. cbn [move_passes]. rewrite Hprep.
    split; [exact Hmove|]. split; [exact Hfit'|].
    split.
    + rewrite Hk', Hk1, Nat.Div0.add_mod_idemp_l. f_equal. lia.
    + rewrite Hn', <- Ha1, <- follow_add. reflexivity.
Qed.

End MoveFacts.

Section FoundNodes.

Context (calloc_ok : nat -> bool) (status : option (list string)).

(** What the exerciser knows once the check of line 806 has passed. *)
Lemma discovery_found :
  1 <= numa_nodes (stress_numa_get_mem_nodes calloc_ok status) ->
  exists s,
    ring s
    /\ node_heap (stress_numa_get_mem_nodes calloc_ok status) = heap s
    /\ numa_nodes (stress_numa_get_mem_nodes calloc_ok status) = Z.of_nat (callocs s)
    /\ (0 < callocs s)%nat
    /\ forall m, exists a,
         follow (heap s) m (nodes (stress_numa_get_mem_nodes calloc_ok status)) = Some a
         /\ (a < callocs s)%nat.
Proof.
  intros Hfound.
  destruct (discovery_ring calloc_ok status) as (s & Hs & Hnodes & Hheap & Hret).
  pose proof (ring_count s Hs) as Hcount.
  pose proof (ring_head s Hs) as Hhead.
  exists s. split; [exact Hs|]. split; [exact Hheap|].
  assert (Hn : numa_nodes (stress_numa_get_mem_nodes calloc_ok status)
               = Z.of_nat (callocs s)) by (destruct Hret; lia).
  split; [exact Hn|]. split; [lia|].
  intros m. rewrite Hnodes, Hhead.
  destruct (callocs s) as [|c] eqn:Hc; [lia|]. rewrite <- Hc.
  apply ring_stays; [exact Hs|lia].
Qed.

End FoundNodes.

Section PairFacts.

Context (s : scan_state) (Hs : ring s).

(** The [i]-th id of a walk is the id of the node [i] steps away. *)
Lemma ring_walk_lookup (count : nat) :
  forall i a,
    (i < count)%nat ->
    (a < callocs s)%nat ->
    exists a' nd,
      follow (heap s) i (Some a) = Some a'
      /\ heap s !! a' = Some nd
      /\ walk (heap s) count (Some a) !! i = Some (node_id nd).
Proof.
  induction count as [|count IH]; intros i a Hi Ha; [lia|].
  destruct (ring_node s Hs a Ha) as (nd & Hnd & Hnext).
  cbn [walk mbind option_bind]. rewrite Hnd, Hnext.
  destruct i as [|i].
  - exists a, nd. auto.
  - destruct (IH i (ring_next (callocs s) a) ltac:(lia) (ring_next_lt s a Ha))
      as (a' & nd' & Hfollow & Hnd' & Hlook).
    exists a', nd'. split; [|split; [exact Hnd'|exact Hlook]].
    cbn [follow mbind option_bind]. rewrite Hnd. cbn [mbind option_bind].
    rewrite Hnext. exact Hfollow.
Qed.

Lemma page_addresses_NoDup (buf page_size : Z) (num_pages : nat) :
  0 < page_size -> NoDup (page_addresses buf page_size num_pages).
Proof.
  intros Hsize. unfold page_addresses.
  apply NoDup_fmap_2_strong; [|apply NoDup_seq].
  intros i j _ _ Heq. nia.
Qed.

End PairFacts.

(** * Further properties of the merge sort *)

(** X1: [mergesort_copy] moves exactly [size] bytes: byte [k] of the source
    lands on byte [k] of the destination for every [k] below [size], and
    no other byte of the destination changes, on the word path taken at
    [size = 4] as on the byte path. *)
Theorem mergesort_copy_moves_size_bytes
    (dst src : mem) (p1 p2 size : Z) :
  0 <= size ->
  (forall k, 0 <= k < size ->
     mergesort_copy dst src p1 p2 size (p1 + k) = src (p2 + k))
  /\ (forall a, a < p1 \/ p1 + size <= a ->
        mergesort_copy dst src p1 p2 size a = dst a).
Proof.
  intros Hsize. split.
  - intros k Hk. rewrite mergesort_copy_inside by lia. f_equal. lia.
  - intros a Ha. apply mergesort_copy_outside; assumption.
Qed.

Lemma mergesort_copy_moves_size_bytes_witness :
  0 <= 4
  /\ (forall k, 0 <= k < 4 ->
        mergesort_copy zero_mem (int32_mem [5; 3]) 8 4 4 (8 + k)
        = int32_mem [5; 3] (4 + k))
  /\ (forall a, a < 8 \/ 8 + 4 <= a ->
        mergesort_copy zero_mem (int32_mem [5; 3]) 8 4 4 a = zero_mem a).
Proof.
  split; [lia|].
  apply (mergesort_copy_moves_size_bytes zero_mem (int32_mem [5; 3]) 8 4 4).
  lia.
Defined.

(** X2: one merge, the loop and the two bulk copies behind it, leaves in
    the merged range the merge of the two runs of the scratch block in
    which the left record goes first only when the comparator puts it
    strictly first; the range holds the records of the two runs, each as
    often as before, and no byte below the range or from two records
    behind it on is written.  The loop of the 4 byte path does the same. *)
Theorem merge_is_right_biased_merge
    (compar : comparator) (size : Z) (sm : mem) (a b : nat) (left : Z)
    (fuel : nat) (bm : mem) (log : list event) :
  0 < size ->
  (a + b + 1 <= fuel)%nat ->
  let lhs_end := Z.of_nat a * size in
  let rhs_end := (Z.of_nat a + Z.of_nat b) * size in
  exists c',
    merge_loop fuel compar size sm lhs_end rhs_end (cursor_at size a left bm log 0 0)
      = Some c'
    /\ (size = 4 ->
        merge_loop4 fuel compar sm lhs_end rhs_end (cursor_at size a left bm log 0 0)
        = Some c')
    /\ records (merge_tail sm lhs_end rhs_end c').1 size left (a + b)
       = merge_runs compar (records sm size 0 a) (records sm size (Z.of_nat a) b)
    /\ records (merge_tail sm lhs_end rhs_end c').1 size left (a + b)
       ≡ₚ records sm size 0 a ++ records sm size (Z.of_nat a) b
    /\ (forall x,
          x < left * size \/ (left + Z.of_nat a + Z.of_nat b + 1) * size <= x ->
          (merge_tail sm lhs_end rhs_end c').1 x = bm x).
Proof.
  intros Hsize Hfuel. cbn zeta.
  destruct (merge_loop_spec compar size Hsize sm a b left fuel 0 0 bm log)
    as (c' & Hloop & Hrecs & Hframe); [lia..|].
  rewrite !drop_0, !Nat.sub_0_r in Hrecs.
  replace (left + Z.of_nat 0 + Z.of_nat 0) with left in * by lia.
  exists c'. split; [exact Hloop|].
  split; [intros ->; rewrite merge_loop4_as_loop; exact Hloop|].
  split; [exact Hrecs|].
  split; [rewrite Hrecs; apply merge_Permutation|exact Hframe].
Qed.

Lemma merge_is_right_biased_merge_witness :
  0 < 4
  /\ (2 + 1 + 1 <= 4)%nat
  /\ let sm := int32_mem [3; 7; 3] in
     exists c',
       merge_loop 4 cmp_fwd_int32 4 sm (Z.of_nat 2 * 4) ((Z.of_nat 2 + Z.of_nat 1) * 4)
         (cursor_at 4 2 0 zero_mem [] 0 0) = Some c'
       /\ (4 = 4 ->
           merge_loop4 4 cmp_fwd_int32 sm (Z.of_nat 2 * 4) ((Z.of_nat 2 + Z.of_nat 1) * 4)
             (cursor_at 4 2 0 zero_mem [] 0 0) = Some c')
       /\ records (merge_tail sm (Z.of_nat 2 * 4) ((Z.of_nat 2 + Z.of_nat 1) * 4) c').1
            4 0 (2 + 1)
          = merge_runs cmp_fwd_int32 (records sm 4 0 2) (records sm 4 (Z.of_nat 2) 1)
       /\ records (merge_tail sm (Z.of_nat 2 * 4) ((Z.of_nat 2 + Z.of_nat 1) * 4) c').1
            4 0 (2 + 1)
          ≡ₚ records sm 4 0 2 ++ records sm 4 (Z.of_nat 2) 1
       /\ (forall x,
             x < 0 * 4 \/ (0 + Z.of_nat 2 + Z.of_nat 1 + 1) * 4 <= x ->
             (merge_tail sm (Z.of_nat 2 * 4) ((Z.of_nat 2 + Z.of_nat 1) * 4) c').1 x
             = zero_mem x).
Proof.
  split; [lia|]. split; [lia|].
  apply (merge_is_right_biased_merge cmp_fwd_int32 4 (int32_mem [3; 7; 3]) 2 1 0 4
           zero_mem []); lia.
Defined.



(** X4: in a call with at least one record every pointer the comparator
    is handed lies between the start of the scratch mapping and its end,
    the end included: the comparator reads at most one record behind the
    [nmemb * size] bytes of the mapping.  Every store into the caller's
    memory starts inside the buffer or right behind it and ends at most
    one record behind it. *)
Theorem sort_stays_within_one_record
    (compar : comparator) (lhs base : mem) (nmemb size : Z) :
  1 <= nmemb < SIZE_MODULUS ->
  0 < size ->
  exists bm tr,
    mergesort_nonlibc (Some lhs) base nmemb size compar = Some (0, bm, tr)
    /\ Forall (event_reach 0 ((nmemb + 1) * size) (nmemb * size)) tr.
Proof.
  intros Hn Hsize.
  destruct (nonlibc_effect compar lhs base nmemb size Hn Hsize)
    as (bm & tr & Hcall & _ & Hreach).
  exists bm, tr. split; assumption.
Qed.

Lemma sort_stays_within_one_record_witness :
  1 <= 3 < SIZE_MODULUS
  /\ 0 < 4
  /\ exists bm tr,
       mergesort_nonlibc (Some zero_mem) (int32_mem [1; 2; 3]) 3 4 cmp_fwd_int32
       = Some (0, bm, tr)
       /\ Forall (event_reach 0 ((3 + 1) * 4) (3 * 4)) tr.
Proof.
  split; [unfold SIZE_MODULUS; lia|]. split; [lia|].
  apply sort_stays_within_one_record; [unfold SIZE_MODULUS; lia|lia].
Defined.

(** X5: the driver's verification never reports a sort error after a sort
    by [mergesort_nonlibc]: with a comparator whose sign is the ascending
    order of the integers the forward check finds no [*ptr > *(ptr + 1)],
    and with one whose sign is the descending order the reverse check
    finds no [*ptr < *(ptr + 1)], for every array of at least one
    integer. *)
Theorem driver_verification_passes
    (cmp_fwd cmp_rev : comparator) (lhs data : mem) (n : Z) :
  ascending cmp_fwd ->
  descending cmp_rev ->
  1 <= n < SIZE_MODULUS ->
  (exists bm tr,
     mergesort_nonlibc (Some lhs) data n 4 cmp_fwd = Some (0, bm, tr)
     /\ verify_forward bm n = false)
  /\ (exists bm tr,
        mergesort_nonlibc (Some lhs) data n 4 cmp_rev = Some (0, bm, tr)
        /\ verify_reverse bm n = false).
Proof.
  intros Hasc Hdesc Hn.
  assert (Hcount : Z.to_nat n = S (Z.to_nat ((n - 1) mod SIZE_MODULUS))).
  { rewrite Z.mod_small by lia. lia. }
  split.
  - destruct (nonlibc_sorted cmp_fwd lhs data n 4 ltac:(lia) ltac:(lia))
      as (bm & tr & Hcall & Hsorted).
    exists bm, tr. split; [exact Hcall|].
    unfold verify_forward. apply (verify_loop_sorted cmp_fwd).
    + intros x y Hxy. destruct (Hasc x y) as [_ Hpos].
      destruct (Z.gtb_spec (int32_of_rec x) (int32_of_rec y)); [lia|reflexivity].
    + rewrite <- Hcount. apply Hsorted. apply ascending_flips. exact Hasc.
  - destruct (nonlibc_sorted cmp_rev lhs data n 4 ltac:(lia) ltac:(lia))
      as (bm & tr & Hcall & Hsorted).
    exists bm, tr. split; [exact Hcall|].
    unfold verify_reverse. apply (verify_loop_sorted cmp_rev).
    + intros x y Hxy. destruct (Hdesc x y) as [_ Hpos].
      destruct (Z.ltb_spec (int32_of_rec x) (int32_of_rec y)); [lia|reflexivity].
    + rewrite <- Hcount. apply Hsorted. apply descending_flips. exact Hdesc.
Qed.

Lemma driver_verification_passes_witness :
  ascending cmp_fwd_int32
  /\ descending cmp_rev_int32
  /\ 1 <= 5 < SIZE_MODULUS
  /\ (exists bm tr,
        mergesort_nonlibc (Some zero_mem) (int32_mem [5; 3; 1; 4; 2]) 5 4 cmp_fwd_int32
        = Some (0, bm, tr)
        /\ verify_forward bm 5 = false)
  /\ (exists bm tr,
        mergesort_nonlibc (Some zero_mem) (int32_mem [5; 3; 1; 4; 2]) 5 4 cmp_rev_int32
        = Some (0, bm, tr)
        /\ verify_reverse bm 5 = false).
Proof.
  split; [exact cmp_fwd_int32_sign|].
  split; [exact cmp_rev_int32_sign|].
  split; [unfold SIZE_MODULUS; lia|].
  apply driver_verification_passes.
  - exact cmp_fwd_int32_sign.
  - exact cmp_rev_int32_sign.
  - unfold SIZE_MODULUS. lia.
Defined.

(** X6: [stress_set_mergesort_method] accepts exactly the names of the
    method table.  For a name of the table it returns 0 and stores the
    index of that name, an index at which the driver's table lookup finds
    the name again; for any other name it returns -1 and stores
    nothing. *)
Theorem set_mergesort_method_stores_index_of_name
    (have_lib_bsd : bool) (opt : string) :
  let methods := stress_mergesort_methods have_lib_bsd in
  match stress_set_mergesort_method have_lib_bsd opt with
  | (ret, Some i) => ret = 0 /\ methods !! i = Some opt
  | (ret, None) => ret = -1 /\ opt ∉ methods
  end.
Proof.
  intros methods. unfold stress_set_mergesort_method. fold methods.
  pose proof (find_method_spec methods opt 0) as Hfind.
  destruct (find_method methods opt 0) as [i|].
  - destruct Hfind as [_ Hlook]. rewrite Nat.sub_0_r in Hlook. split; [reflexivity|exact Hlook].
  - split; [reflexivity|exact Hfind].
Qed.

(** * Further properties of the NUMA node discovery *)

(** X7: [hex_to_int] never returns a value outside -1 .. 15, it is negative
    exactly on the characters that are no hex digits, and on the decimal
    digits and the lower case letters a to f it returns the value of the
    digit. *)
Theorem hex_to_int_is_a_nibble_or_minus_one (ch : Z) :
  -1 <= hex_to_int ch <= 15
  /\ (hex_to_int ch < 0 <-> ~ is_hex_digit ch)
  /\ (char_code "0" <= ch <= char_code "9" -> hex_to_int ch = ch - char_code "0")
  /\ (char_code "a" <= ch <= char_code "f" -> hex_to_int ch = ch - char_code "a" + 10).
Proof.
  unfold is_hex_digit.
  destruct char_codes as (H0 & H9 & Ha & Hf & HA & HF).
  rewrite H0, H9, Ha, Hf, HA, HF.
  destruct (Z.le_gt_cases 48 ch), (Z.le_gt_cases ch 57);
    [rewrite (hex_to_int_digit ch) by lia; rewrite ?H0; repeat split; lia| | |];
    (destruct (Z.le_gt_cases 97 ch), (Z.le_gt_cases ch 102);
     [rewrite (hex_to_int_lower ch) by lia; rewrite ?Ha; repeat split; lia| | |]);
    (destruct (Z.le_gt_cases 65 ch), (Z.le_gt_cases ch 70);
     [rewrite (hex_to_int_upper ch) by lia; rewrite ?HF; repeat split; lia| | |]);
    rewrite (hex_to_int_other ch) by lia; repeat split; lia.
Qed.

(** X8: however the discovery ends, the nodes it made are all in the list:
    the return value, when it is not -1, is the number of nodes on the
    heap, a walk over that many nodes from the head meets the nodes from
    the newest to the oldest, and every node on the heap is reached from
    the head in fewer steps than there are nodes. *)
Theorem discovery_loses_no_node
    (calloc_ok : nat -> bool) (status : option (list string)) :
  let d := stress_numa_get_mem_nodes calloc_ok status in
  let h := node_heap d in
  let c := size h in
  (numa_nodes d = -1 \/ numa_nodes d = Z.of_nat c)
  /\ walk h c (nodes d) = rev (ids_by_address h c)
  /\ length (walk h c (nodes d)) = c
  /\ forall a, is_Some (h !! a) ->
       exists k, (k < c)%nat /\ follow h k (nodes d) = Some a.
Proof.
  cbn zeta.
  destruct (discovery_census calloc_ok status) as (s & Hs & Hsize & Hnodes & Hheap & Hret).
  rewrite Hnodes, Hheap, Hsize.
  pose proof (ring_head s Hs) as Hhead.
  split; [exact Hret|].
  assert (Hwalk : walk (heap s) (callocs s) (node_ptr s)
                  = rev (ids_by_address (heap s) (callocs s))).
  { rewrite Hhead. apply (ring_walk s Hs). lia. }
  split; [exact Hwalk|].
  split.
  { rewrite Hwalk, length_rev. unfold ids_by_address.
    rewrite length_map, length_seq. reflexivity. }
  intros a [nd Ha].
  assert (Hlt : (a < callocs s)%nat).
  { destruct (Nat.lt_ge_cases a (callocs s)) as [Hlt|Hge]; [exact Hlt|].
    rewrite (ring_fresh s Hs a Hge) in Ha. discriminate. }
  destruct (callocs s) as [|c] eqn:Hc; [lia|].
  exists (c - a)%nat. split; [lia|].
  rewrite Hhead. rewrite <- Hc in *.
  rewrite (ring_descend s Hs) by lia. f_equal. lia.
Qed.

(** X9: after a discovery that wrote [*max_nodes], the node ids grow
    strictly with the order in which the nodes were made, so no id occurs
    twice; every id is below [*max_nodes], which is a multiple of 4, and
    the word of the node mask an id falls in lies inside the
    [mask_elements] words that [stress_numa] allocates. *)
Theorem node_ids_are_distinct_and_in_the_mask
    (calloc_ok : nat -> bool) (status : option (list string)) (mx : Z) :
  let d := stress_numa_get_mem_nodes calloc_ok status in
  let ids := ids_by_address (node_heap d) (size (node_heap d)) in
  max_nodes d = Some mx ->
  StronglySorted Z.lt ids
  /\ NoDup ids
  /\ numa_nodes d = Z.of_nat (length ids)
  /\ mx mod 4 = 0
  /\ Forall (fun id => 0 <= id < mx
                       /\ 0 <= id / NUMA_LONG_BITS < mask_elements mx) ids.
Proof.
  cbn zeta. intros Hmx.
  destruct (discovery_success calloc_ok status mx Hmx)
    as (lines & buffer & s & -> & Hfind & Hscan & Hd & ->).
  rewrite Hd. cbn [discovered node_heap numa_nodes].
  pose proof (ring_scan_digits calloc_ok buffer 13 (String.length buffer - 2)
                no_nodes ring_no_nodes) as Hring.
  pose proof (scan_digits_census calloc_ok buffer 13 (String.length buffer - 2)
                no_nodes ring_no_nodes eq_refl) as Hcensus.
  cbn zeta in Hcensus. rewrite Hscan in Hring, Hcensus. cbn [ring_result] in Hring.
  destruct Hcensus as (Hids & Hcur & Hsz & _).
  cbn in Hids, Hcur. rewrite Hsz, Hids.
  set (chars := scanned_chars buffer 13 (String.length buffer - 2)) in *.
  destruct (ids_of_chars_sorted chars 0) as [Hin Hsorted].
  assert (Hlen : length (ids_of_chars chars 0) = callocs s).
  { rewrite <- Hids. unfold ids_by_address. rewrite length_map, length_seq. reflexivity. }
  split; [exact Hsorted|].
  split.
  { clear -Hsorted. induction Hsorted as [|x l Hl IH Hx]; constructor; [|exact IH].
    intros Hxl. rewrite Forall_forall in Hx. specialize (Hx x Hxl). lia. }
  split; [rewrite Hlen; apply (ring_count s Hring)|].
  split; [rewrite Hcur, Z.add_0_l, Z.mul_comm; apply Z.mod_mul; lia|].
  apply Forall_forall. intros id Hid. specialize (Hin id Hid).
  rewrite Hcur. rewrite Z.add_0_l in *.
  set (mx := 4 * digit_count chars) in *.
  split; [lia|]. unfold mask_elements, NUMA_LONG_BITS, BITS_PER_BYTE.
  change (8 * 8) with 64.
  replace (mx + 64 - 1) with (mx - 1 + 1 * 64) by lia.
  rewrite Z.div_add by lia.
  pose proof (Z.div_le_mono id (mx - 1) 64 ltac:(lia) ltac:(lia)).
  pose proof (Z.div_pos id 64 ltac:(lia) ltac:(lia)). lia.
Qed.

Lemma node_ids_are_distinct_and_in_the_mask_witness :
  let d := stress_numa_get_mem_nodes (fun _ => true) (Some status_nodes_0_3_5) in
  let ids := ids_by_address (node_heap d) (size (node_heap d)) in
  max_nodes d = Some 64
  /\ StronglySorted Z.lt ids
  /\ NoDup ids
  /\ numa_nodes d = Z.of_nat (length ids)
  /\ 64 mod 4 = 0
  /\ Forall (fun id => 0 <= id < 64
                       /\ 0 <= id / NUMA_LONG_BITS < mask_elements 64) ids.
Proof.
  split; [vm_compute; reflexivity|].
  apply (node_ids_are_distinct_and_in_the_mask (fun _ => true)
           (Some status_nodes_0_3_5) 64).
  vm_compute. reflexivity.
Defined.

(** X10: the discovery reads the mask for what it is.  For a status line
    made of the key, a tab, a mask without spaces and a newline, a
    discovery that succeeds makes one node for every set bit of every hex
    digit and no other: read from the last digit of the mask to the first,
    commas passed over, digit number [q] makes the nodes [4 * q + k] for
    its set bits [k], in that order, the value of a digit being what
    [hex_to_int] makes of it; [*max_nodes] is four times the number of
    digits. *)
Theorem discovery_makes_the_nodes_of_the_mask
    (calloc_ok : nat -> bool) (lines : list string) (body : string) (mx : Z) :
  let d := stress_numa_get_mem_nodes calloc_ok (Some lines) in
  find_mems_allowed lines = Some (mems_allowed_line body) ->
  char_code " " ∉ codes body ->
  max_nodes d = Some mx ->
  ids_by_address (node_heap d) (Z.to_nat (numa_nodes d))
    = ids_of_chars (rev (codes body)) 0
  /\ mx = 4 * digit_count (codes body).
Proof.
  cbn zeta. intros Hfind Hsp Hmx.
  destruct (discovery_success calloc_ok (Some lines) mx Hmx)
    as (lines' & buffer & s & [= <-] & Hfind' & Hscan & Hd & ->).
  rewrite Hfind in Hfind'. injection Hfind' as <-.
  rewrite Hd. cbn [discovered node_heap numa_nodes].
  pose proof (ring_scan_digits calloc_ok (mems_allowed_line body) 13
                (String.length (mems_allowed_line body) - 2)
                no_nodes ring_no_nodes) as Hring.
  pose proof (scan_digits_census calloc_ok (mems_allowed_line body) 13
                (String.length (mems_allowed_line body) - 2)
                no_nodes ring_no_nodes eq_refl) as Hcensus.
  cbn zeta in Hcensus. rewrite Hscan in Hring, Hcensus. cbn [ring_result] in Hring.
  destruct Hcensus as (Hids & Hcur & _ & _).
  rewrite (scanned_chars_line body Hsp) in Hids, Hcur.
  cbn in Hids, Hcur. rewrite digit_count_rev in Hcur.
  rewrite (ring_count s Hring), Nat2Z.id. split; [exact Hids|lia].
Qed.

Lemma discovery_makes_the_nodes_of_the_mask_witness :
  let d := stress_numa_get_mem_nodes (fun _ => true) (Some status_nodes_0_3_5) in
  find_mems_allowed status_nodes_0_3_5 = Some (mems_allowed_line "00000000,00000029")
  /\ (char_code " " ∉ codes "00000000,00000029")
  /\ max_nodes d = Some 64
  /\ ids_by_address (node_heap d) (Z.to_nat (numa_nodes d))
     = ids_of_chars (rev (codes "00000000,00000029")) 0
  /\ 64 = 4 * digit_count (codes "00000000,00000029").
Proof.
  assert (Hsp : char_code " " ∉ codes "00000000,00000029").
  { intros Hin. apply list_elem_of_In in Hin. vm_compute in Hin.
    repeat (destruct Hin as [Hin|Hin]; [discriminate Hin|]). exact Hin. }
  split; [reflexivity|]. split; [exact Hsp|]. split; [vm_compute; reflexivity|].
  apply (discovery_makes_the_nodes_of_the_mask (fun _ => true) status_nodes_0_3_5
           "00000000,00000029" 64);
    [reflexivity|exact Hsp|vm_compute; reflexivity].
Defined.

(** X11: with memory for every node, the discovery of such a status line
    fails exactly when the mask holds a character that is neither a comma
    nor a hex digit; it then returns -1 and leaves [*max_nodes]
    unwritten. *)
Theorem discovery_fails_on_malformed_mask_only
    (lines : list string) (body : string) :
  let d := stress_numa_get_mem_nodes (fun _ => true) (Some lines) in
  find_mems_allowed lines = Some (mems_allowed_line body) ->
  char_code " " ∉ codes body ->
  (numa_nodes d = -1 <-> ~ Forall mask_char (codes body))
  /\ (max_nodes d = None <-> ~ Forall mask_char (codes body)).
Proof.
  cbn zeta. intros Hfind Hsp. unfold stress_numa_get_mem_nodes. rewrite Hfind. cbn zeta.
  pose proof (ring_scan_digits (fun _ => true) (mems_allowed_line body) 13
                (String.length (mems_allowed_line body) - 2)
                no_nodes ring_no_nodes) as Hring.
  pose proof (scan_digits_census (fun _ => true) (mems_allowed_line body) 13
                (String.length (mems_allowed_line body) - 2)
                no_nodes ring_no_nodes eq_refl) as Hcensus.
  cbn zeta in Hcensus. rewrite (scanned_chars_line body Hsp) in Hcensus.
  destruct (scan_digits _ _ _ _ _) as [s|s]; cbn [ring_result] in Hring;
    cbn [discovered numa_nodes max_nodes].
  - destruct Hcensus as (_ & _ & _ & Hall).
    apply List.Forall_rev in Hall. rewrite rev_involutive in Hall.
    pose proof (ring_count s Hring). split; split; intros Hx; try contradiction;
      [lia|discriminate].
  - destruct Hcensus as (_ & Hbad). specialize (Hbad (fun _ => eq_refl)).
    assert (Hbad' : ~ Forall mask_char (codes body)).
    { intros Hall. apply Hbad. apply List.Forall_rev. exact Hall. }
    split; split; intros _; try reflexivity; exact Hbad'.
Qed.

Lemma discovery_fails_on_malformed_mask_only_witness :
  let d := stress_numa_get_mem_nodes (fun _ => true)
             (Some [mems_allowed_line "0g"]) in
  find_mems_allowed [mems_allowed_line "0g"] = Some (mems_allowed_line "0g")
  /\ (char_code " " ∉ codes "0g")
  /\ (numa_nodes d = -1 <-> ~ Forall mask_char (codes "0g"))
  /\ (max_nodes d = None <-> ~ Forall mask_char (codes "0g")).
Proof.
  assert (Hsp : char_code " " ∉ codes "0g").
  { intros Hin. apply list_elem_of_In in Hin. vm_compute in Hin.
    repeat (destruct Hin as [Hin|Hin]; [discriminate Hin|]). exact Hin. }
  split; [reflexivity|]. split; [exact Hsp|].
  apply (discovery_fails_on_malformed_mask_only [mems_allowed_line "0g"] "0g");
    [reflexivity|exact Hsp].
Defined.

(** X12: [stress_numa_free_nodes] on what the discovery left, however the
    discovery ended, frees every node once: it reads no node that was
    freed before, it stops after the oldest node, and no node stays on the
    heap. *)
Theorem free_nodes_frees_every_node_once
    (calloc_ok : nat -> bool) (status : option (list string)) :
  let d := stress_numa_get_mem_nodes calloc_ok status in
  stress_numa_free_nodes (node_heap d) (nodes d) = Freed ∅.
Proof.
  cbn zeta.
  destruct (discovery_census calloc_ok status) as (s & Hs & Hsize & Hnodes & Hheap & _).
  rewrite Hnodes, Hheap. apply free_nodes_ring; assumption.
Qed.

(** * Further properties of the NUMA exerciser *)

(** X13: with a page size that is a power of two and divides the unit
    [MB], and at least one instance, the region [stress_numa] maps is
    never smaller than [MIN_NUMA_MMAP_BYTES] and always a whole number of
    pages, at least one; when a size is set it is that size divided by
    the number of instances, rounded down to a page, or the minimum if
    that is more. *)
Theorem region_is_whole_pages_above_minimum
    (MB k num_instances numa_bytes : Z) :
  0 < MB ->
  0 <= k ->
  MB mod 2 ^ k = 0 ->
  0 < num_instances ->
  0 <= numa_bytes ->
  let page_size := 2 ^ k in
  let bytes := region_bytes MB page_size num_instances numa_bytes in
  let num_pages := region_pages MB page_size num_instances numa_bytes in
  let share := numa_bytes / num_instances in
  MIN_NUMA_MMAP_BYTES MB <= bytes
  /\ bytes mod page_size = 0
  /\ num_pages * page_size = bytes
  /\ 0 < num_pages
  /\ (numa_bytes <> 0 ->
      bytes = Z.max (MIN_NUMA_MMAP_BYTES MB) (share - share mod page_size)).
Proof.
  intros HMB Hk Hdiv Hinst Hbytes. cbn zeta.
  assert (Hps : 0 < 2 ^ k) by (apply Z.pow_pos_nonneg; lia).
  assert (Hmod : region_bytes MB (2 ^ k) num_instances numa_bytes mod 2 ^ k = 0
                 /\ MIN_NUMA_MMAP_BYTES MB
                    <= region_bytes MB (2 ^ k) num_instances numa_bytes
                 /\ (numa_bytes <> 0 ->
                     region_bytes MB (2 ^ k) num_instances numa_bytes
                     = Z.max (MIN_NUMA_MMAP_BYTES MB)
                         (numa_bytes / num_instances
                          - (numa_bytes / num_instances) mod 2 ^ k))).
  { unfold region_bytes, MIN_NUMA_MMAP_BYTES, DEFAULT_NUMA_MMAP_BYTES.
    destruct (Z.eqb_spec numa_bytes 0) as [->|Hne].
    - split; [rewrite Z.mul_comm, Z.mul_mod, Hdiv, Z.mul_0_l by lia; reflexivity|].
      split; [lia|]. intros Hx. contradiction.
    - destruct (Z.gtb_spec num_instances 0) as [_|]; [|lia].
      rewrite align_down by lia.
      set (share := numa_bytes / num_instances).
      destruct (Z.ltb_spec (share - share mod 2 ^ k) (1 * MB)) as [Hlt|Hge].
      + split; [rewrite Z.mul_1_l; exact Hdiv|]. split; [lia|]. intros _. lia.
      + split.
        * pose proof (Z.div_mod share (2 ^ k) ltac:(lia)).
          replace (share - share mod 2 ^ k) with ((share / 2 ^ k) * 2 ^ k) by lia.
          apply Z.mod_mul. lia.
        * split; [lia|]. intros _. lia. }
  destruct Hmod as (Hmod & Hmin & Hset).
  unfold region_pages.
  set (bytes := region_bytes MB (2 ^ k) num_instances numa_bytes) in *.
  pose proof (Z.div_mod bytes (2 ^ k) ltac:(lia)) as Hdm.
  pose proof (Z.div_mod MB (2 ^ k) ltac:(lia)) as HdmMB.
  unfold MIN_NUMA_MMAP_BYTES in *.
  split; [exact Hmin|]. split; [exact Hmod|]. split; [lia|].
  split; [|exact Hset]. nia.
Qed.

Lemma region_is_whole_pages_above_minimum_witness :
  0 < 2 ^ 20
  /\ 0 <= 12
  /\ 2 ^ 20 mod 2 ^ 12 = 0
  /\ 0 < 4
  /\ 0 <= 10000000
  /\ MIN_NUMA_MMAP_BYTES (2 ^ 20) <= region_bytes (2 ^ 20) (2 ^ 12) 4 10000000
  /\ region_bytes (2 ^ 20) (2 ^ 12) 4 10000000 mod 2 ^ 12 = 0
  /\ region_pages (2 ^ 20) (2 ^ 12) 4 10000000 * 2 ^ 12
     = region_bytes (2 ^ 20) (2 ^ 12) 4 10000000
  /\ 0 < region_pages (2 ^ 20) (2 ^ 12) 4 10000000
  /\ (10000000 <> 0 ->
      region_bytes (2 ^ 20) (2 ^ 12) 4 10000000
      = Z.max (MIN_NUMA_MMAP_BYTES (2 ^ 20))
          (10000000 / 4 - (10000000 / 4) mod 2 ^ 12)).
Proof.
  split; [lia|]. split; [lia|]. split; [reflexivity|]. split; [lia|]. split; [lia|].
  apply (region_is_whole_pages_above_minimum (2 ^ 20) 12 4 10000000);
    [lia|lia|reflexivity|lia|lia].
Defined.

(** X14: the exit status of the main loop tells the fatal failures from
    the rest.  The status is [EXIT_SUCCESS] exactly when nothing was
    logged but successes of [mbind] without the capability, which are
    reported and change nothing else; with the capability in hand a run
    that ends in [EXIT_SUCCESS] has logged nothing.  No more rounds are
    counted than were run. *)
Theorem exit_status_tells_fatal_failures
    (cap_sys_nice : bool) (envs : list round_env) :
  match numa_loop cap_sys_nice envs 0 [] with
  | (rc, bogo, log) =>
      (rc = EXIT_SUCCESS \/ rc = EXIT_FAILURE)
      /\ (rc = EXIT_SUCCESS <-> Forall (eq FailMbindNoCapability) log)
      /\ (cap_sys_nice = true /\ rc = EXIT_SUCCESS -> log = [])
      /\ (bogo <= length envs)%nat
  end.
Proof.
  pose proof (numa_loop_log cap_sys_nice envs 0 [] ltac:(constructor)) as Hloop.
  destruct (numa_loop cap_sys_nice envs 0 []) as [[rc bogo] log].
  destruct Hloop as [Hbogo [(Hrc & Hall & Hcap)|(Hrc & f & rest & Hlog & Hf)]].
  - split; [auto|]. split; [tauto|]. split; [intros [Hc _]; auto|lia].
  - split; [auto|]. split.
    + split.
      * intros Hs. rewrite Hrc in Hs. discriminate.
      * intros Hall. rewrite Hlog in Hall. inversion Hall; subst. congruence.
    + split; [|lia]. intros [_ Hs]. rewrite Hrc in Hs. discriminate.
Qed.

(** X15: a kernel that has none of the watched calls does not fail the run:
    if every [get_mempolicy], [set_mempolicy], [mbind] and [move_pages] of
    every round fails with [ENOSYS], the loop logs no failure and the exit
    status is [EXIT_SUCCESS], whenever the run is stopped. *)
Theorem missing_numa_calls_do_not_fail_the_run
    (cap_sys_nice : bool) (envs : list round_env) :
  Forall unsupported envs ->
  exists bogo, numa_loop cap_sys_nice envs 0 [] = (EXIT_SUCCESS, bogo, []).
Proof.
  intros Hall. generalize 0%nat as bogo.
  induction Hall as [|e envs He _ IH]; intros bogo; cbn [numa_loop]; [eauto|].
  destruct (numa_round_unsupported cap_sys_nice e He []) as (fl & -> & Hfl).
  destruct fl; [|eauto|contradiction].
  destruct (stress_continue e); [apply IH|eauto].
Qed.

Lemma missing_numa_calls_do_not_fail_the_run_witness :
  Forall unsupported [enosys_round; enosys_round]
  /\ exists bogo,
       numa_loop false [enosys_round; enosys_round] 0 [] = (EXIT_SUCCESS, bogo, []).
Proof.
  assert (He : unsupported enosys_round).
  { unfold unsupported, enosys_round. cbn. repeat split; lia. }
  split; [repeat constructor; exact He|].
  apply missing_numa_calls_do_not_fail_the_run.
  repeat constructor; exact He.
Defined.

(** * The page lists of the NUMA exerciser *)

(** X16: one pass of the loop that fills the lists for [move_pages], with
    both shuffles off, on the nodes a discovery found: the pass never
    stores outside of the lists and never follows a null pointer, and
    page [i] of the region and the id of the node [i] steps behind [n_tmp]
    end up at the same index, which is [k + i] modulo [num_pages].  So
    the node a page is sent to depends on where [n_tmp] stands, not on
    [k]. *)
Theorem page_and_node_share_an_index
    (calloc_ok : nat -> bool) (status : option (list string))
    (page_size buf : Z) (num_pages m : nat)
    (rnd_addr rnd_node : nat -> nat) (st : page_lists) :
  let d := stress_numa_get_mem_nodes calloc_ok status in
  1 <= numa_nodes d ->
  lists_fit num_pages st ->
  n_tmp st = follow (node_heap d) m (nodes d) ->
  exists st',
    prepare_pages (node_heap d) page_size num_pages buf false false
      rnd_addr rnd_node st = Some st'
    /\ forall i, (i < num_pages)%nat ->
         exists a nd,
           follow (node_heap d) (m + i) (nodes d) = Some a
           /\ node_heap d !! a = Some nd
           /\ pages st' !! ((k st + i) mod num_pages)%nat
              = Some (buf + Z.of_nat i * page_size)
           /\ dest_nodes st' !! ((k st + i) mod num_pages)%nat
              = Some (int_of_ulong (node_id nd)).
Proof.
  cbn zeta. intros Hfound Hfit Hn.
  destruct (discovery_found calloc_ok status Hfound)
    as (s & Hs & Hheap & _ & _ & Hfollow).
  destruct (Hfollow m) as (a & Ha & Hlt).
  rewrite Hheap in *. rewrite Ha in Hn.
  destruct (prepare_pages_ring s Hs page_size buf num_pages false false
              rnd_addr rnd_node st a Hfit Hn Hlt)
    as (st' & Hprep & Hfit' & _ & _ & _ & _ & Hrp & Hrd);
    [discriminate|discriminate|].
  specialize (Hrp eq_refl). specialize (Hrd eq_refl).
  destruct Hfit as (Hlp & Hld & Hk). destruct Hfit' as (Hlp' & Hld' & _).
  exists st'. split; [exact Hprep|].
  intros i Hi.
  destruct (ring_walk_lookup s Hs num_pages i a Hi Hlt)
    as (a' & nd & Hfi & Hnd & Hlook).
  exists a', nd.
  split; [rewrite follow_add, Ha; exact Hfi|].
  split; [exact Hnd|].
  rewrite <- rotate_nat_add_mod.
  split.
  - rewrite <- Hlp' at 1. rewrite <- lookup_rotate_r by lia.
    rewrite Hrp. unfold page_addresses.
    rewrite list_lookup_fmap, lookup_seq_lt by exact Hi. reflexivity.
  - rewrite <- Hld' at 1. rewrite <- lookup_rotate_r by lia.
    rewrite Hrd, list_lookup_fmap, Hlook. reflexivity.
Qed.

Lemma page_and_node_share_an_index_witness :
  let d := stress_numa_get_mem_nodes (fun _ => true) (Some status_nodes_0_3_5) in
  let st := PageLists [0; 0; 0; 0] [0; 0; 0; 0] 3 (Some 1%nat) in
  1 <= numa_nodes d
  /\ lists_fit 4 st
  /\ n_tmp st = follow (node_heap d) 1 (nodes d)
  /\ exists st',
       prepare_pages (node_heap d) 4096 4 65536 false false
         (fun _ => 0%nat) (fun _ => 0%nat) st = Some st'
       /\ forall i, (i < 4)%nat ->
            exists a nd,
              follow (node_heap d) (1 + i) (nodes d) = Some a
              /\ node_heap d !! a = Some nd
              /\ pages st' !! ((k st + i) mod 4)%nat
                 = Some (65536 + Z.of_nat i * 4096)
              /\ dest_nodes st' !! ((k st + i) mod 4)%nat
                 = Some (int_of_ulong (node_id nd)).
Proof.
  cbn zeta.
  assert (Hfit : lists_fit 4 (PageLists [0; 0; 0; 0] [0; 0; 0; 0] 3 (Some 1%nat))).
  { unfold lists_fit. cbn. repeat split; lia. }
  split; [vm_compute; discriminate|]. split; [exact Hfit|].
  split; [vm_compute; reflexivity|].
  apply (page_and_node_share_an_index (fun _ => true) (Some status_nodes_0_3_5)
           4096 65536 4 1 (fun _ => 0%nat) (fun _ => 0%nat)
           (PageLists [0; 0; 0; 0] [0; 0; 0; 0] 3 (Some 1%nat)));
    [vm_compute; discriminate|exact Hfit|vm_compute; reflexivity].
Defined.

(** X17: one pass with any setting of the two shuffles, the random
    numbers being indices into the lists as [stress_mwc32modn(num_pages)]
    makes them: the pass never fails, the page list it hands to
    [move_pages] holds every page of the region exactly once, and the node
    list holds the ids of the [num_pages] nodes behind [n_tmp], each as
    often as the walk meets it; the shuffles change the order only. *)
Theorem shuffles_keep_pages_and_nodes
    (calloc_ok : nat -> bool) (status : option (list string))
    (page_size buf : Z) (num_pages m : nat)
    (numa_shuffle_addr numa_shuffle_node : bool)
    (rnd_addr rnd_node : nat -> nat) (st : page_lists) :
  let d := stress_numa_get_mem_nodes calloc_ok status in
  1 <= numa_nodes d ->
  0 < page_size ->
  lists_fit num_pages st ->
  n_tmp st = follow (node_heap d) m (nodes d) ->
  (numa_shuffle_addr = true -> forall i, (rnd_addr i < num_pages)%nat) ->
  (numa_shuffle_node = true -> forall i, (rnd_node i < num_pages)%nat) ->
  exists st',
    prepare_pages (node_heap d) page_size num_pages buf numa_shuffle_addr
      numa_shuffle_node rnd_addr rnd_node st = Some st'
    /\ pages st' ≡ₚ page_addresses buf page_size num_pages
    /\ NoDup (pages st')
    /\ dest_nodes st' ≡ₚ int_of_ulong <$> walk (node_heap d) num_pages (n_tmp st)
    /\ length (walk (node_heap d) num_pages (n_tmp st)) = num_pages.
Proof.
  cbn zeta. intros Hfound Hsize Hfit Hn Hra Hrn.
  destruct (discovery_found calloc_ok status Hfound)
    as (s & Hs & Hheap & _ & _ & Hfollow).
  destruct (Hfollow m) as (a & Ha & Hlt).
  rewrite Hheap in *. rewrite Ha in Hn.
  destruct (prepare_pages_ring s Hs page_size buf num_pages numa_shuffle_addr
              numa_shuffle_node rnd_addr rnd_node st a Hfit Hn Hlt Hra Hrn)
    as (st' & Hprep & _ & _ & _ & Hpp & Hpd & _).
  exists st'. split; [exact Hprep|]. split; [exact Hpp|].
  split; [rewrite Hpp; apply page_addresses_NoDup, Hsize|].
  rewrite Hn. split; [exact Hpd|]. apply ring_walk_length; assumption.
Qed.

Lemma shuffles_keep_pages_and_nodes_witness :
  let d := stress_numa_get_mem_nodes (fun _ => true) (Some status_nodes_0_3_5) in
  let st := PageLists [0; 0; 0; 0] [0; 0; 0; 0] 3 (Some 1%nat) in
  let rnd_addr := fun i => (3 - i)%nat in
  let rnd_node := fun _ => 2%nat in
  1 <= numa_nodes d
  /\ 0 < 4096
  /\ lists_fit 4 st
  /\ n_tmp st = follow (node_heap d) 1 (nodes d)
  /\ (true = true -> forall i, (rnd_addr i < 4)%nat)
  /\ (true = true -> forall i, (rnd_node i < 4)%nat)
  /\ exists st',
       prepare_pages (node_heap d) 4096 4 65536 true true rnd_addr rnd_node st
       = Some st'
       /\ pages st' ≡ₚ page_addresses 65536 4096 4
       /\ NoDup (pages st')
       /\ dest_nodes st' ≡ₚ int_of_ulong <$> walk (node_heap d) 4 (n_tmp st)
       /\ length (walk (node_heap d) 4 (n_tmp st)) = 4%nat.
Proof.
  cbn zeta.
  assert (Hfit : lists_fit 4 (PageLists [0; 0; 0; 0] [0; 0; 0; 0] 3 (Some 1%nat))).
  { unfold lists_fit. cbn. repeat split; lia. }
  split; [vm_compute; discriminate|]. split; [lia|]. split; [exact Hfit|].
  split; [vm_compute; reflexivity|].
  split; [intros _ i; lia|]. split; [intros _ i; lia|].
  apply (shuffles_keep_pages_and_nodes (fun _ => true) (Some status_nodes_0_3_5)
           4096 65536 4 1 true true (fun i => (3 - i)%nat) (fun _ => 2%nat)
           (PageLists [0; 0; 0; 0] [0; 0; 0; 0] 3 (Some 1%nat)));
    [vm_compute; discriminate|lia|exact Hfit|vm_compute; reflexivity
    |intros _ i; lia|intros _ i; lia].
Defined.

(** X18: the passes can go on for ever.  After any number of passes, from
    any pass on, the lists are still fit for the next one, [k] has moved
    on by one for each pass, modulo [num_pages], and [n_tmp] by
    [num_pages] nodes for each pass; when the number of nodes divides the
    number of pages, [n_tmp] is back where it was, so that with the
    shuffles off every pass sends each page to the node the first pass
    sent it to. *)
Theorem passes_keep_the_lists_fit
    (calloc_ok : nat -> bool) (status : option (list string))
    (page_size buf : Z) (num_pages m : nat)
    (numa_shuffle_addr numa_shuffle_node : bool)
    (rnd_addr rnd_node : nat -> nat -> nat) (count j : nat) (st : page_lists) :
  let d := stress_numa_get_mem_nodes calloc_ok status in
  1 <= numa_nodes d ->
  lists_fit num_pages st ->
  n_tmp st = follow (node_heap d) m (nodes d) ->
  (numa_shuffle_addr = true -> forall j i, (rnd_addr j i < num_pages)%nat) ->
  (numa_shuffle_node = true -> forall j i, (rnd_node j i < num_pages)%nat) ->
  exists st',
    move_passes (node_heap d) page_size num_pages buf numa_shuffle_addr
      numa_shuffle_node rnd_addr rnd_node count j st = Some st'
    /\ lists_fit num_pages st'
    /\ k st' = ((k st + count) mod num_pages)%nat
    /\ n_tmp st' = follow (node_heap d) (m + count * num_pages) (nodes d)
    /\ (Z.of_nat num_pages mod numa_nodes d = 0 -> n_tmp st' = n_tmp st).
Proof.
  cbn zeta. intros Hfound Hfit Hn Hra Hrn.
  destruct (discovery_found calloc_ok status Hfound)
    as (s & Hs & Hheap & Hnodes & Hpos & Hfollow).
  destruct (Hfollow m) as (a & Ha & Hlt).
  rewrite Hheap, Hnodes in *. rewrite Ha in Hn.
  destruct (move_passes_ring s Hs page_size buf num_pages numa_shuffle_addr
              numa_shuffle_node rnd_addr rnd_node count Hra Hrn j st a Hfit Hn Hlt)
    as (st' & Hmove & Hfit' & Hk' & Hn').
  exists st'. split; [exact Hmove|]. split; [exact Hfit'|]. split; [exact Hk'|].
  split; [rewrite follow_add, Ha; exact Hn'|].
  intros Hdiv. rewrite Hn', Hn.
  apply Z.mod_divide in Hdiv; [|lia]. destruct Hdiv as [q Hq].
  assert (Hq' : num_pages = (Z.to_nat q * callocs s)%nat) by nia.
  rewrite Hq'.
  replace (count * (Z.to_nat q * callocs s))%nat
    with ((count * Z.to_nat q) * callocs s)%nat by lia.
  apply ring_turns; assumption.
Qed.

Lemma passes_keep_the_lists_fit_witness :
  let d := stress_numa_get_mem_nodes (fun _ => true) (Some status_nodes_0_3_5) in
  let st := PageLists [0; 0; 0; 0; 0; 0] [0; 0; 0; 0; 0; 0] 0 (Some 1%nat) in
  let rnd := fun (j i : nat) => ((i + j) mod 6)%nat in
  1 <= numa_nodes d
  /\ lists_fit 6 st
  /\ n_tmp st = follow (node_heap d) 1 (nodes d)
  /\ (true = true -> forall j i, (rnd j i < 6)%nat)
  /\ (false = true -> forall j i, (rnd j i < 6)%nat)
  /\ exists st',
       move_passes (node_heap d) 4096 6 65536 true false rnd rnd 16 0 st = Some st'
       /\ lists_fit 6 st'
       /\ k st' = ((k st + 16) mod 6)%nat
       /\ n_tmp st' = follow (node_heap d) (1 + 16 * 6) (nodes d)
       /\ (Z.of_nat 6 mod numa_nodes d = 0 -> n_tmp st' = n_tmp st).
Proof.
  cbn zeta.
  assert (Hfit : lists_fit 6
            (PageLists [0; 0; 0; 0; 0; 0] [0; 0; 0; 0; 0; 0] 0 (Some 1%nat))).
  { unfold lists_fit. cbn. repeat split; lia. }
  assert (Hrnd : forall j i : nat, ((i + j) mod 6 < 6)%nat).
  { intros j i. apply Nat.mod_upper_bound. lia. }
  split; [vm_compute; discriminate|]. split; [exact Hfit|].
  split; [vm_compute; reflexivity|].
  split; [intros _; exact Hrnd|]. split; [intros _; exact Hrnd|].
  apply (passes_keep_the_lists_fit (fun _ => true) (Some status_nodes_0_3_5)
           4096 65536 6 1 true false (fun j i => ((i + j) mod 6)%nat)
           (fun j i => ((i + j) mod 6)%nat) 16 0
           (PageLists [0; 0; 0; 0; 0; 0] [0; 0; 0; 0; 0; 0] 0 (Some 1%nat)));
    [vm_compute; discriminate|exact Hfit|vm_compute; reflexivity
    |intros _; exact Hrnd|intros _; exact Hrnd].
Defined.
